(** * FiftyOne model-application and embedding pipeline

    A shallow embedding of [fiftyone/core/models.py] (the embedding
    executors, the batch-size negotiation and the patch pipeline) and of
    [export_voc_detection_dataset] from [fiftyone/utils/voc.py].

    Python objects with mutable state are modelled by explicit state
    passing; exceptions by a sum type; dictionaries by stdpp's [gmap];
    numpy arrays by nested lists. *)

From Stdlib Require Import ZArith QArith Qround String Ascii List Lia.
From stdpp Require Import base gmap strings list.

Close Scope Q_scope.
Open Scope string_scope.
Open Scope list_scope.
Open Scope Z_scope.

(** ** Exceptions and results *)

Inductive exn :=
| ValueError (msg : string)
| TypeError (msg : string)
| IndexError (msg : string)
| KeyError (msg : string)
| NotImplementedError (msg : string)
| ExternalError (msg : string).

Inductive result (A : Type) :=
| Ok (a : A)
| Raise (e : exn).
Arguments Ok {A} a.
Arguments Raise {A} e.

Definition is_ok {A} (r : result A) : bool :=
  match r with Ok _ => true | Raise _ => false end.

(** ** State and exceptions

    A computation receives a state, returns a value or raises, and leaves
    a state behind in both cases: what was done before an exception is not
    rolled back. *)

Definition St (S A : Type) : Type := S -> result A * S.

Definition ret {S A} (a : A) : St S A := fun s => (Ok a, s).

Definition raise {S A} (e : exn) : St S A := fun s => (Raise e, s).

Definition bind {S A B} (m : St S A) (f : A -> St S B) : St S B :=
  fun s => match m s with
           | (Ok a, s') => f a s'
           | (Raise e, s') => (Raise e, s')
           end.

Definition lift {S A} (r : result A) : St S A := fun s => (r, s).

Declare Scope st_scope.
Delimit Scope st_scope with st.
Notation "x <- c1 ;; c2" := (bind c1 (fun x => c2))
  (at level 100, c1 at next level, right associativity) : st_scope.
Notation "c1 ;;; c2" := (bind c1 (fun _ => c2))
  (at level 100, right associativity) : st_scope.
Open Scope st_scope.

(** [for x in l: acc = body(x, acc)] *)
Fixpoint for_acc {S A Acc} (body : A -> Acc -> St S Acc) (l : list A)
    (acc : Acc) : St S Acc :=
  match l with
  | [] => ret acc
  | x :: rest => acc' <- body x acc ;; for_acc body rest acc'
  end.

(** [for x in l: body(x)] *)
Definition for_each {S A} (body : A -> St S unit) (l : list A) : St S unit :=
  for_acc (fun x _ => body x) l tt.

(** [[f(x) for x in l]] *)
Fixpoint map_st {S A B} (f : A -> St S B) (l : list A) : St S (list B) :=
  match l with
  | [] => ret []
  | x :: rest => y <- f x ;; ys <- map_st f rest ;; ret (y :: ys)
  end.

(** ** numpy arrays

    An array is a scalar (zero dimensions) or a sequence of sub-arrays
    along axis 0. The pipeline never computes on the elements, so they
    are carried as integers. *)
Module Np.

#[warnings="-register-all"]
Inductive ndarray :=
| Scalar (v : Z)
| NDArray (rows : list ndarray).

Fixpoint shape (a : ndarray) : list nat :=
  match a with
  | Scalar _ => []
  | NDArray rows =>
      length rows :: match rows with
                     | [] => []
                     | r :: _ => shape r
                     end
  end.

(** the number of nodes of the nested sequence *)
Fixpoint weight (a : ndarray) : nat :=
  match a with
  | Scalar _ => 1%nat
  | NDArray rows =>
      S ((fix total (l : list ndarray) : nat :=
            match l with
            | [] => 0%nat
            | r :: l' => (weight r + total l')%nat
            end) rows)
  end.

Definition ndim (a : ndarray) : nat := length (shape a).

(** [len(a)], the first dimension *)
Definition first_dim (a : ndarray) : option nat := head (shape a).

(** the sub-arrays along axis 0 *)
Definition rows_of (a : ndarray) : list ndarray :=
  match a with
  | Scalar _ => []
  | NDArray rows => rows
  end.

(** [a[0]] *)
Definition getitem0 (a : ndarray) : result ndarray :=
  match a with
  | Scalar _ => Raise (IndexError "invalid index to scalar variable")
  | NDArray [] => Raise (IndexError "index 0 is out of bounds for axis 0 with size 0")
  | NDArray (r :: _) => Ok r
  end.

(** [iter(a)] *)
Definition iter_rows (a : ndarray) : result (list ndarray) :=
  match a with
  | Scalar _ => Raise (TypeError "iteration over a 0-d array")
  | NDArray rows => Ok rows
  end.

Definition same_shape (a b : ndarray) : bool :=
  bool_decide (shape b = shape a).

(** [np.stack(l, axis=0)] *)
Definition stack (l : list ndarray) : result ndarray :=
  match l with
  | [] => Raise (ValueError "need at least one array to stack")
  | a :: rest =>
      if forallb (same_shape a) rest then Ok (NDArray l)
      else Raise (ValueError "all input arrays must have the same shape")
  end.

Definition concat_compatible (a b : ndarray) : bool :=
  bool_decide (0 < ndim b)%nat && bool_decide (tail (shape b) = tail (shape a)).

(** [np.concatenate(l)], along axis 0 *)
Definition concatenate (l : list ndarray) : result ndarray :=
  match l with
  | [] => Raise (ValueError "need at least one array to concatenate")
  | a :: _ =>
      if forallb (concat_compatible a) l
      then Ok (NDArray (concat (map rows_of l)))
      else Raise (ValueError "all the input array dimensions except for the concatenation axis must match exactly")
  end.

End Np.
Export Np.

(** ** Labels, samples and collections *)

Inductive MediaType := IMAGE | VIDEO.

#[global] Instance MediaType_eq_dec : EqDecision MediaType.
Proof. solve_decision. Defined.

(** A detection carries its [bounding_box] as normalized [[x, y, w, h]]. *)
Record Detection := {
  label : string;
  bounding_box : Q * Q * Q * Q
}.

Record Polyline := { points : list (list (Q * Q)) }.

Inductive Label :=
| LDetection (d : Detection)
| LDetections (detections : list Detection)
| LPolyline (p : Polyline)
| LPolylines (polylines : list Polyline)
| LOther (cls : string).

Inductive LabelType := TDetection | TDetections | TPolyline | TPolylines | TOther.

Inductive FieldValue :=
| VNone
| VLabel (l : Label)
| VArray (a : ndarray).

Record Sample := {
  sample_id : string;
  filepath : string
}.

Record SampleCollection := {
  media_type : MediaType;
  schema : gmap string LabelType;
  sample_list : list Sample
}.

(** What a model is given: a decoded image or a frame reader on a video. *)
Inductive Media :=
| ImageArray (img : ndarray)
| VideoReader (path : string).

(** ** The world the pipeline acts on *)

Inductive Event :=
| EvEnter
| EvExit
| EvRead (path : string)
| EvOpenVideo (path : string)
| EvCloseVideo (path : string)
| EvEmbed (arg : Media)
| EvEmbedAll (args : list Media)
| EvSave (id : string)
| EvWarning (msg : string).

(** [fields] holds the value of every field of every sample, keyed by
    sample id and field name; [trace] lists the effects in the order they
    happened. *)
Record World (M : Type) := {
  model : M;
  fields : gmap (string * string) FieldValue;
  trace : list Event
}.
Arguments model {M} w.
Arguments fields {M} w.
Arguments trace {M} w.

(** ** Models

    [M] is the state of a model object; a method takes it and returns it
    updated. The two [isinstance] fields say which mixins the class of the
    object inherits. *)
Record ModelClass (M : Type) := {
  isinstance_EmbeddingsMixin : bool;
  isinstance_TorchModelMixin : bool;
  ragged_batches : M -> result bool;
  has_embeddings : M -> result bool;
  enter : M -> M;
  exit : M -> M;
  predict : Media -> St M Label;
  get_embeddings : St M ndarray;
  embed : Media -> St M ndarray;
  embed_all : list Media -> St M ndarray
}.
Arguments isinstance_EmbeddingsMixin {M} m.
Arguments isinstance_TorchModelMixin {M} m.
Arguments ragged_batches {M} m.
Arguments has_embeddings {M} m.
Arguments enter {M} m.
Arguments exit {M} m.
Arguments predict {M} m.
Arguments get_embeddings {M} m.
Arguments embed {M} m.
Arguments embed_all {M} m.

(** [Model.ragged_batches] and [EmbeddingsMixin.has_embeddings] of the base
    classes *)
Definition Model_ragged_batches {M} : M -> result bool :=
  fun _ => Raise (NotImplementedError "subclasses must implement ragged_batches").

Definition EmbeddingsMixin_has_embeddings {M} : M -> result bool :=
  fun _ => Raise (NotImplementedError "subclasses must implement has_embeddings").

(** [EmbeddingsMixin.embed]: call [predict], then return [get_embeddings] *)
Definition EmbeddingsMixin_embed {M} (self : ModelClass M) (arg : Media)
    : St M ndarray :=
  predict self arg ;;; get_embeddings self.

(** [EmbeddingsMixin.embed_all]:
    [np.stack([self.embed(arg) for arg in args], axis=0)] *)
Definition EmbeddingsMixin_embed_all {M} (self : ModelClass M)
    (args : list Media) : St M ndarray :=
  es <- map_st (embed self) args ;; lift (Np.stack es).

(** ** Bounding boxes *)

Record BoundingBox := {
  tlx : Q; tly : Q;
  brx : Q; bry : Q
}.

(** Modelled from the spec: [Detection.to_detected_object] is not part of
    the sources at hand; the detection's normalized [[x, y, w, h]] box is
    taken as its top-left and bottom-right corners. *)
Definition to_detected_object (d : Detection) : BoundingBox :=
  let '(x, y, w, h) := bounding_box d in
  {| tlx := x; tly := y; brx := (x + w)%Q; bry := (y + h)%Q |}.

Definition clamp01 (q : Q) : Q :=
  if Qle_bool q 0 then 0%Q else if Qle_bool 1 q then 1%Q else q.

(** Modelled from the spec: [BoundingBox.pad_relative] is not part of the
    sources at hand; both box dimensions are scaled by [1 + alpha] about
    the box centre and the corners are clamped to the unit square. *)
Definition pad_relative (b : BoundingBox) (alpha : Q) : BoundingBox :=
  let cx := ((tlx b + brx b) / 2)%Q in
  let cy := ((tly b + bry b) / 2)%Q in
  let hw := ((1 + alpha) * (brx b - tlx b) / 2)%Q in
  let hh := ((1 + alpha) * (bry b - tly b) / 2)%Q in
  {| tlx := clamp01 (cx - hw); tly := clamp01 (cy - hh);
     brx := clamp01 (cx + hw); bry := clamp01 (cy + hh) |}.

(** Python's [l[a:b]] *)
Definition slice_index (n i : Z) : Z :=
  if i <? 0 then Z.max 0 (i + n) else Z.min i n.

Definition slice {A} (l : list A) (a b : Z) : list A :=
  let n := Z.of_nat (length l) in
  let a' := slice_index n a in
  let b' := slice_index n b in
  take (Z.to_nat (b' - a')) (drop (Z.to_nat a') l).

(** [img[y:y+h, x:x+w, ...]] of an HWC image for the pixel box [(x, y, w, h)] *)
Definition crop (img : ndarray) (box : Z * Z * Z * Z) : ndarray :=
  let '(x, y, w, h) := box in
  NDArray (map (fun row => NDArray (slice (rows_of row) x (x + w)))
               (slice (rows_of img) y (y + h))).

Definition img_height (img : ndarray) : Z := Z.of_nat (length (rows_of img)).
Definition img_width (img : ndarray) : Z :=
  match rows_of img with
  | [] => 0
  | row :: _ => Z.of_nat (length (rows_of row))
  end.

(** ** Batches *)

Fixpoint chunks {A} (fuel n : nat) (l : list A) : list (list A) :=
  match fuel with
  | O => []
  | S fuel' =>
      match l with
      | [] => []
      | _ :: _ => take n l :: chunks fuel' n (drop n l)
      end
  end.

(** Modelled from the spec: [fiftyone.core.utils.iter_batches] is not part
    of the sources at hand; a sequence is cut into contiguous batches of
    [batch_size] items, the last one possibly shorter. The spec gives no
    meaning to a size below one; no batch is produced there. *)
Definition iter_batches {A} (l : list A) (batch_size : Z) : list (list A) :=
  if batch_size <? 1 then [] else chunks (length l) (Z.to_nat batch_size) l.

(** ** What the pipeline takes from outside this module *)

Record Env (M : Type) := {
  (** [fo.config.default_batch_size] *)
  default_batch_size : option Z;
  (** [eta.core.image.read] *)
  etai_read : string -> result ndarray;
  (** opening an [eta.core.video.FFmpegVideoReader] *)
  open_video : string -> result unit;
  (** [Polyline.to_detection] and [Polylines.to_detections] *)
  to_detection : Polyline -> Detection;
  to_detections : list Polyline -> list Detection;
  (** [fiftyone.core.validation.validate_collection_label_fields] *)
  validate_collection_label_fields :
    gmap string LabelType -> string -> list LabelType -> result unit;
  (** rounding of a pixel coordinate, and the squaring of a box, inside
      [BoundingBox.extract_from] *)
  to_pixel : Q -> Z;
  square_bbox : BoundingBox -> Z -> Z -> BoundingBox;
  (** the data-loader paths of [fiftyone.utils.torch] *)
  compute_torch_image_embeddings :
    SampleCollection -> option string -> option Z ->
    St (World M) (option ndarray);
  compute_torch_image_patch_embeddings :
    SampleCollection -> string -> option string -> option Z ->
    St (World M) (option (gmap string ndarray))
}.
Arguments default_batch_size {M} e.
Arguments etai_read {M} e.
Arguments open_video {M} e.
Arguments to_detection {M} e.
Arguments to_detections {M} e.
Arguments validate_collection_label_fields {M} e.
Arguments to_pixel {M} e.
Arguments square_bbox {M} e.
Arguments compute_torch_image_embeddings {M} e.
Arguments compute_torch_image_patch_embeddings {M} e.

(** Python's truth value of an optional field name: [None] and the empty
    string are false. *)
Definition truthy (name : option string) : bool :=
  match name with
  | Some (String _ _) => true
  | _ => false
  end.

Definition field_key (name : option string) : string := default EmptyString name.

(** ** [fiftyone/core/models.py] *)
Module Models.
Section Pipeline.

Context {M : Type}.
Variable self : ModelClass M.
Variable env : Env M.

Local Abbreviation Run := (St (World M)).

Definition emit (ev : Event) : Run unit :=
  fun w => (Ok tt, {| model := model w; fields := fields w;
                      trace := trace w ++ [ev] |}).

Definition on_model {A} (method : St M A) : Run A :=
  fun w => let (r, m') := method (model w) in
           (r, {| model := m'; fields := fields w; trace := trace w |}).

(** [with model: body]: teardown runs on every way out of the body. *)
Definition with_model {A} (body : Run A) : Run A :=
  fun w =>
    let w1 := {| model := enter self (model w); fields := fields w;
                 trace := trace w ++ [EvEnter] |} in
    let (r, w2) := body w1 in
    (r, {| model := exit self (model w2); fields := fields w2;
           trace := trace w2 ++ [EvExit] |}).

Definition call_embed (arg : Media) : Run ndarray :=
  emit (EvEmbed arg) ;;; on_model (embed self arg).

Definition call_embed_all (args : list Media) : Run ndarray :=
  emit (EvEmbedAll args) ;;; on_model (embed_all self args).

(** [etai.read(path)] *)
Definition read_image (path : string) : Run ndarray :=
  emit (EvRead path) ;;; lift (etai_read env path).

(** Modelled from the spec: the [Sample] class is not part of the sources
    at hand; [sample[field]] reads the stored value and raises for a field
    the sample does not have, [sample[field] = value] stores it, and
    [sample.save()] persists the sample. *)
Definition sample_getitem (sample : Sample) (field : string) : Run FieldValue :=
  fun w => match fields w !! (sample_id sample, field) with
           | Some v => (Ok v, w)
           | None => (Raise (KeyError field), w)
           end.

Definition sample_setitem (sample : Sample) (field : string) (v : FieldValue)
    : Run unit :=
  fun w => (Ok tt, {| model := model w;
                      fields := <[(sample_id sample, field) := v]> (fields w);
                      trace := trace w |}).

Definition sample_save (sample : Sample) : Run unit :=
  emit (EvSave (sample_id sample)).

Definition _parse_batch_size (batch_size : option Z) : Run (option Z) :=
  let batch_size :=
    match batch_size with
    | None => default_batch_size env
    | Some b => Some b
    end in
  match batch_size with
  | Some b =>
      if 1 <? b then
        ragged <- on_model (fun m => (ragged_batches self m, m)) ;;
        if (ragged : bool) then
          emit (EvWarning "Model does not support batching") ;;; ret None
        else ret (Some b)
      else ret (Some b)
  | None => ret None
  end.

Definition _compute_image_embeddings_single (samples : list Sample)
    (embeddings_field : option string) : Run (option ndarray) :=
  embeddings <- with_model (for_acc (fun sample embeddings =>
      img <- read_image (filepath sample) ;;
      embedding <- call_embed (ImageArray img) ;;
      if truthy embeddings_field then
        e0 <- lift (getitem0 embedding) ;;
        sample_setitem sample (field_key embeddings_field) (VArray e0) ;;;
        sample_save sample ;;;
        ret embeddings
      else ret (embeddings ++ [embedding])) samples []) ;;
  if truthy embeddings_field then ret None
  else a <- lift (Np.concatenate embeddings) ;; ret (Some a).

Definition _compute_image_embeddings_batch (samples : list Sample)
    (embeddings_field : option string) (batch_size : Z)
    : Run (option ndarray) :=
  let samples_loader := iter_batches samples batch_size in
  embeddings <- with_model (for_acc (fun sample_batch embeddings =>
      imgs <- map_st (fun sample => read_image (filepath sample)) sample_batch ;;
      embeddings_batch <- call_embed_all (map ImageArray imgs) ;;
      if truthy embeddings_field then
        rows <- lift (iter_rows embeddings_batch) ;;
        for_each (fun '(sample, embedding) =>
            sample_setitem sample (field_key embeddings_field) (VArray embedding) ;;;
            sample_save sample) (zip sample_batch rows) ;;;
        ret embeddings
      else ret (embeddings ++ [embeddings_batch])) samples_loader []) ;;
  if truthy embeddings_field then ret None
  else a <- lift (Np.concatenate embeddings) ;; ret (Some a).

(** [with etav.FFmpegVideoReader(path) as video_reader: body] *)
Definition with_video_reader {A} (path : string) (body : Media -> Run A)
    : Run A :=
  emit (EvOpenVideo path) ;;;
  lift (open_video env path) ;;;
  fun w => let (r, w') := body (VideoReader path) w in
           (r, snd (emit (EvCloseVideo path) w')).

Definition _compute_video_embeddings (samples : list Sample)
    (embeddings_field : option string) : Run (option ndarray) :=
  embeddings <- with_model (for_acc (fun sample embeddings =>
      embedding <- with_video_reader (filepath sample) call_embed ;;
      if truthy embeddings_field then
        e0 <- lift (getitem0 embedding) ;;
        sample_setitem sample (field_key embeddings_field) (VArray e0) ;;;
        sample_save sample ;;;
        ret embeddings
      else ret (embeddings ++ [embedding])) samples []) ;;
  if truthy embeddings_field then ret None
  else a <- lift (Np.concatenate embeddings) ;; ret (Some a).

(** the two capability checks shared by the entry points *)
Definition check_embeddings_model : Run unit :=
  if negb (isinstance_EmbeddingsMixin self) then
    raise (ValueError "Model must implement the EmbeddingsMixin mixin")
  else
    he <- on_model (fun m => (has_embeddings self m, m)) ;;
    if negb he then
      raise (ValueError "Model does not expose embeddings (model.has_embeddings = False)")
    else ret tt.

Definition compute_embeddings (samples : SampleCollection)
    (embeddings_field : option string) (batch_size : option Z)
    : Run (option ndarray) :=
  check_embeddings_model ;;;
  if bool_decide (media_type samples = VIDEO) then
    _compute_video_embeddings (sample_list samples) embeddings_field
  else if isinstance_TorchModelMixin self then
    compute_torch_image_embeddings env samples embeddings_field batch_size
  else
    batch_size <- _parse_batch_size batch_size ;;
    match batch_size with
    | Some b =>
        _compute_image_embeddings_batch (sample_list samples)
          embeddings_field b
    | None =>
        _compute_image_embeddings_single (sample_list samples)
          embeddings_field
    end.

Definition pixel_box (b : BoundingBox) (img : ndarray) : Z * Z * Z * Z :=
  let x1 := to_pixel env (tlx b * inject_Z (img_width img))%Q in
  let y1 := to_pixel env (tly b * inject_Z (img_height img))%Q in
  let x2 := to_pixel env (brx b * inject_Z (img_width img))%Q in
  let y2 := to_pixel env (bry b * inject_Z (img_height img))%Q in
  (x1, y1, x2 - x1, y2 - y1).

(** Modelled from the spec: [BoundingBox.extract_from] is not part of the
    sources at hand; the box, squared first when asked to, is converted to
    pixel coordinates of the image and the image is cropped to it. *)
Definition extract_box (b : BoundingBox) (img : ndarray) (force_square : bool)
    : Z * Z * Z * Z :=
  let b' := if force_square
            then square_bbox env b (img_width img) (img_height img)
            else b in
  pixel_box b' img.

Definition extract_from (b : BoundingBox) (img : ndarray) (force_square : bool)
    : ndarray :=
  crop img (extract_box b img force_square).

(** the box [_extract_patch] hands to [extract_from] *)
Definition _extract_patch_bbox (detection : Detection) (alpha : option Q)
    : BoundingBox :=
  let bbox := to_detected_object detection in
  match alpha with
  | Some a => pad_relative bbox a
  | None => bbox
  end.

Definition _extract_patch (img : ndarray) (detection : Detection)
    (force_square : bool) (alpha : option Q) : ndarray :=
  extract_from (_extract_patch_bbox detection alpha) img force_square.

Definition _parse_patches (sample : Sample) (patches_field : string)
    : Run (option (list Detection)) :=
  label <- sample_getitem sample patches_field ;;
  ret match label with
      | VLabel (LDetections ds) => Some ds
      | VLabel (LDetection d) => Some [d]
      | VLabel (LPolyline p) => Some [to_detection env p]
      | VLabel (LPolylines ps) => Some (to_detections env ps)
      | _ => None
      end.

Definition _embed_patches_single (img : ndarray) (detections : list Detection)
    (force_square : bool) (alpha : option Q) : Run ndarray :=
  embeddings <- for_acc (fun detection embeddings =>
      let patch := _extract_patch img detection force_square alpha in
      embedding <- call_embed (ImageArray patch) ;;
      ret (embeddings ++ [embedding])) detections [] ;;
  lift (Np.concatenate embeddings).

Definition _embed_patches_batch (img : ndarray) (detections : list Detection)
    (force_square : bool) (alpha : option Q) (batch_size : Z) : Run ndarray :=
  embeddings <- for_acc (fun detection_batch embeddings =>
      let patches :=
        map (fun d => _extract_patch img d force_square alpha) detection_batch in
      embeddings_batch <- call_embed_all (map ImageArray patches) ;;
      ret (embeddings ++ [embeddings_batch]))
    (iter_batches detections batch_size) [] ;;
  lift (Np.concatenate embeddings).

Definition allowed_types : list LabelType :=
  [TDetection; TDetections; TPolyline; TPolylines].

(** one turn of the loop of [compute_patch_embeddings] *)
Definition patch_embeddings_step (patches_field : string)
    (embeddings_field : option string) (batch_size : option Z)
    (force_square : bool) (alpha : option Q)
    (sample : Sample) (embeddings_dict : gmap string ndarray)
    : Run (gmap string ndarray) :=
  detections <- _parse_patches sample patches_field ;;
  match detections with
  | None | Some [] => ret embeddings_dict
  | Some ds =>
      img <- read_image (filepath sample) ;;
      embeddings <-
        match batch_size with
        | None => _embed_patches_single img ds force_square alpha
        | Some b => _embed_patches_batch img ds force_square alpha b
        end ;;
      if truthy embeddings_field then
        sample_setitem sample (field_key embeddings_field) (VArray embeddings) ;;;
        sample_save sample ;;;
        ret embeddings_dict
      else ret (<[sample_id sample := embeddings]> embeddings_dict)
  end.

Definition compute_patch_embeddings (samples : SampleCollection)
    (patches_field : string) (embeddings_field : option string)
    (batch_size : option Z) (force_square : bool) (alpha : option Q)
    : Run (option (gmap string ndarray)) :=
  if negb (bool_decide (media_type samples = IMAGE)) then
    raise (ValueError "This method only supports image samples")
  else
    check_embeddings_model ;;;
    if isinstance_TorchModelMixin self then
      compute_torch_image_patch_embeddings env samples patches_field
        embeddings_field batch_size
    else
      lift (validate_collection_label_fields env (schema samples)
              patches_field allowed_types) ;;;
      batch_size <- _parse_batch_size batch_size ;;
      embeddings_dict <- with_model
        (for_acc (patch_embeddings_step patches_field embeddings_field
                    batch_size force_square alpha)
                 (sample_list samples) ∅) ;;
      ret (if truthy embeddings_field then None else Some embeddings_dict).

End Pipeline.
End Models.

(** ** [fiftyone/utils/voc.py] *)
Module Voc.

(** *** [os.path] on POSIX paths *)

(** [s.rfind(c)]: the index of the last [c] in [s], or [-1] *)
Fixpoint rfind (c : ascii) (s : string) : Z :=
  match s with
  | EmptyString => -1
  | String d rest =>
      let i := rfind c rest in
      if 0 <=? i then i + 1
      else if Ascii.eqb d c then 0 else -1
  end.

(** [s[:n]] and [s[n:]] for [0 <= n] *)
Fixpoint str_take (n : nat) (s : string) : string :=
  match n, s with
  | S n', String c rest => String c (str_take n' rest)
  | _, _ => EmptyString
  end.

Fixpoint str_drop (n : nat) (s : string) : string :=
  match n, s with
  | S n', String _ rest => str_drop n' rest
  | _, _ => s
  end.

Definition basename (p : string) : string :=
  str_drop (Z.to_nat (rfind "/" p + 1)) p.

Fixpoint all_dots (s : string) : bool :=
  match s with
  | EmptyString => true
  | String c rest => Ascii.eqb c "." && all_dots rest
  end.

(** [os.path.splitext]: split at the last dot, unless it belongs to a
    directory name or only dots precede it in the file name *)
Definition splitext (p : string) : string * string :=
  let sepIndex := rfind "/" p in
  let dotIndex := rfind "." p in
  if sepIndex <? dotIndex then
    let filename := str_drop (Z.to_nat (sepIndex + 1)) p in
    if all_dots (str_take (Z.to_nat (dotIndex - (sepIndex + 1))) filename)
    then (p, EmptyString)
    else (str_take (Z.to_nat dotIndex) p, str_drop (Z.to_nat dotIndex) p)
  else (p, EmptyString).

Definition starts_with_sep (s : string) : bool :=
  match s with
  | String c _ => Ascii.eqb c "/"
  | EmptyString => false
  end.

Fixpoint ends_with_sep (s : string) : bool :=
  match s with
  | EmptyString => false
  | String c EmptyString => Ascii.eqb c "/"
  | String _ rest => ends_with_sep rest
  end.

(** [os.path.join(a, b)] *)
Definition join (a b : string) : string :=
  if starts_with_sep b then b
  else if ends_with_sep a || bool_decide (a = EmptyString)
       then String.append a b
       else String.append a (String "/" b).

(** *** Python values met by [+] *)

Inductive pyval :=
| PStr (s : string)
| PInt (n : Z).

(** [a + b] *)
Definition py_add (a b : pyval) : result pyval :=
  match a, b with
  | PStr s, PStr t => Ok (PStr (String.append s t))
  | PInt n, PInt m => Ok (PInt (n + m))
  | PStr _, PInt _ => Raise (TypeError "can only concatenate str (not int) to str")
  | PInt _, PStr _ => Raise (TypeError "unsupported operand type(s) for +: int and str")
  end.

Definition as_str (v : pyval) : result string :=
  match v with
  | PStr s => Ok s
  | PInt _ => Raise (TypeError "expected str")
  end.

(** *** The file system *)

Inductive FsEvent :=
| EnsureDir (dir : string)
| CopyFile (inpath outpath : string)
| ReadImage (path : string)
| AnnotationWritten (img_path xml_path : string).

Record FsEnv := {
  (** [etau.copy_file], [etai.read] and [etau.write_file] can fail *)
  copy_ok : string -> string -> result unit;
  read_ok : string -> result ndarray;
  write_ok : string -> result unit
}.

Section ExportDataset.

Variable fs : FsEnv.

Local Abbreviation Io := (St (list FsEvent)).

Definition log (ev : FsEvent) : Io unit := fun t => (Ok tt, t ++ [ev]).

Definition ensure_dir (dir : string) : Io unit := log (EnsureDir dir).

Definition copy_file (inpath outpath : string) : Io unit :=
  lift (copy_ok fs inpath outpath) ;;; log (CopyFile inpath outpath).

Definition read (path : string) : Io ndarray :=
  img <- lift (read_ok fs path) ;; log (ReadImage path) ;;; ret img.

(** [VOCAnnotationWriter.write_annotation]: the rendered XML, which names
    [img_path], is written to [xml_path] *)
Definition write_annotation (img : ndarray) (detections : list Detection)
    (img_path xml_path : string) : Io unit :=
  lift (write_ok fs xml_path) ;;; log (AnnotationWritten img_path xml_path).

(** one turn of the loop of [export_voc_detection_dataset] *)
Definition export_step (data_dir labels_dir : string)
    (item : string * list Detection) (data_filename_counts : gmap string Z)
    : Io (gmap string Z) :=
  let '(img_path, label) := item in
  let '(name, ext) := splitext (basename img_path) in
  let data_filename_counts :=
    <[name := default 0 (data_filename_counts !! name) + 1]>
      data_filename_counts in
  let count := default 0 (data_filename_counts !! name) in
  name <- (if 1 <? count then
             suffix <- lift (py_add (PStr "-%d") (PInt count)) ;;
             v <- lift (py_add (PStr name) suffix) ;;
             lift (as_str v)
           else ret name) ;;
  let out_img_path := join data_dir (String.append name ext) in
  let out_anno_path := join labels_dir (String.append name ".xml") in
  copy_file img_path out_img_path ;;;
  img <- read img_path ;;
  write_annotation img label out_img_path out_anno_path ;;;
  ret data_filename_counts.

Definition export_voc_detection_dataset (image_paths : list string)
    (labels : list (list Detection)) (dataset_dir : string) : Io unit :=
  let data_dir := join dataset_dir "data" in
  let labels_dir := join dataset_dir "labels" in
  ensure_dir data_dir ;;;
  ensure_dir labels_dir ;;;
  for_acc (export_step data_dir labels_dir) (zip image_paths labels) ∅ ;;;
  ret tt.

End ExportDataset.
End Voc.

(** ** Concrete models and collaborators, for evaluation *)
Module Demo.

(** a class deriving from [Model] and [EmbeddingsMixin] that keeps the
    default [embed] and [embed_all] of the mixin *)
Definition inherit_EmbeddingsMixin {M} (base : ModelClass M) : ModelClass M :=
  let with_embed :=
    {| isinstance_EmbeddingsMixin := true;
       isinstance_TorchModelMixin := isinstance_TorchModelMixin base;
       ragged_batches := ragged_batches base;
       has_embeddings := has_embeddings base;
       enter := enter base; exit := exit base;
       predict := predict base; get_embeddings := get_embeddings base;
       embed := EmbeddingsMixin_embed base;
       embed_all := embed_all base |} in
  {| isinstance_EmbeddingsMixin := true;
     isinstance_TorchModelMixin := isinstance_TorchModelMixin base;
     ragged_batches := ragged_batches base;
     has_embeddings := has_embeddings base;
     enter := enter base; exit := exit base;
     predict := predict base; get_embeddings := get_embeddings base;
     embed := EmbeddingsMixin_embed base;
     embed_all := EmbeddingsMixin_embed_all with_embed |}.

(** the feature vector of an image: its height and its width *)
Definition feature (arg : Media) : ndarray :=
  match arg with
  | ImageArray img => NDArray [Scalar (img_height img); Scalar (img_width img)]
  | VideoReader path => NDArray [Scalar (Z.of_nat (String.length path)); Scalar 0]
  end.

(** A model whose state is the embeddings of its last forward pass, with a
    leading batch axis of size one as [get_embeddings] documents. *)
Definition last_pass_base (ragged : bool) (has : bool)
    : ModelClass (option ndarray) :=
  {| isinstance_EmbeddingsMixin := true;
     isinstance_TorchModelMixin := false;
     ragged_batches := fun _ => Ok ragged;
     has_embeddings := fun _ => Ok has;
     enter := fun m => m; exit := fun m => m;
     predict := fun arg _ => (Ok (LOther "Classification"),
                              Some (NDArray [feature arg]));
     get_embeddings := fun m =>
       match m with
       | Some e => (Ok e, m)
       | None => (Raise (ValueError "no forward pass yet"), m)
       end;
     embed := fun _ => raise (NotImplementedError "embed");
     embed_all := fun _ => raise (NotImplementedError "embed_all") |}.

Definition default_model : ModelClass (option ndarray) :=
  inherit_EmbeddingsMixin (last_pass_base false true).

Definition ragged_model : ModelClass (option ndarray) :=
  inherit_EmbeddingsMixin (last_pass_base true true).

Definition no_embeddings_model : ModelClass (option ndarray) :=
  inherit_EmbeddingsMixin (last_pass_base false false).

(** a model that overrides [embed_all] to return one row per input *)
Definition batched_model : ModelClass (option ndarray) :=
  {| isinstance_EmbeddingsMixin := true;
     isinstance_TorchModelMixin := false;
     ragged_batches := fun _ => Ok false;
     has_embeddings := fun _ => Ok true;
     enter := fun m => m; exit := fun m => m;
     predict := predict (last_pass_base false true);
     get_embeddings := get_embeddings (last_pass_base false true);
     embed := fun arg m => (Ok (NDArray [feature arg]), m);
     embed_all := fun args m => (Ok (NDArray (map feature args)), m) |}.

(** an image of [h] rows of [w] pixels with three channels *)
Definition blank_image (h w : nat) : ndarray :=
  NDArray (replicate h (NDArray (replicate w (NDArray [Scalar 0; Scalar 0; Scalar 0])))).

(** Every path decodes to an image as wide as the path is long. *)
Definition env {M} (default_size : option Z) : Env M :=
  {| default_batch_size := default_size;
     etai_read := fun path => Ok (blank_image 4 (String.length path));
     open_video := fun _ => Ok tt;
     to_detection := fun _ => {| label := "polyline"; bounding_box := (0, 0, 1, 1)%Q |};
     to_detections := map (fun _ => {| label := "polyline"; bounding_box := (0, 0, 1, 1)%Q |});
     validate_collection_label_fields := fun _ _ _ => Ok tt;
     to_pixel := Qfloor;
     square_bbox := fun b _ _ => b;
     compute_torch_image_embeddings := fun _ _ _ => ret None;
     compute_torch_image_patch_embeddings := fun _ _ _ _ => ret None |}.

Definition world0 : World (option ndarray) :=
  {| model := None; fields := ∅; trace := [] |}.

Definition s1 : Sample := {| sample_id := "s1"; filepath := "a.jpg" |}.
Definition s2 : Sample := {| sample_id := "s2"; filepath := "bb.jpg" |}.
Definition s3 : Sample := {| sample_id := "s3"; filepath := "ccc.jpg" |}.

Definition box : Detection :=
  {| label := "cat"; bounding_box := (1 # 10, 1 # 10, 2 # 10, 2 # 10)%Q |}.

Definition box2 : Detection :=
  {| label := "dog"; bounding_box := (1 # 2, 0, 1 # 2, 1 # 2)%Q |}.

(** [s1] has three detections, [s2] an empty [Detections], [s3] no label *)
Definition world1 : World (option ndarray) :=
  {| model := None;
     fields := {[ ("s1", "ground_truth") := VLabel (LDetections [box; box2; box]);
                  ("s2", "ground_truth") := VLabel (LDetections []);
                  ("s3", "ground_truth") := VNone ]};
     trace := [] |}.

(** a file system on which nothing fails *)
Definition fs : Voc.FsEnv :=
  {| Voc.copy_ok := fun _ _ => Ok tt;
     Voc.read_ok := fun _ => Ok (blank_image 1 1);
     Voc.write_ok := fun _ => Ok tt |}.

Definition images (l : list Sample) : SampleCollection :=
  {| media_type := IMAGE; schema := ∅; sample_list := l |}.

Definition videos (l : list Sample) : SampleCollection :=
  {| media_type := VIDEO; schema := ∅; sample_list := l |}.

End Demo.

(** ** Vocabulary of the statements *)

Export Models.

(** the world after one more effect *)
Definition after_event {M} (w : World M) (ev : Event) : World M :=
  {| model := model w; fields := fields w; trace := trace w ++ [ev] |}.

(** the size the negotiation starts from: the requested one, or the
    process-wide default when none is requested *)
Definition resolved_batch_size {M} (env : Env M) (batch_size : option Z)
    : option Z :=
  match batch_size with
  | None => default_batch_size env
  | Some b => Some b
  end.

(** "no batching", or a concrete batch size of at least one *)
Definition valid_negotiation (r : option Z) : Prop :=
  r = None \/ exists n, r = Some n /\ 1 <= n.

(** the model is not an [EmbeddingsMixin], or does not expose embeddings *)
Definition capability_mismatch {M} (self : ModelClass M) (w : World M) : Prop :=
  isinstance_EmbeddingsMixin self = false \/
  has_embeddings self (model w) <> Ok true.

(** the model keeps the default [embed] and [embed_all] *)
Definition keeps_defaults {M} (self : ModelClass M) : Prop :=
  (forall arg m, embed self arg m = EmbeddingsMixin_embed self arg m) /\
  (forall args m, embed_all self args m = EmbeddingsMixin_embed_all self args m).

(** [embed] applied to the items of [args] one after the other, from model
    state [m], gives [es] and leaves the model in state [m'] *)
Inductive embed_each {M} (self : ModelClass M)
    : list Media -> M -> list ndarray -> M -> Prop :=
| embed_each_nil m : embed_each self [] m [] m
| embed_each_cons arg args m e m1 es m2 :
    embed self arg m = (Ok e, m1) ->
    embed_each self args m1 es m2 ->
    embed_each self (arg :: args) m (e :: es) m2.

(** the ids saved by the events of a trace, in order *)
Definition saved_ids (t : list Event) : list string :=
  flat_map (fun ev => match ev with EvSave i => [i] | _ => [] end) t.

(** the field written in field mode; [None] when embeddings are returned
    in memory *)
Definition write_mode (embeddings_field : option string) : option string :=
  if truthy embeddings_field then Some (field_key embeddings_field) else None.

(** From [w] to [w'] the samples [ws] were written and saved, in that
    order and once for each occurrence in [ws]: the trace grew by events
    that satisfy [P] and whose saves are those of [ws]; no field other
    than [key] of a sample of [ws] changed; and [key] of every sample of
    [ws] holds an array. *)
Record Wrote {M} (key : option string) (P : Event -> Prop)
    (w w' : World M) (ws : list Sample) : Prop := {
  wrote_trace :
    exists t, trace w' = trace w ++ t /\ Forall P t /\
              saved_ids t = map sample_id ws;
  wrote_frame :
    forall i f, key <> Some f \/ i ∉ map sample_id ws ->
                fields w' !! (i, f) = fields w !! (i, f);
  wrote_array :
    forall i k, i ∈ map sample_id ws -> key = Some k ->
                exists a, fields w' !! (i, k) = Some (VArray a)
}.

(** [w] is a world the run that started in [w0] can be in *)
Definition reached {M} (key : option string) (P : Event -> Prop)
    (w0 w : World M) : Prop :=
  exists ws, Wrote key P w0 w ws.

(** Started in a world reached from [w0], the computation [m] writes and
    saves a subsequence of [allowed], whether it returns or raises. *)
Definition writes_within {M A} (key : option string) (P : Event -> Prop)
    (w0 : World M) (m : St (World M) A) (allowed : list Sample) : Prop :=
  forall w r w', reached key P w0 w -> m w = (r, w') ->
                 exists ws, sublist ws allowed /\ Wrote key P w w' ws.

(** what a loop over the samples [l] may write: the samples in field mode,
    nothing otherwise *)
Definition writable_samples (embeddings_field : option string)
    (l : list Sample) : list Sample :=
  if truthy embeddings_field then l else [].

(** the arguments of one call of [embed_all]: the patches of the
    detections [chunk] cut out of [img] *)
Definition patches_of {M} (env : Env M) (img : ndarray) (force_square : bool)
    (alpha : option Q) (chunk : list Detection) : list Media :=
  map ImageArray
      (map (fun d => _extract_patch env img d force_square alpha) chunk).

(** the calls of [embed_all] the turn of [sample] can make satisfy [P] *)
Definition turn_allowed {M} (env : Env M) (key : option string)
    (P : Event -> Prop) (w0 : World M) (patches_field : string)
    (batch_size : option Z) (force_square : bool) (alpha : option Q)
    (sample : Sample) : Prop :=
  forall w ds img b chunk,
    reached key P w0 w ->
    fst (_parse_patches env sample patches_field w) = Ok (Some ds) ->
    etai_read env (filepath sample) = Ok img ->
    batch_size = Some b ->
    chunk ∈ iter_batches ds b ->
    P (EvEmbedAll (patches_of env img force_square alpha chunk)).

(** Between [w] and [w'] a run over [samples] in field mode wrote
    [embeddings_field] of the samples [ws], a subsequence of the
    collection, and saved each of them once, right after its write; it
    left every other field of every sample, and every field of every
    other sample, as it was. *)
Definition one_field_written {M} (embeddings_field : option string)
    (samples : SampleCollection) (w w' : World M) : Prop :=
  exists (ws : list Sample) (t : list Event),
    sublist ws (sample_list samples) /\
    trace w' = trace w ++ t /\
    saved_ids t = map sample_id ws /\
    (forall i f, f <> field_key embeddings_field \/ i ∉ map sample_id ws ->
                 fields w' !! (i, f) = fields w !! (i, f)) /\
    (forall i, i ∈ map sample_id ws ->
               exists a, fields w' !! (i, field_key embeddings_field)
                         = Some (VArray a)).

(** the patch source of [sample] yields no detection in world [w] *)
Definition no_detections {M} (env : Env M) (sample : Sample)
    (patches_field : string) (w : World M) : Prop :=
  fst (_parse_patches env sample patches_field w) = Ok None \/
  fst (_parse_patches env sample patches_field w) = Ok (Some []).

(** the collection with [l] as its samples *)
Definition with_samples (samples : SampleCollection) (l : list Sample)
    : SampleCollection :=
  {| media_type := media_type samples; schema := schema samples;
     sample_list := l |}.

(** [embed_all] applied to the batches of [batches] one after the other,
    from model state [m], gives [rs] and leaves the model in state [m'] *)
Inductive embed_all_each {M} (self : ModelClass M)
    : list (list Media) -> M -> list ndarray -> M -> Prop :=
| embed_all_each_nil m : embed_all_each self [] m [] m
| embed_all_each_cons args batches m r m1 rs m2 :
    embed_all self args m = (Ok r, m1) ->
    embed_all_each self batches m1 rs m2 ->
    embed_all_each self (args :: batches) m (r :: rs) m2.

(** every batch but the last one has exactly [n] items *)
Fixpoint full_but_last {A} (n : nat) (batches : list (list A)) : Prop :=
  match batches with
  | [] => True
  | c :: rest =>
      match rest with
      | [] => True
      | _ :: _ => length c = n /\ full_but_last n rest
      end
  end.

(** [l] is cut, in order, into batches of one to [batch_size] items, all
    but the last of exactly [batch_size] items *)
Definition partitions {A} (batch_size : Z) (l : list A)
    (batches : list (list A)) : Prop :=
  concat batches = l /\
  Forall (fun c => 1 <= Z.of_nat (length c) <= batch_size) batches /\
  full_but_last (Z.to_nat batch_size) batches.

(** A call of [embed_all] is given the patches of one batch of the
    detections of one sample of the collection, cut out of the image of
    that sample; [w] is the world the run started in. *)
Definition single_sample_batch {M} (env : Env M) (samples : SampleCollection)
    (patches_field : string) (force_square : bool) (alpha : option Q)
    (batch_size : Z) (w : World M) (ev : Event) : Prop :=
  match ev with
  | EvEmbedAll args =>
      exists sample ds img chunk,
        sample ∈ sample_list samples /\
        fst (_parse_patches env sample patches_field w) = Ok (Some ds) /\
        etai_read env (filepath sample) = Ok img /\
        chunk ∈ iter_batches ds batch_size /\
        args = patches_of env img force_square alpha chunk
  | _ => True
  end.

(** *** Vocabulary for the VOC export *)

(** the name under which [export_voc_detection_dataset] counts a path:
    its base filename without the extension *)
Definition name_of (img_path : string) : string :=
  fst (Voc.splitext (Voc.basename img_path)).

(** the paths the loop iterates over: [zip] stops at the shorter input *)
Definition iterated (image_paths : list string)
    (labels : list (list Detection)) : list string :=
  map fst (zip image_paths labels).

(** the three events of a turn that keeps the original name: the image is
    copied to [data_dir] under its base filename, decoded, and its
    annotation is written to [labels_dir] under its name *)
Definition original_events (data_dir labels_dir : string) (img_path : string)
    : list Voc.FsEvent :=
  [Voc.CopyFile img_path (Voc.join data_dir (Voc.basename img_path));
   Voc.ReadImage img_path;
   Voc.AnnotationWritten
     (Voc.join data_dir (Voc.basename img_path))
     (Voc.join labels_dir (String.append (name_of img_path) ".xml"))].

(** copying, decoding and writing succeed for the paths of [l] *)
Definition externals_ok (fs : Voc.FsEnv) (data_dir labels_dir : string)
    (l : list string) : Prop :=
  forall p, p ∈ l ->
    Voc.copy_ok fs p (Voc.join data_dir (Voc.basename p)) = Ok tt /\
    is_ok (Voc.read_ok fs p) = true /\
    Voc.write_ok fs (Voc.join labels_dir (String.append (name_of p) ".xml"))
      = Ok tt.

(** what the whole export does when no turn raises *)
Definition export_events (dataset_dir : string) (paths : list string)
    : list Voc.FsEvent :=
  let data_dir := Voc.join dataset_dir "data" in
  let labels_dir := Voc.join dataset_dir "labels" in
  Voc.EnsureDir data_dir :: Voc.EnsureDir labels_dir ::
  concat (map (original_events data_dir labels_dir) paths).

(** *** Vocabulary for boxes *)

(** the box of the detection lies in the unit square, as the data model
    of detections has it *)
Definition normalized (d : Detection) : Prop :=
  let '(x, y, w, h) := bounding_box d in
  (0 <= x /\ 0 <= y /\ 0 <= w /\ 0 <= h /\ x + w <= 1 /\ y + h <= 1)%Q.

(** every count of [data_filename_counts] is at least one *)
Definition counted (counts : gmap string Z) : Prop :=
  forall n k, counts !! n = Some k -> 1 <= k.

(** *** Vocabulary for the comparison of the two executors *)

(** [embed] returns the row [f arg] under a batch axis of size one, and
    [embed_all] returns one such row per item, whatever the state of the
    model: inference is deterministic and does not depend on the batch. *)
Definition row_consistent {M} (self : ModelClass M) (f : Media -> ndarray)
    : Prop :=
  (forall arg m, fst (embed self arg m) = Ok (NDArray [f arg])) /\
  (forall args m, fst (embed_all self args m) = Ok (NDArray (map f args))).

(** the image of a sample, when it decodes *)
Definition decoded {M} (env : Env M) (sample : Sample) : ndarray :=
  match etai_read env (filepath sample) with
  | Ok img => img
  | Raise _ => Scalar 0
  end.

(** [flds] after the row of every sample of [l] is stored under [key] *)
Definition rows_written {M} (env : Env M) (f : Media -> ndarray)
    (key : string) (l : list Sample)
    (flds : gmap (string * string) FieldValue)
    : gmap (string * string) FieldValue :=
  fold_left (fun fl s =>
               <[(sample_id s, key) := VArray (f (ImageArray (decoded env s)))]> fl)
            l flds.

(** *** Vocabulary for the batches of patches, on whole runs *)

(** the calls of [embed] and of [embed_all] among the events [t], in the
    order they were made *)
Definition is_embed_call (ev : Event) : bool :=
  match ev with
  | EvEmbed _ | EvEmbedAll _ => true
  | _ => false
  end.

Definition embed_calls (t : list Event) : list Event :=
  List.filter is_embed_call t.

(** the detections that the patch source of [sample] yields in world [w];
    none when it yields nothing *)
Definition detections_of {M} (env : Env M) (sample : Sample)
    (patches_field : string) (w : World M) : list Detection :=
  match fst (_parse_patches env sample patches_field w) with
  | Ok (Some ds) => ds
  | _ => []
  end.

(** The calls of [embed_all] for one sample: one for each batch of its
    detections, in order, with the patches of that batch cut out of the
    image of the sample. *)
Definition batch_calls {M} (env : Env M) (patches_field : string)
    (force_square : bool) (alpha : option Q) (batch_size : Z) (w : World M)
    (sample : Sample) : list Event :=
  map EvEmbedAll
    (map (patches_of env (decoded env sample) force_square alpha)
       (iter_batches (detections_of env sample patches_field w) batch_size)).

(** From model state [m], the samples are taken one after the other.  A
    sample without detections is passed over.  For a sample with
    detections, [embed_all] is applied to its batches one after the
    other, and the concatenation of what it returned, in order, is the
    embedding of the sample.  [out] lists the samples embedded, by id,
    with their embeddings; [m'] is the model state at the end; [w] is the
    world the run started in. *)
Inductive embedded_in_batches {M} (self : ModelClass M) (env : Env M)
    (patches_field : string) (force_square : bool) (alpha : option Q)
    (batch_size : Z) (w : World M)
    : list Sample -> M -> list (string * ndarray) -> M -> Prop :=
| embedded_none m :
    embedded_in_batches self env patches_field force_square alpha batch_size
      w [] m [] m
| embedded_skip sample rest m out m' :
    no_detections env sample patches_field w ->
    embedded_in_batches self env patches_field force_square alpha batch_size
      w rest m out m' ->
    embedded_in_batches self env patches_field force_square alpha batch_size
      w (sample :: rest) m out m'
| embedded_turn sample rest m ds img rs a m1 out m2 :
    fst (_parse_patches env sample patches_field w) = Ok (Some ds) ->
    ds <> [] ->
    etai_read env (filepath sample) = Ok img ->
    embed_all_each self
      (map (patches_of env img force_square alpha) (iter_batches ds batch_size))
      m rs m1 ->
    Np.concatenate rs = Ok a ->
    embedded_in_batches self env patches_field force_square alpha batch_size
      w rest m1 out m2 ->
    embedded_in_batches self env patches_field force_square alpha batch_size
      w (sample :: rest) m ((sample_id sample, a) :: out) m2.

(** the mapping after the entries of [out] were set, in order *)
Definition entries_set (out : list (string * ndarray))
    (d : gmap string ndarray) : gmap string ndarray :=
  fold_left (fun d '(i, a) => <[i := a]> d) out d.

(** the fields after the embeddings of [out] were stored under [key], in
    order *)
Definition arrays_stored (key : string) (out : list (string * ndarray))
    (flds : gmap (string * string) FieldValue)
    : gmap (string * string) FieldValue :=
  fold_left (fun f '(i, a) => <[(i, key) := VArray a]> f) out flds.

(** What a returning run of [compute_patch_embeddings] from [w] to [w']
    with result [r] did, for the batch size [b]: the calls of [embed] and
    [embed_all] it made are the batch calls of its samples, sample after
    sample; the model was set up, went through these calls and was torn
    down; and what was stored for each sample embedded, in the mapping
    returned or in [embeddings_field], is the concatenation of the results
    of its batches. *)
Definition ran_in_batches {M} (self : ModelClass M) (env : Env M)
    (samples : SampleCollection) (patches_field : string)
    (embeddings_field : option string) (force_square : bool)
    (alpha : option Q) (b : Z) (w : World M)
    (r : option (gmap string ndarray)) (w' : World M) : Prop :=
  exists t out m',
    trace w' = trace w ++ t /\
    embed_calls t =
      concat (map (batch_calls env patches_field force_square alpha b w)
                  (sample_list samples)) /\
    embedded_in_batches self env patches_field force_square alpha b w
      (sample_list samples) (enter self (model w)) out m' /\
    model w' = exit self m' /\
    r = (if truthy embeddings_field then None
         else Some (entries_set out ∅)) /\
    fields w' = (if truthy embeddings_field
                 then arrays_stored (field_key embeddings_field) out (fields w)
                 else fields w).

From Stdlib Require Import Lqa.

(** ** Further vocabulary: results in memory *)

(** [embed] returns the row [f arg] under a batch axis of size one,
    whatever the state of the model *)
Definition embeds_rows {M} (self : ModelClass M) (f : Media -> ndarray)
    : Prop :=
  forall arg m, fst (embed self arg m) = Ok (NDArray [f arg]).

(** the row of a sample: the embedding of its decoded image *)
Definition sample_row {M} (env : Env M) (f : Media -> ndarray)
    (sample : Sample) : ndarray :=
  f (ImageArray (decoded env sample)).

(** the images of the samples of [l] all decode *)
Definition all_decode {M} (env : Env M) (l : list Sample) : Prop :=
  forall s, s ∈ l -> is_ok (etai_read env (filepath s)) = true.

(** the row of a detection: the embedding of its patch *)
Definition patch_row {M} (env : Env M) (f : Media -> ndarray) (img : ndarray)
    (force_square : bool) (alpha : option Q) (d : Detection) : ndarray :=
  f (ImageArray (_extract_patch env img d force_square alpha)).

(** the patch source of [sample] yields at least one detection in [w] *)
Definition has_detections {M} (env : Env M) (sample : Sample)
    (patches_field : string) (w : World M) : Prop :=
  exists d ds,
    fst (_parse_patches env sample patches_field w) = Ok (Some (d :: ds)).

(** ** Further vocabulary: the life cycle of the model *)

(** an event of the work on the samples: a read, a video opened or
    closed, an embedding or a save *)
Definition working (ev : Event) : Prop :=
  match ev with
  | EvEnter | EvExit | EvWarning _ => False
  | _ => True
  end.

(** what [apply_model] does between set-up and teardown leaves in the
    trace: a read, or a video opened or closed *)
Definition reading (ev : Event) : Prop :=
  match ev with
  | EvRead _ | EvOpenVideo _ | EvCloseVideo _ => True
  | _ => False
  end.

(** whatever [m] does, the events it adds to the trace satisfy [Q] *)
Definition emits {M A} (Q : Event -> Prop) (m : St (World M) A) : Prop :=
  forall w r w', m w = (r, w') ->
                 exists t, trace w' = trace w ++ t /\ Forall Q t.

(** [m] sets the model up first and tears it down last, whether it returns
    or raises, and in between adds only events that satisfy [Q] *)
Definition brackets {M A} (Q : Event -> Prop) (m : St (World M) A) : Prop :=
  forall w r w', m w = (r, w') ->
    exists mid, trace w' = trace w ++ EvEnter :: mid ++ [EvExit] /\
                Forall Q mid.

(** what the negotiation of the batch size can add to the trace: nothing,
    or its one warning *)
Definition negotiated (t : list Event) : Prop :=
  t = [] \/ t = [EvWarning "Model does not support batching"].

(** What the run from [w] to [w'] with result [r] added to the trace.
    Either nothing at all, and the run raised.  Or, after at most the
    warning of the negotiation: one set-up, then events that satisfy [Q],
    then one teardown, last of all. *)
Definition scoped {M A} (Q : Event -> Prop) (w : World M) (r : result A)
    (w' : World M) : Prop :=
  (is_ok r = false /\ trace w' = trace w) \/
  exists pre mid,
    trace w' = trace w ++ pre ++ EvEnter :: mid ++ [EvExit] /\
    negotiated pre /\ Forall Q mid.

(** ** [apply_model] and its executors *)

(** [Model.predict_all]: [[self.predict(arg) for arg in args]] *)
Definition Model_predict_all {M} (self : ModelClass M) (args : list Media)
    : St M (list Label) :=
  map_st (predict self) args.

(** a model together with its [predict_all], which a class may override *)
Record Predictor (M : Type) := {
  as_model : ModelClass M;
  predict_all : list Media -> St M (list Label)
}.
Arguments as_model {M} p.
Arguments predict_all {M} p.

(** What [apply_model] takes from outside this module: [Sample.add_labels],
    as a function of the stored fields that gives the new fields or
    raises, and the data-loader path of [fiftyone.utils.torch]. *)
Record LabelEnv (M : Type) := {
  add_labels :
    Sample -> Label -> string -> option Q ->
    gmap (string * string) FieldValue ->
    result (gmap (string * string) FieldValue);
  apply_torch_image_model :
    SampleCollection -> string -> option Q -> option Z -> St (World M) unit
}.
Arguments add_labels {M} l.
Arguments apply_torch_image_model {M} l.

Module Apply.
Section Executors.

Context {M : Type}.
Variable predictor : Predictor M.
Variable env : Env M.
Variable lenv : LabelEnv M.

Local Abbreviation Run := (St (World M)).
Local Abbreviation self := (as_model predictor).

(** [sample.add_labels(label, label_field, confidence_thresh=...)] *)
Definition sample_add_labels (sample : Sample) (label : Label)
    (label_field : string) (confidence_thresh : option Q) : Run unit :=
  fun w => match add_labels lenv sample label label_field confidence_thresh
                   (fields w) with
           | Ok flds => (Ok tt, {| model := model w; fields := flds;
                                   trace := trace w |})
           | Raise e => (Raise e, w)
           end.

Definition _apply_image_model_single (samples : list Sample)
    (label_field : string) (confidence_thresh : option Q) : Run unit :=
  with_model self (for_each (fun sample =>
      img <- read_image env (filepath sample) ;;
      label <- on_model (predict self (ImageArray img)) ;;
      sample_add_labels sample label label_field confidence_thresh) samples).

Definition _apply_image_model_batch (samples : list Sample)
    (label_field : string) (confidence_thresh : option Q) (batch_size : Z)
    : Run unit :=
  let samples_loader := iter_batches samples batch_size in
  with_model self (for_each (fun sample_batch =>
      imgs <- map_st (fun sample => read_image env (filepath sample))
                sample_batch ;;
      label_batch <- on_model (predict_all predictor (map ImageArray imgs)) ;;
      for_each (fun '(sample, label) =>
          sample_add_labels sample label label_field confidence_thresh)
        (zip sample_batch label_batch)) samples_loader).

Definition _apply_video_model (samples : list Sample) (label_field : string)
    (confidence_thresh : option Q) : Run unit :=
  with_model self (for_each (fun sample =>
      label <- with_video_reader env (filepath sample)
                 (fun video_reader => on_model (predict self video_reader)) ;;
      sample_add_labels sample label label_field confidence_thresh) samples).

Definition apply_model (samples : SampleCollection) (label_field : string)
    (confidence_thresh : option Q) (batch_size : option Z) : Run unit :=
  if bool_decide (media_type samples = VIDEO) then
    _apply_video_model (sample_list samples) label_field confidence_thresh
  else if isinstance_TorchModelMixin self then
    apply_torch_image_model lenv samples label_field confidence_thresh
      batch_size
  else
    batch_size <- _parse_batch_size self env batch_size ;;
    match batch_size with
    | Some b =>
        _apply_image_model_batch (sample_list samples) label_field
          confidence_thresh b
    | None =>
        _apply_image_model_single (sample_list samples) label_field
          confidence_thresh
    end.

End Executors.
End Apply.

(** *** Vocabulary for [apply_model] *)

(** [predict] returns the label [g arg], whatever the state of the model,
    and [predict_all] is the default of [Model] *)
Definition predicts {M} (p : Predictor M) (g : Media -> Label) : Prop :=
  (forall arg m, fst (predict (as_model p) arg m) = Ok (g arg)) /\
  (forall args m, predict_all p args m = Model_predict_all (as_model p) args m).

(** The labels [g] gives to the images of the samples of [l] are added one
    after the other, until [add_labels] raises: the outcome, and the
    fields left behind. *)
Fixpoint labelled {M} (env : Env M) (lenv : LabelEnv M) (g : Media -> Label)
    (label_field : string) (confidence_thresh : option Q)
    (l : list Sample) (flds : gmap (string * string) FieldValue)
    : result unit * gmap (string * string) FieldValue :=
  match l with
  | [] => (Ok tt, flds)
  | s :: l' =>
      match add_labels lenv s (g (ImageArray (decoded env s))) label_field
              confidence_thresh flds with
      | Ok flds' => labelled env lenv g label_field confidence_thresh l' flds'
      | Raise e => (Raise e, flds)
      end
  end.

Module DemoApply.

(** the label of an image tells whether it is wider than it is high *)
Definition classify (arg : Media) : Label :=
  match arg with
  | ImageArray img =>
      LOther (if img_height img <? img_width img then "landscape"
              else "portrait")
  | VideoReader _ => LOther "video"
  end.

Definition classifier : ModelClass (option ndarray) :=
  {| isinstance_EmbeddingsMixin := false;
     isinstance_TorchModelMixin := false;
     ragged_batches := fun _ => Ok false;
     has_embeddings := fun _ => Ok false;
     enter := fun m => m; exit := fun m => m;
     predict := fun arg _ => (Ok (classify arg),
                              Some (NDArray [Demo.feature arg]));
     get_embeddings := fun m => (Raise (NotImplementedError "get_embeddings"), m);
     embed := fun _ => raise (NotImplementedError "embed");
     embed_all := fun _ => raise (NotImplementedError "embed_all") |}.

(** a class that keeps the default [predict_all] of [Model] *)
Definition predictor : Predictor (option ndarray) :=
  {| as_model := classifier;
     predict_all := Model_predict_all classifier |}.

(** [add_labels] stores the label under [label_field], and refuses an
    empty field name *)
Definition lenv : LabelEnv (option ndarray) :=
  {| add_labels := fun sample label label_field _ flds =>
       if bool_decide (label_field = EmptyString)
       then Raise (ValueError "empty field name")
       else Ok (<[(sample_id sample, label_field) := VLabel label]> flds);
     apply_torch_image_model := fun _ _ _ _ => ret tt |}.

End DemoApply.

(** *** Vocabulary for video collections *)

(** the row of a video sample: the embedding of its reader *)
Definition video_row (f : Media -> ndarray) (sample : Sample) : ndarray :=
  f (VideoReader (filepath sample)).

(** the videos of the samples of [l] all open *)
Definition all_open {M} (env : Env M) (l : list Sample) : Prop :=
  forall s, s ∈ l -> open_video env (filepath s) = Ok tt.

(** The labels [g] gives to the readers of the samples of [l] are added
    one after the other, until [add_labels] raises. *)
Fixpoint video_labelled {M} (lenv : LabelEnv M) (g : Media -> Label)
    (label_field : string) (confidence_thresh : option Q)
    (l : list Sample) (flds : gmap (string * string) FieldValue)
    : result unit * gmap (string * string) FieldValue :=
  match l with
  | [] => (Ok tt, flds)
  | s :: l' =>
      match add_labels lenv s (g (VideoReader (filepath s))) label_field
              confidence_thresh flds with
      | Ok flds' => video_labelled lenv g label_field confidence_thresh l' flds'
      | Raise e => (Raise e, flds)
      end
  end.

(** ** [_merge_config]

    The values of a config dict: [None], booleans, integers, strings and
    dicts (lists and other iterables are left out).  A dict is an object:
    a value refers to it by its identity, and the store gives the entries
    of every dict object, so that an update in place is seen through every
    reference to the object. *)
Module Config.

Abbreviation loc := nat.

Inductive pyval :=
| PNone
| PBool (b : bool)
| PInt (z : Z)
| PStr (s : string)
| PDictRef (l : loc).

#[global] Instance pyval_eq_dec : EqDecision pyval.
Proof. solve_decision. Defined.

Abbreviation pydict := (gmap string pyval).

Definition store := loc -> pydict.

Definition set_dict (l : loc) (entries : pydict) (h : store) : store :=
  fun l' => if decide (l' = l) then entries else h l'.

(** [target.update(v)]: the entries of a dict are written over those of
    [target]; [None] and numbers are not iterable; a string is iterated
    character by character, so the empty string changes nothing and any
    other fails on its first element, which is not a pair. *)
Definition dict_update (target : loc) (v : pyval) : St store unit :=
  match v with
  | PDictRef source =>
      fun h => (Ok tt, set_dict target (h source ∪ h target) h)
  | PStr EmptyString => ret tt
  | PStr _ =>
      raise (ValueError
        "dictionary update sequence element #0 has length 1; 2 is required")
  | PNone | PBool _ | PInt _ => raise (TypeError "object is not iterable")
  end.

(** [d[k] = v] *)
Definition dict_setitem (d : loc) (k : string) (v : pyval) : St store unit :=
  fun h => (Ok tt, set_dict d (<[k := v]> (h d)) h).

(** [kwargs] in the order of [kwargs.items()] *)
Definition _merge_config (d : loc) (kwargs : list (string * pyval))
    : St store unit :=
  for_each (fun '(k, v) =>
    fun h =>
      match h d !! k with
      | Some (PDictRef target) => dict_update target v h
      | _ => dict_setitem d k v h
      end) kwargs.

(** *** Vocabulary for [_merge_config] *)

(** the dict objects that [d] holds under the keys of [kwargs] *)
Definition merge_targets (h : store) (d : loc) (kwargs : list (string * pyval))
    : list loc :=
  omap (fun '(k, _) => match h d !! k with
                       | Some (PDictRef target) => Some target
                       | _ => None
                       end) kwargs.

(** [kwargs] is a dict, and [d] does not hold itself under one of its
    keys *)
Definition plain_merge (h : store) (d : loc) (kwargs : list (string * pyval))
    : Prop :=
  NoDup kwargs.*1 /\ d ∉ merge_targets h d kwargs.

(** what [d] holds under [k] once [v] was merged: the dict object it held,
    or else [v] *)
Definition merged_entry (h : store) (d : loc) (k : string) (v : pyval)
    : pyval :=
  match h d !! k with
  | Some (PDictRef target) => PDictRef target
  | _ => v
  end.

(** [v] can be merged under [k]: [d] holds no dict there, or [v] is a dict
    or the empty string *)
Definition mergeable (h : store) (d : loc) (kv : string * pyval) : bool :=
  match h d !! kv.1 with
  | Some (PDictRef _) =>
      match kv.2 with
      | PDictRef _ | PStr EmptyString => true
      | _ => false
      end
  | _ => true
  end.

End Config.

Module DemoConfig.
Import Config.

(** object 0 is the config [{"name": "net", "opts": <1>, "size": 3}],
    object 1 is [{"lr": 1, "decay": <3>}], object 2 is
    [{"decay": <4>, "steps": 7}] *)
Definition store0 : store := fun l =>
  match l with
  | 0%nat => {[ "name" := PStr "net"; "opts" := PDictRef 1%nat; "size" := PInt 3 ]}
  | 1%nat => {[ "lr" := PInt 1; "decay" := PDictRef 3%nat ]}
  | 2%nat => {[ "decay" := PDictRef 4%nat; "steps" := PInt 7 ]}
  | 3%nat => {[ "rate" := PInt 5 ]}
  | 4%nat => {[ "floor" := PInt 0 ]}
  | _ => ∅
  end.

Definition kwargs0 : list (string * pyval) :=
  [("opts", PDictRef 2%nat); ("size", PNone); ("device", PStr "cpu")].

End DemoConfig.

(** ** VOC objects and the annotation writer *)

Module VocAnnotation.
Import Voc.

(** [round(q)] with one argument: the nearest integer, a tie going to the
    even neighbour.  Coordinates are carried as exact rationals. *)
Definition py_round (q : Q) : Z :=
  let f := Qfloor q in
  match (q - inject_Z f ?= 1 # 2)%Q with
  | Lt => f
  | Gt => f + 1
  | Eq => if Z.even f then f else f + 1
  end.

Record VOCObject := {
  name : string;
  xmin : Z;
  ymin : Z;
  xmax : Z;
  ymax : Z;
  pose : option string;
  truncated : option Z;
  difficult : option Z
}.

(** [VOCObject.from_detection]; [frame_size] is [(width, height)].  The
    products are exact: the rounding of a float product to the nearest
    float, before [round] is applied, is not modelled. *)
Definition from_detection (detection : Detection) (frame_size : Z * Z)
    : VOCObject :=
  let name := label detection in
  let '(width, height) := frame_size in
  let '(x, y, w, h) := bounding_box detection in
  let xmin := py_round (x * inject_Z width) in
  let ymin := py_round (y * inject_Z height) in
  let xmax := py_round ((x + w) * inject_Z width) in
  let ymax := py_round ((y + h) * inject_Z height) in
  {| name := name; xmin := xmin; ymin := ymin; xmax := xmax; ymax := ymax;
     pose := None; truncated := None; difficult := None |}.

(** [v or EmptyString] for a string or [None] *)
Definition str_or_empty (v : option string) : pyval :=
  match v with
  | Some s => PStr s
  | None => PStr EmptyString
  end.

(** [v or EmptyString] for an integer or [None]: zero is falsy *)
Definition int_or_empty (v : option Z) : pyval :=
  match v with
  | Some n => if n =? 0 then PStr EmptyString else PInt n
  | None => PStr EmptyString
  end.

(** [VOCObject.to_dict] *)
Definition to_dict (self : VOCObject) : gmap string pyval :=
  {[ "name" := PStr (name self);
     "xmin" := PInt (xmin self);
     "ymin" := PInt (ymin self);
     "xmax" := PInt (xmax self);
     "ymax" := PInt (ymax self);
     "pose" := str_or_empty (pose self);
     "truncated" := int_or_empty (truncated self);
     "difficult" := int_or_empty (difficult self) ]}.

(** what the template is rendered with *)
Record Annotation := {
  path : string;
  filename : string;
  folder : string;
  width : Z;
  height : Z;
  depth : Z;
  database : string;
  segmented : string;
  objects : list (gmap string pyval)
}.

Fixpoint all_seps (s : string) : bool :=
  match s with
  | EmptyString => true
  | String c rest => Ascii.eqb c "/" && all_seps rest
  end.

(** [s.rstrip(sep)] *)
Fixpoint rstrip_sep (s : string) : string :=
  match s with
  | EmptyString => EmptyString
  | String c rest => if all_seps s then EmptyString
                     else String c (rstrip_sep rest)
  end.

(** [os.path.dirname] *)
Definition dirname (p : string) : string :=
  let i := rfind "/" p + 1 in
  let head := str_take (Z.to_nat i) p in
  if negb (bool_decide (head = EmptyString)) && negb (all_seps head)
  then rstrip_sep head
  else head.

Section Writer.

(** the template, and [etau.write_file], which can fail *)
Variable render : Annotation -> string.
Variable write_file : string -> string -> result unit.

(** [VOCAnnotationWriter.write_annotation], on the files written so far *)
Definition write_annotation (img : ndarray) (detections : list Detection)
    (img_path xml_path : string) : St (gmap string string) unit :=
  match shape img with
  | height :: width :: rest =>
      let depth := match rest with
                   | channels :: _ => Z.of_nat channels
                   | [] => 1
                   end in
      let frame_size := (Z.of_nat width, Z.of_nat height) in
      let objects :=
        map (fun detection => to_dict (from_detection detection frame_size))
          detections in
      let xml_str :=
        render {| path := img_path;
                  filename := basename img_path;
                  folder := basename (dirname img_path);
                  width := Z.of_nat width;
                  height := Z.of_nat height;
                  depth := depth;
                  database := EmptyString;
                  segmented := EmptyString;
                  objects := objects |} in
      lift (write_file xml_str xml_path) ;;;
      fun files => (Ok tt, <[xml_path := xml_str]> files)
  | _ => raise (ValueError "not enough values to unpack (expected 2)")
  end.

End Writer.

(** *** Vocabulary for VOC objects *)

(** the corners of [obj] lie in the frame, top-left before bottom-right *)
Definition in_frame (obj : VOCObject) (frame_size : Z * Z) : Prop :=
  0 <= xmin obj <= xmax obj /\ xmax obj <= frame_size.1 /\
  0 <= ymin obj <= ymax obj /\ ymax obj <= frame_size.2.

(** the box of [detection] falls on the pixels [(a, b)] to [(c, e)] of the
    frame *)
Definition pixel_aligned (detection : Detection) (frame_size : Z * Z)
    (a b c e : Z) : Prop :=
  let '(x, y, w, h) := bounding_box detection in
  (x * inject_Z frame_size.1 == inject_Z a /\
   y * inject_Z frame_size.2 == inject_Z b /\
   (x + w) * inject_Z frame_size.1 == inject_Z c /\
   (y + h) * inject_Z frame_size.2 == inject_Z e)%Q.

(** the dict [o] describes [detection] by its label and by corners that
    lie in the frame, and leaves its three optional entries empty *)
Definition object_entry (frame_size : Z * Z) (detection : Detection)
    (o : gmap string pyval) : Prop :=
  o !! "name" = Some (PStr (label detection)) /\
  o !! "pose" = Some (PStr EmptyString) /\
  o !! "truncated" = Some (PStr EmptyString) /\
  o !! "difficult" = Some (PStr EmptyString) /\
  exists a b c e,
    (o !! "xmin" = Some (PInt a) /\ o !! "ymin" = Some (PInt b) /\
     o !! "xmax" = Some (PInt c) /\ o !! "ymax" = Some (PInt e)) /\
    (0 <= a <= c /\ c <= frame_size.1) /\
    (0 <= b <= e /\ e <= frame_size.2).

End VocAnnotation.

Module DemoVoc.
Import VocAnnotation.

(** a template that prints the file name and the number of objects *)
Definition render (a : Annotation) : string :=
  String.append (filename a)
    (String.append ":" (if bool_decide (objects a = []) then "empty"
                        else "objects")).

Definition write_file (xml_str xml_path : string) : result unit :=
  if bool_decide (xml_path = EmptyString)
  then Raise (ExternalError "no such file")
  else Ok tt.

End DemoVoc.

(** * Properties *)

Ltac st_unfold :=
  unfold bind, ret, raise, lift, Models.emit, Models.on_model in *.

Section Negotiation.

Context {M : Type}.
Variable self : ModelClass M.
Variable env : Env M.

(** C2, as amended: with [ragged] the value of the model's
    [ragged_batches], [_parse_batch_size] starts from the requested size,
    or from the process-wide default when none is requested; a resolved
    size above one on a ragged model gives "no batching" with a warning
    and no exception; every other resolved size is returned unchanged, be
    it below one; so the result is "no batching" or the resolved size, and
    is at least one whenever the resolved size is. *)
Theorem parse_batch_size_policy (batch_size : option Z) (w : World M)
    (ragged : bool) :
  ragged_batches self (model w) = Ok ragged ->
  let resolved := resolved_batch_size env batch_size in
  _parse_batch_size self env batch_size w =
    match resolved with
    | Some n =>
        if (1 <? n) && ragged
        then (Ok None, after_event w (EvWarning "Model does not support batching"))
        else (Ok (Some n), w)
    | None => (Ok None, w)
    end
  /\ (exists r w', _parse_batch_size self env batch_size w = (Ok r, w')
                   /\ (r = None \/ r = resolved)
                   /\ (valid_negotiation resolved -> valid_negotiation r)).
Proof.
  intros Hr resolved. subst resolved.
  unfold _parse_batch_size, resolved_batch_size.
  destruct (match batch_size with Some b => Some b | None => default_batch_size env end)
    as [n|] eqn:E.
  - destruct (1 <? n) eqn:Hn; simpl.
    + st_unfold. destruct w as [m f t]; simpl in *. rewrite Hr.
      destruct ragged; simpl.
      * split; [reflexivity|]. eexists _, _. split; [reflexivity|].
        split; [now left|]. intros _. now left.
      * split; [reflexivity|]. eexists _, _. split; [reflexivity|].
        split; [now right|]. auto.
    + st_unfold. split; [reflexivity|]. eexists _, _. split; [reflexivity|].
      split; [now right|]. auto.
  - st_unfold. split; [reflexivity|]. eexists _, _. split; [reflexivity|].
    split; [now left|]. auto.
Qed.

(** Below the first comparison the model is not consulted: a resolved size
    of at most one comes back unchanged whatever [ragged_batches] does. *)
Lemma parse_batch_size_small (batch_size : option Z) (w : World M) (n : Z) :
  resolved_batch_size env batch_size = Some n -> n <= 1 ->
  _parse_batch_size self env batch_size w = (Ok (Some n), w).
Proof.
  intros E Hn. unfold _parse_batch_size, resolved_batch_size in *.
  rewrite E. destruct (1 <? n) eqn:H1; [apply Z.ltb_lt in H1; lia|reflexivity].
Qed.

End Negotiation.

Lemma parse_batch_size_policy_witness :
  ragged_batches Demo.ragged_model (model Demo.world0) = Ok true /\
  _parse_batch_size Demo.ragged_model (Demo.env (Some 4)) None Demo.world0 =
    (Ok None, after_event Demo.world0 (EvWarning "Model does not support batching")).
Proof.
  split; [reflexivity|].
  exact (proj1 (parse_batch_size_policy Demo.ragged_model (Demo.env (Some 4))
                  None Demo.world0 true eq_refl)).
Defined.

(** C2, as stated, fails: a requested size of zero comes back as zero,
    which is neither "no batching" nor a size of at least one. *)
Lemma parse_batch_size_zero :
  exists r w',
    _parse_batch_size Demo.default_model (Demo.env None) (Some 0) Demo.world0
      = (Ok r, w')
    /\ ~ valid_negotiation r.
Proof.
  exists (Some 0), Demo.world0. split; [reflexivity|].
  intros [H|(n & H & Hn)]; [discriminate|]. injection H as <-. lia.
Qed.

Section Capabilities.

Context {M : Type}.
Variable self : ModelClass M.
Variable env : Env M.

Lemma on_model_pure {A} (f : M -> result A) (w : World M) :
  on_model (fun m => (f m, m)) w = (f (model w), w).
Proof. destruct w; reflexivity. Qed.

Lemma check_embeddings_model_mismatch (w : World M) :
  capability_mismatch self w ->
  exists e, check_embeddings_model self w = (Raise e, w).
Proof.
  intros H. unfold check_embeddings_model.
  destruct (isinstance_EmbeddingsMixin self) eqn:Hi; simpl.
  - destruct H as [H|H]; [congruence|].
    unfold bind. rewrite on_model_pure.
    destruct (has_embeddings self (model w)) as [[|]|e]; try congruence;
      simpl; eauto.
  - unfold raise. eauto.
Qed.

Lemma check_embeddings_model_ok (w : World M) :
  isinstance_EmbeddingsMixin self = true ->
  has_embeddings self (model w) = Ok true ->
  check_embeddings_model self w = (Ok tt, w).
Proof.
  intros Hi Hh. unfold check_embeddings_model. rewrite Hi. simpl.
  unfold bind. rewrite on_model_pure, Hh. reflexivity.
Qed.

(** C4: when the model is not an [EmbeddingsMixin] or does not expose
    embeddings, [compute_embeddings] and [compute_patch_embeddings] raise
    and leave the world as it was: the model is not set up, no sample is
    read, no image is decoded, nothing is embedded, no field is written
    and nothing is saved. [compute_patch_embeddings] does the same on a
    collection that is not of image samples. *)
Theorem mismatch_fails_fast (samples : SampleCollection)
    (patches_field : string) (embeddings_field : option string)
    (batch_size : option Z) (force_square : bool) (alpha : option Q)
    (w : World M) :
  capability_mismatch self w \/ media_type samples <> IMAGE ->
  (exists e, compute_patch_embeddings self env samples patches_field
               embeddings_field batch_size force_square alpha w = (Raise e, w))
  /\ (capability_mismatch self w ->
      exists e, compute_embeddings self env samples embeddings_field
                  batch_size w = (Raise e, w)).
Proof.
  intros H. split.
  - unfold compute_patch_embeddings.
    destruct (bool_decide (media_type samples = IMAGE)) eqn:Hm; simpl.
    + apply bool_decide_eq_true in Hm.
      destruct H as [H|H]; [|contradiction].
      destruct (check_embeddings_model_mismatch w H) as [e He].
      exists e. unfold bind. now rewrite He.
    + unfold raise. eauto.
  - intros Hc. destruct (check_embeddings_model_mismatch w Hc) as [e He].
    exists e. unfold compute_embeddings, bind. now rewrite He.
Qed.

(** *** The defaults of [EmbeddingsMixin] *)

Lemma map_st_embed_each (args : list Media) (m : M) (es : list ndarray) (m' : M) :
  map_st (embed self) args m = (Ok es, m') <-> embed_each self args m es m'.
Proof.
  revert m es. induction args as [|arg args IH]; intros m es; simpl.
  - unfold ret; cbn. split.
    + intros [= <- <-]. constructor.
    + intros H. inversion H. reflexivity.
  - unfold bind, ret. split.
    + destruct (embed self arg m) as [[e|x] m1] eqn:He; [|discriminate].
      destruct (map_st (embed self) args m1) as [[es1|x] m2] eqn:Hes;
        [|discriminate].
      intros [= <- <-]. econstructor; [eassumption|]. now apply IH.
    + intros H. inversion H as [|? ? ? e m1 es1 m2 He Hes]; subst.
      rewrite He. apply IH in Hes. now rewrite Hes.
Qed.

Lemma embed_each_length (args : list Media) (m : M) (es : list ndarray) (m' : M) :
  embed_each self args m es m' -> length es = length args.
Proof. induction 1; simpl; congruence. Qed.

Lemma stack_rows (es : list ndarray) (a : ndarray) :
  Np.stack es = Ok a -> a = NDArray es /\ es <> [].
Proof.
  unfold Np.stack. destruct es as [|e es]; [discriminate|].
  destruct (forallb (same_shape e) es); [|discriminate].
  intros [= <-]. split; [reflexivity|discriminate].
Qed.

(** C6: for a model that keeps the defaults, [embed(arg)] is [predict(arg)]
    followed by [get_embeddings()], and [embed_all(args)] returns an array
    exactly when the items embed one after the other, in input order, and
    their embeddings stack; the array then has the embedding of the i-th
    item as its i-th entry along a new axis 0 of size [len(args)]. *)
Theorem default_embed_and_embed_all :
  keeps_defaults self ->
  (forall arg m,
     embed self arg m =
       match predict self arg m with
       | (Ok _, m1) => get_embeddings self m1
       | (Raise e, m1) => (Raise e, m1)
       end)
  /\ (forall args m a m',
        embed_all self args m = (Ok a, m') <->
        exists es, embed_each self args m es m' /\ Np.stack es = Ok a)
  /\ (forall args m a m',
        embed_all self args m = (Ok a, m') ->
        exists es, embed_each self args m es m' /\ a = NDArray es /\
                   length es = length args /\
                   shape a = length args :: shape (List.hd a es)).
Proof.
  intros [Hembed Hall].
  assert (Hiff : forall args m a m',
            embed_all self args m = (Ok a, m') <->
            exists es, embed_each self args m es m' /\ Np.stack es = Ok a).
  { intros args m a m'. rewrite Hall. unfold EmbeddingsMixin_embed_all, bind, lift.
    split.
    - destruct (map_st (embed self) args m) as [[es|x] m1] eqn:Hes; [|discriminate].
      intros [= Hs <-]. exists es. split; [now apply map_st_embed_each|assumption].
    - intros (es & Hes & Hs). apply map_st_embed_each in Hes. now rewrite Hes, Hs. }
  split; [|split].
  - intros arg m. rewrite Hembed. unfold EmbeddingsMixin_embed, bind.
    now destruct (predict self arg m) as [[l|e] m1].
  - exact Hiff.
  - intros args m a m' H. apply Hiff in H as (es & Hes & Hs).
    exists es. destruct (stack_rows _ _ Hs) as [-> Hne].
    pose proof (embed_each_length _ _ _ _ Hes) as Hlen.
    repeat split; try assumption.
    destruct es as [|e es]; [contradiction|]. simpl in *. now rewrite <- Hlen.
Qed.

End Capabilities.

Lemma mismatch_fails_fast_witness :
  (capability_mismatch Demo.no_embeddings_model Demo.world0 \/
   media_type (Demo.images [Demo.s1]) <> IMAGE) /\
  exists e, compute_patch_embeddings Demo.no_embeddings_model (Demo.env None)
              (Demo.images [Demo.s1]) "ground_truth" (Some "emb") None false
              None Demo.world0 = (Raise e, Demo.world0).
Proof.
  assert (H : capability_mismatch Demo.no_embeddings_model Demo.world0 \/
              media_type (Demo.images [Demo.s1]) <> IMAGE).
  { left. right. simpl. discriminate. }
  split; [exact H|].
  exact (proj1 (mismatch_fails_fast Demo.no_embeddings_model (Demo.env None)
                  (Demo.images [Demo.s1]) "ground_truth" (Some "emb") None
                  false None Demo.world0 H)).
Defined.

Lemma default_embed_and_embed_all_witness :
  keeps_defaults Demo.default_model /\
  embed Demo.default_model (ImageArray (Demo.blank_image 2 3)) None =
    (Ok (NDArray [NDArray [Scalar 2; Scalar 3]]),
     Some (NDArray [NDArray [Scalar 2; Scalar 3]])).
Proof.
  assert (H : keeps_defaults Demo.default_model).
  { split; intros; reflexivity. }
  split; [exact H|].
  rewrite (proj1 (default_embed_and_embed_all Demo.default_model H)).
  reflexivity.
Defined.

(** ** Writes and saves of a run *)

Section Effects.

Context {M : Type}.
Variable self : ModelClass M.
Variable env : Env M.
Variable key : option string.
Variable P : Event -> Prop.
Variable w0 : World M.

Local Abbreviation Run := (St (World M)).

Lemma saved_ids_app (t1 t2 : list Event) :
  saved_ids (t1 ++ t2) = saved_ids t1 ++ saved_ids t2.
Proof. apply List.flat_map_app. Qed.

Lemma Wrote_refl (w : World M) : Wrote key P w w [].
Proof.
  split.
  - exists []. rewrite app_nil_r. repeat split. constructor.
  - reflexivity.
  - intros i k Hi. simpl in Hi. inversion Hi.
Qed.

Lemma Wrote_trans (w w1 w2 : World M) (ws1 ws2 : list Sample) :
  Wrote key P w w1 ws1 -> Wrote key P w1 w2 ws2 ->
  Wrote key P w w2 (ws1 ++ ws2).
Proof.
  intros [(t1 & Ht1 & HP1 & Hs1) Hf1 Ha1] [(t2 & Ht2 & HP2 & Hs2) Hf2 Ha2].
  split.
  - exists (t1 ++ t2). rewrite Ht2, Ht1, app_assoc. split; [reflexivity|].
    split; [now apply Forall_app|].
    now rewrite saved_ids_app, Hs1, Hs2, map_app.
  - intros i f H. rewrite Hf2, Hf1; [reflexivity| |].
    + destruct H as [H|H]; [now left|right].
      rewrite map_app, elem_of_app in H. tauto.
    + destruct H as [H|H]; [now left|right].
      rewrite map_app, elem_of_app in H. tauto.
  - intros i k Hi Hk. rewrite map_app, elem_of_app in Hi.
    destruct (decide (i ∈ map sample_id ws2)) as [H2|H2].
    + now apply Ha2.
    + destruct Hi as [Hi|Hi]; [|contradiction].
      rewrite Hf2 by now right. now apply Ha1.
Qed.

Lemma reached_refl : reached key P w0 w0.
Proof. exists []. apply Wrote_refl. Qed.

Lemma reached_step (w w' : World M) (ws : list Sample) :
  reached key P w0 w -> Wrote key P w w' ws -> reached key P w0 w'.
Proof. intros [ws0 H0] H. exists (ws0 ++ ws). eapply Wrote_trans; eassumption. Qed.

Lemma ww_mono {A} (m : Run A) (a a' : list Sample) :
  sublist a a' -> writes_within key P w0 m a -> writes_within key P w0 m a'.
Proof.
  intros Hs H w r w' Hr Hm. destruct (H w r w' Hr Hm) as (ws & Hws & HW).
  exists ws. split; [|assumption]. now transitivity a.
Qed.

Lemma ww_pure {A} (m : Run A) :
  (forall w, snd (m w) = w) -> writes_within key P w0 m [].
Proof.
  intros H w r w' _ Hm. exists []. split; [constructor|].
  specialize (H w). rewrite Hm in H. simpl in H. subst w'. apply Wrote_refl.
Qed.

Lemma ww_ret {A} (a : A) : writes_within key P w0 (ret a) [].
Proof. now apply ww_pure. Qed.

Lemma ww_raise {A} (e : exn) : writes_within key P w0 (raise e : Run A) [].
Proof. now apply ww_pure. Qed.

Lemma ww_lift {A} (r : result A) : writes_within key P w0 (lift r) [].
Proof. now apply ww_pure. Qed.

Lemma ww_bind {A B} (m : Run A) (f : A -> Run B) (a1 a2 : list Sample) :
  writes_within key P w0 m a1 ->
  (forall x, writes_within key P w0 (f x) a2) ->
  writes_within key P w0 (bind m f) (a1 ++ a2).
Proof.
  intros Hm Hf w r w' Hr Hb. unfold bind in Hb.
  destruct (m w) as [[x|e] w1] eqn:E.
  - destruct (Hm w _ _ Hr E) as (ws1 & Hs1 & HW1).
    destruct (Hf x w1 r w' (reached_step _ _ _ Hr HW1) Hb) as (ws2 & Hs2 & HW2).
    exists (ws1 ++ ws2). split; [now apply sublist_app|].
    eapply Wrote_trans; eassumption.
  - injection Hb as <- <-.
    destruct (Hm w _ _ Hr E) as (ws1 & Hs1 & HW1).
    exists ws1. split; [now apply sublist_inserts_r|assumption].
Qed.

Lemma ww_bind_nil {A B} (m : Run A) (f : A -> Run B) (a : list Sample) :
  writes_within key P w0 m [] ->
  (forall x, writes_within key P w0 (f x) a) ->
  writes_within key P w0 (bind m f) a.
Proof. intros Hm Hf. exact (ww_bind m f [] a Hm Hf). Qed.

Lemma ww_bind_last {A B} (m : Run A) (f : A -> Run B) (a : list Sample) :
  writes_within key P w0 m a ->
  (forall x, writes_within key P w0 (f x) []) ->
  writes_within key P w0 (bind m f) a.
Proof.
  intros Hm Hf. pose proof (ww_bind m f a [] Hm Hf) as H.
  now rewrite app_nil_r in H.
Qed.

Lemma ww_for_acc {A Acc} (body : A -> Acc -> Run Acc) (g : A -> list Sample)
    (l : list A) (acc : Acc) :
  (forall x acc, x ∈ l -> writes_within key P w0 (body x acc) (g x)) ->
  writes_within key P w0 (for_acc body l acc) (concat (map g l)).
Proof.
  revert acc. induction l as [|x l IH]; intros acc H; simpl.
  - apply ww_ret.
  - apply ww_bind.
    + apply H. left.
    + intros acc'. apply IH. intros y acc'' Hy. apply H. now right.
Qed.

Lemma ww_map_st {A B} (f : A -> Run B) (l : list A) :
  (forall x, writes_within key P w0 (f x) []) ->
  writes_within key P w0 (map_st f l) [].
Proof.
  intros H. induction l as [|x l IH]; simpl.
  - apply ww_ret.
  - apply ww_bind_nil; [apply H|]. intros y.
    apply ww_bind_nil; [apply IH|]. intros ys. apply ww_ret.
Qed.

Lemma ww_event (w : World M) (ev : Event) :
  P ev -> saved_ids [ev] = [] -> Wrote key P w (after_event w ev) [].
Proof.
  intros HP Hs. split.
  - exists [ev]. repeat split; [now constructor|assumption].
  - reflexivity.
  - intros i k Hi. inversion Hi.
Qed.

Lemma ww_emit (ev : Event) :
  P ev -> saved_ids [ev] = [] -> writes_within key P w0 (emit ev) [].
Proof.
  intros HP Hs w r w' _ Hm. injection Hm as <- <-.
  exists []. split; [constructor|]. now apply ww_event.
Qed.

Lemma ww_on_model {A} (method : St M A) :
  writes_within key P w0 (on_model method) [].
Proof.
  intros w r w' _ Hm. unfold on_model in Hm.
  destruct (method (model w)) as [r' m']. injection Hm as <- <-.
  exists []. split; [constructor|]. split; simpl.
  - exists []. rewrite app_nil_r. repeat split. constructor.
  - reflexivity.
  - intros i k Hi. inversion Hi.
Qed.

Lemma ww_with_model {A} (body : Run A) (a : list Sample) :
  P EvEnter -> P EvExit ->
  writes_within key P w0 body a ->
  writes_within key P w0 (with_model self body) a.
Proof.
  intros HPe HPx Hb w r w' Hr Hm. unfold with_model in Hm.
  set (w1 := {| model := enter self (model w); fields := fields w;
                trace := trace w ++ [EvEnter] |}) in *.
  assert (H1 : Wrote key P w w1 []).
  { split; simpl.
    - exists [EvEnter]. repeat split. now constructor.
    - reflexivity.
    - intros i k Hi. inversion Hi. }
  destruct (body w1) as [r' w2] eqn:E. injection Hm as <- <-.
  destruct (Hb w1 _ _ (reached_step _ _ _ Hr H1) E) as (ws & Hs & HW).
  exists ws. split; [assumption|].
  assert (H2 : Wrote key P w2 {| model := exit self (model w2);
                 fields := fields w2; trace := trace w2 ++ [EvExit] |} []).
  { split; simpl.
    - exists [EvExit]. repeat split. now constructor.
    - reflexivity.
    - intros i k Hi. inversion Hi. }
  pose proof (Wrote_trans _ _ _ _ _ H1 (Wrote_trans _ _ _ _ _ HW H2)) as H.
  now rewrite app_nil_r in H.
Qed.

(** a write to the key of a sample followed by its save *)
Lemma ww_setitem_save (sample : Sample) (k : string) (a : ndarray) :
  key = Some k -> P (EvSave (sample_id sample)) ->
  writes_within key P w0
    (sample_setitem sample k (VArray a) ;;; sample_save sample) [sample].
Proof.
  intros Hk HP w r w' _ Hm. injection Hm as <- <-.
  exists [sample]. split; [reflexivity|]. split; simpl.
  - exists [EvSave (sample_id sample)]. repeat split. now constructor.
  - intros i f [H|H].
    + apply lookup_insert_ne. intros [= Hi Hf]. subst. now apply H.
    + apply lookup_insert_ne. intros [= Hi Hf]. subst. apply H. left.
  - intros i k' Hi Hk'. apply list_elem_of_singleton in Hi. subst i.
    assert (k' = k) as -> by congruence.
    exists a. apply lookup_insert_eq.
Qed.

End Effects.

Section Executors.

Context {M : Type}.
Variable self : ModelClass M.
Variable env : Env M.
Variable embeddings_field : option string.
Variable P : Event -> Prop.
Variable w0 : World M.

Local Abbreviation Run := (St (World M)).
Local Abbreviation key := (write_mode embeddings_field).
Local Abbreviation writable := (writable_samples embeddings_field).
Local Abbreviation patches_of := (patches_of env).

(** every event but a call of [embed_all] is allowed *)
Hypothesis P_other : forall ev, (forall args, ev <> EvEmbedAll args) -> P ev.

Lemma concat_singletons {A} (l : list A) : concat (map (fun x => [x]) l) = l.
Proof. induction l; simpl; congruence. Qed.

Lemma concat_nils {A B} (l : list A) : concat (map (fun _ => @nil B) l) = [].
Proof. induction l; simpl; congruence. Qed.

Lemma zip_fst_sublist {A B} (l : list A) (k : list B) :
  sublist (map fst (zip l k)) l.
Proof.
  revert k. induction l as [|x l IH]; intros [|y k]; simpl;
    try constructor; auto using sublist_nil_l.
Qed.

Lemma chunks_concat_sublist {A} (fuel n : nat) (l : list A) :
  sublist (concat (chunks fuel n l)) l.
Proof.
  revert l. induction fuel as [|fuel IH]; intros l; simpl.
  - apply sublist_nil_l.
  - destruct l as [|x l']; [constructor|].
    pose proof (sublist_app _ _ _ _
                  (reflexivity (take n (x :: l'))) (IH (drop n (x :: l')))) as H.
    now rewrite take_drop in H.
Qed.

Lemma iter_batches_concat_sublist {A} (l : list A) (b : Z) :
  sublist (concat (iter_batches l b)) l.
Proof.
  unfold iter_batches. destruct (b <? 1); [apply sublist_nil_l|].
  apply chunks_concat_sublist.
Qed.

Ltac ww_step :=
  first
    [ apply ww_ret | apply ww_raise | apply ww_lift | apply ww_on_model
    | apply ww_emit; [apply P_other; intros ?; discriminate | reflexivity]
    | apply ww_bind_nil; [|intros ?] ].

Lemma ww_read_image (path : string) :
  writes_within key P w0 (read_image env path) [].
Proof. unfold read_image. repeat ww_step. Qed.

Lemma ww_call_embed (arg : Media) :
  writes_within key P w0 (call_embed self arg) [].
Proof. unfold call_embed. repeat ww_step. Qed.

Lemma ww_call_embed_all (args : list Media) :
  P (EvEmbedAll args) ->
  writes_within key P w0 (call_embed_all self args) [].
Proof.
  intros HP. unfold call_embed_all.
  apply ww_bind_nil; [apply ww_emit; [assumption|reflexivity]|].
  intros _. apply ww_on_model.
Qed.

Lemma ww_sample_getitem (sample : Sample) (field : string) :
  writes_within key P w0 (sample_getitem sample field) [].
Proof.
  apply ww_pure. intros w. unfold sample_getitem.
  now destruct (fields w !! (sample_id sample, field)).
Qed.

(** [sample[embeddings_field] = a; sample.save()] and what follows *)
Lemma ww_write_then {A} (sample : Sample) (a : ndarray) (rest : Run A) :
  truthy embeddings_field = true ->
  writes_within key P w0 rest [] ->
  writes_within key P w0
    (sample_setitem sample (field_key embeddings_field) (VArray a) ;;;
     sample_save sample ;;; rest) [sample].
Proof.
  intros Ht Hrest.
  assert (Hk : key = Some (field_key embeddings_field)).
  { unfold write_mode. now rewrite Ht. }
  pose proof (ww_setitem_save key P w0 sample _ a Hk
                (P_other (EvSave (sample_id sample))
                   ltac:(intros ?; discriminate))) as H.
  pose proof (ww_bind _ _ _ _ _ _ _ H (fun _ => Hrest)) as H'.
  intros w r w' Hr Hm. apply (H' w r w' Hr).
  rewrite <- Hm. unfold bind, sample_setitem, sample_save, emit. reflexivity.
Qed.

Lemma ww_with_video_reader {A} (path : string) (body : Media -> Run A)
    (a : list Sample) :
  (forall media, writes_within key P w0 (body media) a) ->
  writes_within key P w0 (with_video_reader env path body) a.
Proof.
  intros Hb. unfold with_video_reader.
  apply ww_bind_nil; [ww_step|]. intros _.
  apply ww_bind_nil; [ww_step|]. intros _.
  intros w r w' Hr Hm.
  destruct (body (VideoReader path) w) as [r' w1] eqn:E.
  injection Hm as <- <-.
  destruct (Hb _ w _ _ Hr E) as (ws & Hs & HW).
  exists ws. split; [assumption|].
  pose proof (ww_event key P w1 (EvCloseVideo path)
                (P_other (EvCloseVideo path) ltac:(intros ?; discriminate))
                eq_refl) as H2.
  pose proof (Wrote_trans _ _ _ _ _ _ _ HW H2) as H.
  now rewrite app_nil_r in H.
Qed.

Lemma writable_concat (l : list Sample) :
  concat (map (fun s => writable [s]) l) = writable l.
Proof.
  unfold writable_samples. destruct (truthy embeddings_field).
  - apply concat_singletons.
  - apply concat_nils.
Qed.

Lemma ww_finish (embeddings : list ndarray) :
  writes_within key P w0
    (if truthy embeddings_field then ret None
     else a <- lift (Np.concatenate embeddings) ;; ret (Some a)) [].
Proof. destruct (truthy embeddings_field); repeat ww_step. Qed.

Lemma ww_single (l : list Sample) :
  writes_within key P w0
    (_compute_image_embeddings_single self env l embeddings_field)
    (writable l).
Proof.
  unfold _compute_image_embeddings_single.
  apply ww_bind_last; [|intros; apply ww_finish].
  apply ww_with_model; try (apply P_other; intros ?; discriminate).
  rewrite <- writable_concat. apply ww_for_acc. intros sample acc _.
  apply ww_bind_nil; [apply ww_read_image|]. intros img.
  apply ww_bind_nil; [apply ww_call_embed|]. intros embedding.
  unfold writable_samples. destruct (truthy embeddings_field) eqn:Ht.
  - apply ww_bind_nil; [ww_step|]. intros e0.
    apply ww_write_then; [assumption|ww_step].
  - ww_step.
Qed.

Lemma ww_video (l : list Sample) :
  writes_within key P w0
    (_compute_video_embeddings self env l embeddings_field) (writable l).
Proof.
  unfold _compute_video_embeddings.
  apply ww_bind_last; [|intros; apply ww_finish].
  apply ww_with_model; try (apply P_other; intros ?; discriminate).
  rewrite <- writable_concat. apply ww_for_acc. intros sample acc _.
  apply ww_bind_nil.
  { apply ww_with_video_reader. intros media. apply ww_call_embed. }
  intros embedding.
  unfold writable_samples. destruct (truthy embeddings_field) eqn:Ht.
  - apply ww_bind_nil; [ww_step|]. intros e0.
    apply ww_write_then; [assumption|ww_step].
  - ww_step.
Qed.

Lemma ww_batch (l : list Sample) (b : Z) :
  (forall args, P (EvEmbedAll args)) ->
  writes_within key P w0
    (_compute_image_embeddings_batch self env l embeddings_field b)
    (writable l).
Proof.
  intros HP. unfold _compute_image_embeddings_batch.
  apply ww_bind_last; [|intros; apply ww_finish].
  apply ww_with_model; try (apply P_other; intros ?; discriminate).
  apply ww_mono with (a := concat (map writable (iter_batches l b))).
  { unfold writable_samples. destruct (truthy embeddings_field).
    - rewrite map_id. apply iter_batches_concat_sublist.
    - rewrite concat_nils. constructor. }
  apply ww_for_acc. intros batch acc _.
  apply ww_bind_nil.
  { apply ww_map_st. intros s. apply ww_read_image. }
  intros imgs.
  apply ww_bind_nil; [apply ww_call_embed_all, HP|]. intros embeddings_batch.
  unfold writable_samples. destruct (truthy embeddings_field) eqn:Ht; [|ww_step].
  apply ww_bind_nil; [ww_step|]. intros rows.
  apply ww_bind_last; [|intros; ww_step].
  apply ww_mono with (a := concat (map (fun x => [fst x]) (zip batch rows))).
  { replace (concat (map (fun x => [fst x]) (zip batch rows)))
      with (map fst (zip batch rows)).
    - apply zip_fst_sublist.
    - induction (zip batch rows); simpl; congruence. }
  unfold for_each. apply ww_for_acc. intros [sample embedding] [] _.
  simpl fst.
  pose proof (ww_write_then sample embedding (ret tt) Ht (ww_ret _ _ _ _)) as H.
  intros w r w' Hr Hm. apply (H w r w' Hr). rewrite <- Hm.
  unfold bind, ret, sample_setitem, sample_save, emit. reflexivity.
Qed.

Lemma ww_check_embeddings_model :
  writes_within key P w0 (check_embeddings_model self) [].
Proof.
  unfold check_embeddings_model.
  destruct (negb (isinstance_EmbeddingsMixin self)); [ww_step|].
  ww_step; [ww_step|]. destruct (negb _); ww_step.
Qed.

Lemma ww_parse_batch_size (batch_size : option Z) :
  writes_within key P w0 (_parse_batch_size self env batch_size) [].
Proof.
  unfold _parse_batch_size.
  destruct (match batch_size with Some b => Some b | None => _ end)
    as [b|]; [|ww_step].
  destruct (1 <? b); [|ww_step].
  ww_step; [ww_step|]. destruct x; repeat ww_step.
Qed.

Lemma ww_compute_embeddings (samples : SampleCollection)
    (batch_size : option Z) :
  (forall args, P (EvEmbedAll args)) ->
  media_type samples = VIDEO \/ isinstance_TorchModelMixin self = false ->
  writes_within key P w0
    (compute_embeddings self env samples embeddings_field batch_size)
    (writable (sample_list samples)).
Proof.
  intros HP Hroute. unfold compute_embeddings.
  apply ww_bind_nil; [apply ww_check_embeddings_model|]. intros _.
  destruct (bool_decide (media_type samples = VIDEO)) eqn:Hv.
  - apply ww_video.
  - apply bool_decide_eq_false in Hv.
    destruct Hroute as [Hr|Hr]; [contradiction|]. rewrite Hr.
    apply ww_bind_nil; [apply ww_parse_batch_size|]. intros [b|].
    + now apply ww_batch.
    + apply ww_single.
Qed.

(** *** The patch executor *)

Lemma parse_patches_world (sample : Sample) (patches_field : string)
    (w : World M) :
  snd (_parse_patches env sample patches_field w) = w.
Proof.
  unfold _parse_patches, bind, sample_getitem, ret.
  now destruct (fields w !! (sample_id sample, patches_field)).
Qed.

Lemma parse_patches_fields (sample : Sample) (patches_field : string)
    (w w' : World M) :
  fields w' !! (sample_id sample, patches_field) =
    fields w !! (sample_id sample, patches_field) ->
  fst (_parse_patches env sample patches_field w') =
    fst (_parse_patches env sample patches_field w).
Proof.
  intros H. unfold _parse_patches, bind, sample_getitem, ret. rewrite H.
  now destruct (fields w !! (sample_id sample, patches_field)).
Qed.

Lemma ww_read_image_then {A} (path : string) (f : ndarray -> Run A)
    (a : list Sample) :
  (forall img, etai_read env path = Ok img -> writes_within key P w0 (f img) a) ->
  writes_within key P w0 (img <- read_image env path ;; f img) a.
Proof.
  intros H w r w' Hr Hm.
  assert (H1 : Wrote key P w (after_event w (EvRead path)) []).
  { apply ww_event; [apply P_other; intros ?; discriminate|reflexivity]. }
  unfold bind, read_image, emit, lift in Hm. simpl in Hm.
  destruct (etai_read env path) as [img|e] eqn:E.
  - destruct (H img eq_refl _ r w' (reached_step _ _ _ _ _ _ Hr H1) Hm)
      as (ws & Hs & HW).
    exists ws. split; [assumption|].
    exact (Wrote_trans _ _ _ _ _ _ _ H1 HW).
  - injection Hm as <- <-. exists []. split; [apply sublist_nil_l|assumption].
Qed.

Lemma ww_embed_patches_single (img : ndarray) (ds : list Detection)
    (force_square : bool) (alpha : option Q) :
  writes_within key P w0
    (_embed_patches_single self env img ds force_square alpha) [].
Proof.
  unfold _embed_patches_single.
  apply ww_bind_nil; [|intros; ww_step].
  rewrite <- (concat_nils (B := Sample) ds). apply ww_for_acc.
  intros d acc _. apply ww_bind_nil; [apply ww_call_embed|]. intros; ww_step.
Qed.

Lemma ww_embed_patches_batch (img : ndarray) (ds : list Detection)
    (force_square : bool) (alpha : option Q) (b : Z) :
  (forall chunk, chunk ∈ iter_batches ds b ->
                 P (EvEmbedAll (patches_of img force_square alpha chunk))) ->
  writes_within key P w0
    (_embed_patches_batch self env img ds force_square alpha b) [].
Proof.
  intros HP. unfold _embed_patches_batch.
  apply ww_bind_nil; [|intros; ww_step].
  rewrite <- (concat_nils (B := Sample) (iter_batches ds b)). apply ww_for_acc.
  intros chunk acc Hin.
  apply ww_bind_nil; [apply ww_call_embed_all, HP, Hin|]. intros; ww_step.
Qed.

Section PatchLoop.

Variable patches_field : string.
Variable batch_size : option Z.
Variable force_square : bool.
Variable alpha : option Q.

Local Abbreviation batches_allowed :=
  (turn_allowed env key P w0 patches_field batch_size force_square alpha).

Lemma ww_patch_step (sample : Sample) (d : gmap string ndarray) :
  batches_allowed sample ->
  writes_within key P w0
    (patch_embeddings_step self env patches_field embeddings_field batch_size
       force_square alpha sample d)
    (writable [sample]).
Proof.
  intros HP w r w' Hr Hm. unfold patch_embeddings_step in Hm.
  unfold bind at 1 in Hm.
  pose proof (parse_patches_world sample patches_field w) as Hw.
  destruct (_parse_patches env sample patches_field w) as [[dets|e] w1] eqn:E;
    simpl in Hw; subst w1.
  2:{ injection Hm as <- <-. exists []. split; [apply sublist_nil_l|].
      apply Wrote_refl. }
  assert (Hskip : forall r w', ret d w = (r, w') ->
            exists ws, sublist ws (writable [sample]) /\ Wrote key P w w' ws).
  { intros r1 w1 [= <- <-]. exists []. split; [apply sublist_nil_l|].
    apply Wrote_refl. }
  destruct dets as [[|d1 ds]|];
    [exact (Hskip _ _ Hm)| |exact (Hskip _ _ Hm)].
  clear Hskip. revert Hm.
  refine (ww_read_image_then (filepath sample) _ _ _ w r w' Hr).
  intros img Himg.
  apply ww_bind_nil.
  { destruct batch_size as [b|] eqn:Hb.
    - apply ww_embed_patches_batch. intros chunk Hin.
      apply (HP w (d1 :: ds) img b chunk Hr); try assumption; try reflexivity.
      now rewrite E.
    - apply ww_embed_patches_single. }
  intros embeddings. unfold writable_samples.
  destruct (truthy embeddings_field) eqn:Ht.
  - apply ww_write_then; [assumption|ww_step].
  - ww_step.
Qed.

Lemma ww_patch_loop (l : list Sample) :
  (forall sample, sample ∈ l -> batches_allowed sample) ->
  writes_within key P w0
    (with_model self
       (for_acc (patch_embeddings_step self env patches_field embeddings_field
                   batch_size force_square alpha) l ∅))
    (writable l).
Proof.
  intros HP.
  apply ww_with_model; try (apply P_other; intros ?; discriminate).
  rewrite <- writable_concat. apply ww_for_acc.
  intros sample d Hin. apply ww_patch_step. now apply HP.
Qed.

End PatchLoop.

Lemma ww_compute_patch_embeddings (samples : SampleCollection)
    (patches_field : string) (batch_size : option Z) (force_square : bool)
    (alpha : option Q) :
  (forall args, P (EvEmbedAll args)) ->
  isinstance_TorchModelMixin self = false ->
  writes_within key P w0
    (compute_patch_embeddings self env samples patches_field embeddings_field
       batch_size force_square alpha)
    (writable (sample_list samples)).
Proof.
  intros HP Hroute. unfold compute_patch_embeddings.
  destruct (negb (bool_decide (media_type samples = IMAGE))).
  { apply ww_mono with (a := []); [apply sublist_nil_l|ww_step]. }
  apply ww_bind_nil; [apply ww_check_embeddings_model|]. intros _.
  rewrite Hroute.
  apply ww_bind_nil; [ww_step|]. intros _.
  apply ww_bind_nil; [apply ww_parse_batch_size|]. intros b.
  apply ww_bind_last; [|intros; ww_step].
  apply ww_patch_loop. intros sample _ w ds img b' chunk _ _ _ _ _. apply HP.
Qed.

End Executors.

Section FieldMode.

Context {M : Type}.
Variable self : ModelClass M.
Variable env : Env M.

Lemma Wrote_one_field (embeddings_field : option string)
    (samples : SampleCollection) (w w' : World M) (ws : list Sample) :
  truthy embeddings_field = true ->
  sublist ws (writable_samples embeddings_field (sample_list samples)) ->
  Wrote (write_mode embeddings_field) (fun _ => True) w w' ws ->
  one_field_written embeddings_field samples w w'.
Proof.
  intros Ht Hs [(t & Ht1 & _ & Ht2) Hf Ha].
  unfold writable_samples, write_mode in *. rewrite Ht in *.
  exists ws, t. repeat split; try assumption.
  - intros i f [H|H]; apply Hf; [left; congruence|now right].
  - intros i Hi. now apply Ha.
Qed.

(** C9: in field mode, on every run of [compute_embeddings] and of
    [compute_patch_embeddings] that does not go through the data-loader
    path, whether it returns or raises: the samples written form a
    subsequence of the collection; each is saved once, right after its
    write; only [embeddings_field] of these samples changes, so every
    other field, [patches_field] included when it is another field, and
    every other sample stay as they were. *)
Theorem field_mode_writes_one_field (samples : SampleCollection)
    (patches_field : string) (embeddings_field : option string)
    (batch_size : option Z) (force_square : bool) (alpha : option Q)
    (w : World M) :
  truthy embeddings_field = true ->
  isinstance_TorchModelMixin self = false ->
  (forall r w',
     compute_embeddings self env samples embeddings_field batch_size w = (r, w') ->
     one_field_written embeddings_field samples w w')
  /\ (forall r w',
        compute_patch_embeddings self env samples patches_field embeddings_field
          batch_size force_square alpha w = (r, w') ->
        one_field_written embeddings_field samples w w' /\
        (patches_field <> field_key embeddings_field ->
         forall i, fields w' !! (i, patches_field) = fields w !! (i, patches_field))).
Proof.
  intros Ht Hroute. split.
  - intros r w' Hm.
    destruct (ww_compute_embeddings self env embeddings_field (fun _ => True) w
                (fun _ _ => I) samples batch_size (fun _ => I) (or_intror Hroute)
                w r w' (reached_refl _ _ _) Hm) as (ws & Hs & HW).
    eapply Wrote_one_field; eassumption.
  - intros r w' Hm.
    destruct (ww_compute_patch_embeddings self env embeddings_field
                (fun _ => True) w (fun _ _ => I) samples patches_field batch_size
                force_square alpha (fun _ => I) Hroute
                w r w' (reached_refl _ _ _) Hm) as (ws & Hs & HW).
    split; [eapply Wrote_one_field; eassumption|].
    intros Hne i. apply (wrote_frame _ _ _ _ _ HW). left.
    unfold write_mode. rewrite Ht. congruence.
Qed.

End FieldMode.

Lemma field_mode_writes_one_field_witness :
  (truthy (Some "emb") = true /\
   isinstance_TorchModelMixin Demo.default_model = false) /\
  one_field_written (Some "emb") (Demo.images [Demo.s1; Demo.s2]) Demo.world0
    (snd (compute_embeddings Demo.default_model (Demo.env None)
            (Demo.images [Demo.s1; Demo.s2]) (Some "emb") (Some 2) Demo.world0)).
Proof.
  split; [split; reflexivity|].
  eapply (proj1 (field_mode_writes_one_field Demo.default_model (Demo.env None)
                   (Demo.images [Demo.s1; Demo.s2]) "ground_truth" (Some "emb")
                   (Some 2) false None Demo.world0 eq_refl eq_refl)).
  apply surjective_pairing.
Defined.

(** ** Samples without detections *)

Section EmptyPatches.

Context {M : Type}.
Variable self : ModelClass M.
Variable env : Env M.
Variable patches_field : string.
Variable embeddings_field : option string.
Variable force_square : bool.
Variable alpha : option Q.

Local Abbreviation Run := (St (World M)).
Local Abbreviation step batch_size :=
  (patch_embeddings_step self env patches_field embeddings_field batch_size
     force_square alpha).

Lemma for_acc_app {S A Acc} (body : A -> Acc -> St S Acc) (l1 l2 : list A)
    (acc : Acc) (s : S) :
  for_acc body (l1 ++ l2) acc s =
    (acc1 <- for_acc body l1 acc ;; for_acc body l2 acc1) s.
Proof.
  revert acc s. induction l1 as [|x l1 IH]; intros acc s; simpl.
  - reflexivity.
  - unfold bind in *. destruct (body x acc s) as [[acc'|e] s1]; [|reflexivity].
    apply IH.
Qed.

Lemma no_detections_fields (sample : Sample) (w w' : World M) :
  fields w' !! (sample_id sample, patches_field) =
    fields w !! (sample_id sample, patches_field) ->
  no_detections env sample patches_field w ->
  no_detections env sample patches_field w'.
Proof.
  intros H. unfold no_detections.
  rewrite (parse_patches_fields env sample patches_field w w' H). tauto.
Qed.

(** The turn of a sample without detections changes nothing and raises
    nothing: the loop goes on with the next sample. *)
Lemma step_skip (batch_size : option Z) (sample : Sample)
    (d : gmap string ndarray) (w : World M) :
  no_detections env sample patches_field w ->
  step batch_size sample d w = (Ok d, w).
Proof.
  intros H. unfold patch_embeddings_step, bind. unfold no_detections in H.
  pose proof (parse_patches_world env sample patches_field w) as Hw.
  destruct (_parse_patches env sample patches_field w) as [r w1].
  simpl in *. subst w1.
  destruct H as [-> | ->]; reflexivity.
Qed.

(** The turn of a sample adds at most the id of that sample to the
    dictionary. *)
Lemma step_dict (batch_size : option Z) (sample : Sample)
    (d d' : gmap string ndarray) (w w' : World M) :
  step batch_size sample d w = (Ok d', w') ->
  d' = d \/ exists a, d' = <[sample_id sample := a]> d.
Proof.
  unfold patch_embeddings_step, bind, ret, sample_setitem, sample_save, emit.
  intros Hm.
  repeat match type of Hm with
         | context [match ?x with _ => _ end] => destruct x eqn:?
         | context [if ?x then _ else _] => destruct x eqn:?
         end;
    try discriminate; injection Hm as <- <-; eauto.
Qed.

Lemma loop_dict (batch_size : option Z) (l : list Sample)
    (d d' : gmap string ndarray) (w w' : World M) (i : string) :
  for_acc (step batch_size) l d w = (Ok d', w') ->
  is_Some (d' !! i) -> is_Some (d !! i) \/ i ∈ map sample_id l.
Proof.
  revert d w. induction l as [|s l IH]; intros d w; simpl.
  - intros [= <- <-]. now left.
  - unfold bind at 1.
    destruct (step batch_size s d w) as [[d1|e] w1] eqn:E; [|discriminate].
    intros Hm Hi. destruct (IH _ _ Hm Hi) as [H|H]; [|right; now right].
    destruct (step_dict _ _ _ _ _ _ E) as [->|[a ->]]; [now left|].
    destruct (decide (sample_id s = i)) as [<-|Hne]; [right; left|].
    rewrite lookup_insert_ne in H by assumption. now left.
Qed.

Lemma loop_skip (batch_size : option Z) (l1 l2 : list Sample) (s : Sample)
    (d : gmap string ndarray) (w : World M) :
  sample_id s ∉ map sample_id l1 ->
  no_detections env s patches_field w ->
  for_acc (step batch_size) (l1 ++ s :: l2) d w =
    for_acc (step batch_size) (l1 ++ l2) d w.
Proof.
  intros Hid Hno. rewrite !for_acc_app. unfold bind.
  destruct (for_acc (step batch_size) l1 d w) as [[d1|e] w1] eqn:E;
    [|reflexivity].
  change (for_acc (step batch_size) (s :: l2) d1 w1)
    with (bind (step batch_size s d1) (for_acc (step batch_size) l2) w1).
  unfold bind. rewrite step_skip; [reflexivity|].
  assert (HW : exists ws, sublist ws (concat (map (fun s => writable_samples embeddings_field [s]) l1)) /\
                 Wrote (write_mode embeddings_field) (fun _ => True) w w1 ws).
  { apply (ww_for_acc (write_mode embeddings_field) (fun _ => True) w
             (step batch_size) _ l1 d) with (r := Ok d1);
      [|apply reached_refl|exact E].
    intros x acc _. apply ww_patch_step; [intros; exact I|].
    intros w2 ds img b chunk _ _ _ _ _. exact I. }
  destruct HW as (ws & Hs & HW).
  rewrite writable_concat in Hs.
  apply (no_detections_fields s w w1); [|assumption].
  apply (wrote_frame _ _ _ _ _ HW). right.
  intros Hin. apply Hid.
  apply sublist_subseteq in Hs.
  apply list_elem_of_fmap in Hin as (x & -> & Hx).
  apply list_elem_of_fmap. exists x. split; [reflexivity|].
  apply Hs in Hx. unfold writable_samples in Hx.
  destruct (truthy embeddings_field); [assumption|inversion Hx].
Qed.

Lemma check_embeddings_model_world (w : World M) :
  snd (check_embeddings_model self w) = w.
Proof.
  unfold check_embeddings_model.
  destruct (negb (isinstance_EmbeddingsMixin self)); [reflexivity|].
  unfold bind. rewrite on_model_pure.
  destruct (has_embeddings self (model w)) as [[|]|e]; reflexivity.
Qed.

Lemma parse_batch_size_fields (batch_size : option Z) (w : World M) :
  fields (snd (_parse_batch_size self env batch_size w)) = fields w.
Proof.
  unfold _parse_batch_size.
  destruct (match batch_size with Some b => Some b | None => _ end)
    as [b|]; [|reflexivity].
  destruct (1 <? b); [|reflexivity].
  unfold bind. rewrite on_model_pure.
  destruct (ragged_batches self (model w)) as [[|]|e]; reflexivity.
Qed.

Lemma compute_patch_embeddings_dict (samples : SampleCollection)
    (batch_size : option Z) (w w' : World M) (d : gmap string ndarray) :
  isinstance_TorchModelMixin self = false ->
  compute_patch_embeddings self env samples patches_field embeddings_field
    batch_size force_square alpha w = (Ok (Some d), w') ->
  forall i, is_Some (d !! i) -> i ∈ map sample_id (sample_list samples).
Proof.
  intros Hroute. unfold compute_patch_embeddings. rewrite Hroute.
  destruct (negb (bool_decide (media_type samples = IMAGE)));
    [discriminate|].
  unfold bind, lift, with_model, ret.
  destruct (check_embeddings_model self w) as [[[]|?] wc]; [|discriminate].
  destruct (validate_collection_label_fields env (schema samples)
              patches_field allowed_types) as [[]|?]; [|discriminate].
  destruct (_parse_batch_size self env batch_size wc) as [[b|?] wp];
    [|discriminate].
  destruct (for_acc (step b) (sample_list samples) ∅ _) as [[d'|?] wl] eqn:E;
    [|discriminate].
  destruct (truthy embeddings_field); [discriminate|].
  intros [= <- <-] i Hi.
  destruct (loop_dict _ _ _ _ _ _ i E Hi) as [[? Habs]|H]; [|assumption].
  rewrite lookup_empty in Habs. discriminate.
Qed.

(** C5: a sample whose patch source yields no detection is passed over by
    [compute_patch_embeddings]: the run is the run on the collection
    without that sample, with the same result, the same writes and the
    same effects; no field of the sample is written, the sample is not
    saved, and the returned mapping has no entry for its id. *)
Theorem empty_patches_skipped (samples : SampleCollection)
    (l1 l2 : list Sample) (s : Sample) (batch_size : option Z)
    (w : World M) :
  isinstance_TorchModelMixin self = false ->
  sample_list samples = l1 ++ s :: l2 ->
  sample_id s ∉ map sample_id (l1 ++ l2) ->
  no_detections env s patches_field w ->
  compute_patch_embeddings self env samples patches_field embeddings_field
    batch_size force_square alpha w =
  compute_patch_embeddings self env (with_samples samples (l1 ++ l2))
    patches_field embeddings_field batch_size force_square alpha w
  /\ forall r w',
       compute_patch_embeddings self env samples patches_field
         embeddings_field batch_size force_square alpha w = (r, w') ->
       (forall f, fields w' !! (sample_id s, f) = fields w !! (sample_id s, f))
       /\ (exists t, trace w' = trace w ++ t /\ sample_id s ∉ saved_ids t)
       /\ (forall d, r = Ok (Some d) -> d !! sample_id s = None).
Proof.
  intros Hroute Hl Hid Hno.
  assert (Hid1 : sample_id s ∉ map sample_id l1).
  { intros H. apply Hid. rewrite map_app, elem_of_app. now left. }
  assert (Heq : compute_patch_embeddings self env samples patches_field
                  embeddings_field batch_size force_square alpha w =
                compute_patch_embeddings self env (with_samples samples (l1 ++ l2))
                  patches_field embeddings_field batch_size force_square alpha w).
  { unfold compute_patch_embeddings. simpl. rewrite Hroute, Hl.
    destruct (negb (bool_decide (media_type samples = IMAGE))); [reflexivity|].
    unfold bind at 1 5.
    pose proof (check_embeddings_model_world w) as Hc.
    destruct (check_embeddings_model self w) as [[[]|e] wc]; [|reflexivity].
    simpl in Hc. subst wc.
    unfold bind at 1 4. unfold lift at 1 2.
    destruct (validate_collection_label_fields env (schema samples)
                patches_field allowed_types) as [[]|e]; [|reflexivity].
    unfold bind at 1 3.
    pose proof (parse_batch_size_fields batch_size w) as Hp.
    destruct (_parse_batch_size self env batch_size w) as [[b|e] wp];
      [|reflexivity].
    simpl in Hp.
    unfold bind at 1 2. unfold with_model.
    rewrite loop_skip; [reflexivity|assumption|].
    apply (no_detections_fields s w); [|assumption].
    simpl. now rewrite Hp. }
  split; [exact Heq|].
  intros r w' Hm. rewrite Heq in Hm.
  destruct (ww_compute_patch_embeddings self env embeddings_field
              (fun _ => True) w (fun _ _ => I) (with_samples samples (l1 ++ l2))
              patches_field batch_size force_square alpha (fun _ => I) Hroute
              w r w' (reached_refl _ _ _) Hm) as (ws & Hs & HW).
  assert (Hws : sample_id s ∉ map sample_id ws).
  { intros Hin. apply Hid.
    apply sublist_subseteq in Hs.
    apply list_elem_of_fmap in Hin as (x & -> & Hx).
    apply list_elem_of_fmap. exists x. split; [reflexivity|].
    apply Hs in Hx. unfold writable_samples in Hx. simpl in Hx.
    destruct (truthy embeddings_field); [assumption|inversion Hx]. }
  split; [|split].
  - intros f. apply (wrote_frame _ _ _ _ _ HW). now right.
  - destruct (wrote_trace _ _ _ _ _ HW) as (t & Ht & _ & Hsaved).
    exists t. split; [assumption|]. now rewrite Hsaved.
  - intros d ->.
    destruct (d !! sample_id s) eqn:Hlook; [|reflexivity].
    exfalso. apply Hid.
    apply (compute_patch_embeddings_dict _ _ _ _ _ Hroute Hm). eauto.
Qed.

End EmptyPatches.

Lemma empty_patches_skipped_witness :
  (isinstance_TorchModelMixin Demo.batched_model = false /\
   sample_list (Demo.images [Demo.s1; Demo.s2; Demo.s3])
     = [Demo.s1] ++ Demo.s2 :: [Demo.s3] /\
   (sample_id Demo.s2 ∉ map sample_id ([Demo.s1] ++ [Demo.s3])) /\
   no_detections (Demo.env None) Demo.s2 "ground_truth" Demo.world1) /\
  (compute_patch_embeddings Demo.batched_model (Demo.env None)
     (Demo.images [Demo.s1; Demo.s2; Demo.s3]) "ground_truth" None (Some 2)
     false None Demo.world1 =
   compute_patch_embeddings Demo.batched_model (Demo.env None)
     (with_samples (Demo.images [Demo.s1; Demo.s2; Demo.s3])
        ([Demo.s1] ++ [Demo.s3])) "ground_truth" None (Some 2)
     false None Demo.world1).
Proof.
  assert (Hid : sample_id Demo.s2 ∉ map sample_id ([Demo.s1] ++ [Demo.s3])).
  { apply (bool_decide_unpack _). vm_compute. exact I. }
  assert (Hno : no_detections (Demo.env None) Demo.s2 "ground_truth"
                  Demo.world1).
  { right. vm_compute. reflexivity. }
  split; [repeat split; try reflexivity; assumption|].
  exact (proj1 (empty_patches_skipped Demo.batched_model (Demo.env None)
                  "ground_truth" None false None
                  (Demo.images [Demo.s1; Demo.s2; Demo.s3])
                  [Demo.s1] [Demo.s3] Demo.s2 (Some 2) Demo.world1
                  eq_refl eq_refl Hid Hno)).
Defined.

(** ** Batches of patches *)

Section Batches.

Lemma chunks_concat {A} (fuel n : nat) (l : list A) :
  (0 < n)%nat -> (length l <= fuel)%nat -> concat (chunks fuel n l) = l.
Proof.
  intros Hn. revert l. induction fuel as [|fuel IH]; intros l Hl; simpl.
  - destruct l; [reflexivity|simpl in Hl; lia].
  - destruct l as [|x l']; [reflexivity|].
    simpl concat. rewrite IH; [apply take_drop|].
    rewrite length_drop. simpl in *. lia.
Qed.

Lemma chunks_lengths {A} (fuel n : nat) (l : list A) :
  (0 < n)%nat ->
  Forall (fun c => (1 <= length c <= n)%nat) (chunks fuel n l).
Proof.
  intros Hn. revert l. induction fuel as [|fuel IH]; intros l; simpl.
  - constructor.
  - destruct l as [|x l']; constructor; [|apply IH].
    rewrite length_take. simpl. lia.
Qed.

Lemma chunks_full_but_last {A} (fuel n : nat) (l : list A) :
  full_but_last n (chunks fuel n l).
Proof.
  revert l. induction fuel as [|fuel IH]; intros l; simpl; [exact I|].
  destruct l as [|x l']; [exact I|].
  destruct (chunks fuel n (drop n (x :: l'))) as [|c rest] eqn:E; [exact I|].
  split; [|rewrite <- E; apply IH].
  rewrite length_take.
  destruct (Nat.le_gt_cases (length (x :: l')) n) as [Hle|Hgt]; [|lia].
  rewrite drop_ge in E by assumption.
  destruct fuel; discriminate.
Qed.

(** For a size of at least one, [iter_batches] cuts a sequence into
    contiguous batches of at most that size, full but for the last. *)
Lemma iter_batches_partitions {A} (l : list A) (b : Z) :
  1 <= b -> partitions b l (iter_batches l b).
Proof.
  intros Hb. unfold iter_batches.
  destruct (b <? 1) eqn:E; [apply Z.ltb_lt in E; lia|].
  split; [|split].
  - apply chunks_concat; lia.
  - eapply Forall_impl; [apply (chunks_lengths _ (Z.to_nat b)); lia|].
    simpl. intros c Hc. lia.
  - apply chunks_full_but_last.
Qed.

Context {M : Type}.
Variable self : ModelClass M.
Variable env : Env M.
Variable force_square : bool.
Variable alpha : option Q.

Lemma embed_patches_batch_loop (img : ndarray)
    (batches : list (list Detection)) (acc out : list ndarray)
    (w w' : World M) :
  for_acc (fun detection_batch embeddings =>
      let patches :=
        map (fun d => _extract_patch env img d force_square alpha)
            detection_batch in
      embeddings_batch <- call_embed_all self (map ImageArray patches) ;;
      ret (embeddings ++ [embeddings_batch])) batches acc w = (Ok out, w') ->
  exists rs,
    out = acc ++ rs /\
    embed_all_each self (map (patches_of env img force_square alpha) batches)
      (model w) rs (model w') /\
    trace w' = trace w
               ++ map EvEmbedAll
                    (map (patches_of env img force_square alpha) batches) /\
    fields w' = fields w.
Proof.
  revert acc w. induction batches as [|c batches IH]; intros acc w; simpl.
  - intros [= <- <-]. exists []. rewrite !app_nil_r.
    repeat split. constructor.
  - unfold bind at 1. unfold bind at 1.
    unfold call_embed_all, bind, emit, on_model, ret. simpl.
    fold (patches_of env img force_square alpha c).
    destruct (embed_all self (patches_of env img force_square alpha c) (model w))
      as [[r|e] m1] eqn:E; [|discriminate].
    intros Hm. apply IH in Hm as (rs & -> & Hrs & Ht & Hf). simpl in *.
    exists (r :: rs). rewrite <- app_assoc. split; [reflexivity|].
    split; [econstructor; eassumption|].
    split; [now rewrite Ht, <- app_assoc|assumption].
Qed.

(** The result of [_embed_patches_batch] is the concatenation, in order,
    of what [embed_all] returned for the successive batches of the
    detections. *)
Lemma embed_patches_batch_result (img : ndarray) (ds : list Detection)
    (b : Z) (a : ndarray) (w w' : World M) :
  _embed_patches_batch self env img ds force_square alpha b w = (Ok a, w') ->
  exists rs,
    embed_all_each self
      (map (patches_of env img force_square alpha) (iter_batches ds b))
      (model w) rs (model w') /\
    Np.concatenate rs = Ok a /\
    trace w' = trace w
               ++ map EvEmbedAll
                    (map (patches_of env img force_square alpha)
                         (iter_batches ds b)).
Proof.
  unfold _embed_patches_batch. unfold bind at 1.
  match goal with
  | |- context [for_acc ?body ?l ?acc ?w] =>
      destruct (for_acc body l acc w) as [[out|e] w1] eqn:E
  end; [|discriminate].
  apply embed_patches_batch_loop in E as (rs & -> & Hrs & Ht & Hf).
  unfold lift. simpl. intros [= Hc <-].
  exists rs. repeat split; assumption.
Qed.

End Batches.

Section PatchBatches.

Context {M : Type}.
Variable self : ModelClass M.
Variable env : Env M.

Lemma single_sample_batch_other (samples : SampleCollection)
    (patches_field : string) (force_square : bool) (alpha : option Q)
    (b : Z) (w : World M) (ev : Event) :
  (forall args, ev <> EvEmbedAll args) ->
  single_sample_batch env samples patches_field force_square alpha b w ev.
Proof.
  intros H. destruct ev; try exact I. exfalso. now apply (H args).
Qed.

Section WholeRun.

Variable patches_field : string.
Variable embeddings_field : option string.
Variable force_square : bool.
Variable alpha : option Q.
Variable b : Z.
Variable w0 : World M.
Hypothesis Hb : 1 <= b.
Hypothesis Hkey : write_mode embeddings_field <> Some patches_field.

Local Abbreviation step :=
  (patch_embeddings_step self env patches_field embeddings_field (Some b)
     force_square alpha).
Local Abbreviation source_kept w :=
  (forall i, fields w !! (i, patches_field) = fields w0 !! (i, patches_field)).

Lemma embed_patches_batch_exact (img : ndarray) (ds : list Detection)
    (a : ndarray) (w w' : World M) :
  _embed_patches_batch self env img ds force_square alpha b w = (Ok a, w') ->
  exists rs,
    embed_all_each self
      (map (patches_of env img force_square alpha) (iter_batches ds b))
      (model w) rs (model w') /\
    Np.concatenate rs = Ok a /\
    trace w' = trace w
               ++ map EvEmbedAll
                    (map (patches_of env img force_square alpha)
                         (iter_batches ds b)) /\
    fields w' = fields w.
Proof.
  unfold _embed_patches_batch. unfold bind at 1.
  match goal with
  | |- context [for_acc ?body ?l ?acc ?w] =>
      destruct (for_acc body l acc w) as [[out|e] w1] eqn:E
  end; [|discriminate].
  apply embed_patches_batch_loop in E as (rs & -> & Hrs & Ht & Hf).
  unfold lift. simpl. intros [= Hc <-].
  exists rs. repeat split; assumption.
Qed.

Lemma embed_calls_app (t1 t2 : list Event) :
  embed_calls (t1 ++ t2) = embed_calls t1 ++ embed_calls t2.
Proof. unfold embed_calls. apply List.filter_app. Qed.

Lemma embed_calls_batches (argss : list (list Media)) :
  embed_calls (map EvEmbedAll argss) = map EvEmbedAll argss.
Proof.
  induction argss as [|args argss IH]; [reflexivity|].
  cbn. unfold embed_calls in IH. now rewrite IH.
Qed.

Lemma iter_batches_nil {A} : iter_batches (@nil A) b = [].
Proof. unfold iter_batches. now destruct (b <? 1). Qed.

Lemma batch_calls_none (sample : Sample) :
  no_detections env sample patches_field w0 ->
  batch_calls env patches_field force_square alpha b w0 sample = [].
Proof.
  intros Hno. unfold batch_calls, detections_of.
  destruct Hno as [-> | ->]; now rewrite iter_batches_nil.
Qed.

Lemma batch_calls_some (sample : Sample) (ds : list Detection)
    (img : ndarray) :
  fst (_parse_patches env sample patches_field w0) = Ok (Some ds) ->
  etai_read env (filepath sample) = Ok img ->
  batch_calls env patches_field force_square alpha b w0 sample
  = map EvEmbedAll
      (map (patches_of env img force_square alpha) (iter_batches ds b)).
Proof.
  intros Hp Hr. unfold batch_calls, detections_of, decoded.
  now rewrite Hp, Hr.
Qed.

(** The turn of a sample, when it returns: the sample is passed over, or
    its image is read, [embed_all] is applied to each of its batches and
    the concatenation is stored. *)
Lemma step_in_batches (sample : Sample) (d d' : gmap string ndarray)
    (w1 w2 : World M) :
  source_kept w1 ->
  step sample d w1 = (Ok d', w2) ->
  (no_detections env sample patches_field w0 /\ d' = d /\ w2 = w1) \/
  exists ds img rs a,
    fst (_parse_patches env sample patches_field w0) = Ok (Some ds) /\
    ds <> [] /\
    etai_read env (filepath sample) = Ok img /\
    embed_all_each self
      (map (patches_of env img force_square alpha) (iter_batches ds b))
      (model w1) rs (model w2) /\
    Np.concatenate rs = Ok a /\
    trace w2 = trace w1
               ++ EvRead (filepath sample)
                  :: map EvEmbedAll
                       (map (patches_of env img force_square alpha)
                            (iter_batches ds b))
                  ++ (if truthy embeddings_field
                      then [EvSave (sample_id sample)] else []) /\
    d' = (if truthy embeddings_field then d
          else <[sample_id sample := a]> d) /\
    fields w2 = (if truthy embeddings_field
                 then <[(sample_id sample, field_key embeddings_field)
                        := VArray a]> (fields w1)
                 else fields w1).
Proof.
  intros Hsame. unfold patch_embeddings_step. unfold bind at 1.
  pose proof (parse_patches_world env sample patches_field w1) as Hw.
  pose proof (parse_patches_fields env sample patches_field w0 w1
                (Hsame (sample_id sample))) as Hp.
  destruct (_parse_patches env sample patches_field w1) as [rp wp].
  cbn [fst snd] in Hw, Hp. subst wp.
  destruct rp as [[[|d1 ds]|]|e]; try discriminate.
  - intros [= <- <-]. left. split; [now right|split; reflexivity].
  - unfold bind at 1. unfold read_image, bind, emit, lift. cbn [fst snd].
    destruct (etai_read env (filepath sample)) as [img|e] eqn:Er;
      [|discriminate].
    match goal with
    | |- context [_embed_patches_batch self env img ?l force_square alpha b
                    ?w] =>
        destruct (_embed_patches_batch self env img l force_square alpha b w)
          as [[a|e] w3] eqn:Eb
    end; [|discriminate].
    apply embed_patches_batch_exact in Eb as (rs & Hrs & Hc & Ht & Hf).
    cbn [model trace fields] in Hrs, Ht, Hf.
    intros Hm. right. exists (d1 :: ds), img, rs, a.
    split; [now symmetry|]. split; [discriminate|]. split; [reflexivity|].
    destruct (truthy embeddings_field);
      unfold bind, sample_setitem, sample_save, emit, ret in Hm;
      injection Hm as <- <-; cbn [model trace fields];
      rewrite Ht, ?Hf, <- ?app_assoc; cbn [app];
      repeat split; try assumption; try reflexivity.
    now rewrite app_nil_r.
  - intros [= <- <-]. left. split; [now left|split; reflexivity].
Qed.

Lemma source_kept_after (sample : Sample) (a : ndarray) (w1 w2 : World M) :
  source_kept w1 ->
  fields w2 = (if truthy embeddings_field
               then <[(sample_id sample, field_key embeddings_field)
                      := VArray a]> (fields w1)
               else fields w1) ->
  source_kept w2.
Proof.
  intros Hsame Hf i. rewrite Hf. unfold write_mode in Hkey.
  destruct (truthy embeddings_field); [|apply Hsame].
  rewrite lookup_insert_ne; [apply Hsame|]. congruence.
Qed.

(** The loop, when it returns. *)
Lemma loop_in_batches (l : list Sample) (d d' : gmap string ndarray)
    (w1 w2 : World M) :
  source_kept w1 ->
  for_acc step l d w1 = (Ok d', w2) ->
  exists t out,
    trace w2 = trace w1 ++ t /\
    embed_calls t =
      concat (map (batch_calls env patches_field force_square alpha b w0) l)
    /\
    embedded_in_batches self env patches_field force_square alpha b w0 l
      (model w1) out (model w2) /\
    d' = (if truthy embeddings_field then d else entries_set out d) /\
    fields w2 = (if truthy embeddings_field
                 then arrays_stored (field_key embeddings_field) out
                        (fields w1)
                 else fields w1).
Proof.
  revert d w1. induction l as [|s l IH]; intros d w1 Hsame; cbn [for_acc].
  - intros [= <- <-]. exists [], []. rewrite app_nil_r.
    repeat split; [constructor|now destruct (truthy embeddings_field)
                  |now destruct (truthy embeddings_field)].
  - unfold bind at 1.
    destruct (step s d w1) as [[d1|e] w3] eqn:Es; [|discriminate].
    intros Hloop.
    destruct (step_in_batches _ _ _ _ _ Hsame Es)
      as [(Hno & -> & ->)
         |(ds & img & rs & a & Hp & Hne & Hr & Hrs & Hc & Ht & Hd & Hf)].
    + destruct (IH _ _ Hsame Hloop) as (t & out & Ht & Hcalls & Hrun & Hd & Hf).
      exists t, out. split; [exact Ht|]. split.
      { cbn [map concat]. now rewrite (batch_calls_none s Hno). }
      split; [now apply embedded_skip|]. split; assumption.
    + pose proof (source_kept_after s a w1 w3 Hsame Hf) as Hsame3.
      destruct (IH _ _ Hsame3 Hloop)
        as (t & out & Ht2 & Hcalls & Hrun & Hd2 & Hf2).
      eexists. exists ((sample_id s, a) :: out).
      split; [rewrite Ht2, Ht, <- app_assoc; reflexivity|].
      split.
      { cbn [map concat]. rewrite (batch_calls_some s ds img Hp Hr).
        rewrite embed_calls_app, Hcalls. f_equal.
        change (EvRead (filepath s) :: ?x) with ([EvRead (filepath s)] ++ x).
        rewrite !embed_calls_app, embed_calls_batches. cbn.
        destruct (truthy embeddings_field); cbn; now rewrite app_nil_r. }
      split; [eapply embedded_turn; eassumption|].
      rewrite Hd2, Hf2, Hd, Hf. cbn [entries_set arrays_stored fold_left].
      now destruct (truthy embeddings_field).
Qed.

(** a negotiation that returns a batch size leaves the world as it was *)
Lemma parse_batch_size_kept (batch_size : option Z) (w : World M) :
  fst (_parse_batch_size self env batch_size w) = Ok (Some b) ->
  _parse_batch_size self env batch_size w = (Ok (Some b), w).
Proof.
  unfold _parse_batch_size.
  destruct (match batch_size with Some n => Some n | None => _ end)
    as [n|]; [|discriminate].
  destruct (1 <? n); [|now intros [= ->]].
  unfold bind. rewrite on_model_pure.
  destruct (ragged_batches self (model w)) as [[|]|e]; cbn;
    [discriminate|now intros [= ->]|discriminate].
Qed.

End WholeRun.

(** C7: when [compute_patch_embeddings] runs with the negotiated batch
    size [b], at least one, and stores embeddings in another field than
    the patches.  On every run, returning or raising, every call of
    [embed_all] is given patches cut out of the image of one sample, those
    of one batch of the detections of that sample.  The detections of a
    sample are cut, in order, into contiguous batches of at most [b]
    patches, all full but the last.  What [_embed_patches_batch] returns
    is the concatenation, in order, of what [embed_all] returned for the
    batches.  And on a run that returns: the calls made to the model are
    exactly one call of [embed_all] for each batch of each sample, sample
    after sample and batch after batch, with no call of [embed]; and what
    is stored for each sample that has detections, in the mapping
    returned or in [embeddings_field], is the concatenation, in order, of
    what [embed_all] returned for the batches of that sample. *)
Theorem patch_batches_stay_within_sample (samples : SampleCollection)
    (patches_field : string) (embeddings_field : option string)
    (batch_size : option Z) (force_square : bool) (alpha : option Q)
    (w : World M) (b : Z) :
  isinstance_TorchModelMixin self = false ->
  fst (_parse_batch_size self env batch_size w) = Ok (Some b) ->
  1 <= b ->
  write_mode embeddings_field <> Some patches_field ->
  (forall r w',
     compute_patch_embeddings self env samples patches_field embeddings_field
       batch_size force_square alpha w = (r, w') ->
     exists t, trace w' = trace w ++ t /\
               Forall (single_sample_batch env samples patches_field
                         force_square alpha b w) t)
  /\ (forall ds : list Detection, partitions b ds (iter_batches ds b))
  /\ (forall img ds a w1 w2,
        _embed_patches_batch self env img ds force_square alpha b w1
          = (Ok a, w2) ->
        exists rs,
          embed_all_each self
            (map (patches_of env img force_square alpha) (iter_batches ds b))
            (model w1) rs (model w2) /\
          Np.concatenate rs = Ok a /\
          trace w2 = trace w1
                     ++ map EvEmbedAll
                          (map (patches_of env img force_square alpha)
                               (iter_batches ds b)))
  /\ (forall r w',
        compute_patch_embeddings self env samples patches_field
          embeddings_field batch_size force_square alpha w = (Ok r, w') ->
        ran_in_batches self env samples patches_field embeddings_field
          force_square alpha b w r w').
Proof.
  intros Hroute Hb Hb1 Hkey.
  split; [|split; [|split]].
  2:{ intros ds. now apply iter_batches_partitions. }
  2:{ intros img ds a w1 w2. apply embed_patches_batch_result. }
  2:{ intros r w'. unfold compute_patch_embeddings. rewrite Hroute.
      destruct (negb (bool_decide (media_type samples = IMAGE)));
        [discriminate|].
      unfold bind at 1.
      pose proof (check_embeddings_model_world self w) as Hc.
      destruct (check_embeddings_model self w) as [[[]|e] wc];
        [|discriminate].
      simpl in Hc. subst wc.
      unfold bind at 1. unfold lift at 1.
      destruct (validate_collection_label_fields env (schema samples)
                  patches_field allowed_types) as [[]|e]; [|discriminate].
      unfold bind at 1.
      rewrite (parse_batch_size_kept b batch_size w Hb).
      unfold bind, with_model.
      match goal with
      | |- context [for_acc ?body ?l ∅ ?w1] =>
          destruct (for_acc body l ∅ w1) as [[d|e] w2] eqn:El
      end; [|discriminate].
      apply (loop_in_batches patches_field embeddings_field force_square
               alpha b w Hkey) in El
        as (t & out & Ht & Hcalls & Hrun & Hd & Hf); [|reflexivity].
      cbn [model trace fields] in Ht, Hrun, Hf.
      unfold ret. intros [= <- <-].
      exists (EvEnter :: t ++ [EvExit]), out, (model w2).
      cbn [model trace fields].
      split; [rewrite Ht, <- !app_assoc; reflexivity|].
      split.
      { change (EvEnter :: t ++ [EvExit]) with ([EvEnter] ++ t ++ [EvExit]).
        rewrite !embed_calls_app, Hcalls. cbn. apply app_nil_r. }
      split; [exact Hrun|]. split; [reflexivity|].
      split; [rewrite Hd; now destruct (truthy embeddings_field)|exact Hf]. }
  intros r w' Hm.
  set (P := single_sample_batch env samples patches_field force_square alpha b w).
  assert (P_other : forall ev, (forall args, ev <> EvEmbedAll args) -> P ev).
  { intros ev. apply single_sample_batch_other. }
  enough (exists ws, Wrote (write_mode embeddings_field) P w w' ws) as [ws HW].
  { destruct (wrote_trace _ _ _ _ _ HW) as (t & Ht & HP & _). eauto. }
  revert Hm. unfold compute_patch_embeddings. rewrite Hroute.
  destruct (negb (bool_decide (media_type samples = IMAGE))).
  { intros [= <- <-]. exists []. apply Wrote_refl. }
  unfold bind at 1.
  pose proof (check_embeddings_model_world self w) as Hc.
  destruct (check_embeddings_model self w) as [[[]|e] wc]; simpl in Hc; subst wc.
  2:{ intros [= <- <-]. exists []. apply Wrote_refl. }
  unfold bind at 1. unfold lift at 1.
  destruct (validate_collection_label_fields env (schema samples)
              patches_field allowed_types) as [[]|e].
  2:{ intros [= <- <-]. exists []. apply Wrote_refl. }
  unfold bind at 1.
  destruct (_parse_batch_size self env batch_size w) as [rb wp] eqn:Ep.
  simpl in Hb. subst rb.
  destruct (ww_parse_batch_size self env embeddings_field P w P_other
              batch_size w _ _ (reached_refl _ _ _) Ep) as (ws0 & Hs0 & Hwp).
  apply sublist_nil_r in Hs0. subst ws0.
  intros Hm.
  assert (Hturn : forall sample, sample ∈ sample_list samples ->
            turn_allowed env (write_mode embeddings_field) P w patches_field
              (Some b) force_square alpha sample).
  { intros sample Hin w1 ds img b' chunk [ws1 Hr1] Hparse Himg [= <-] Hchunk.
    exists sample, ds, img, chunk. repeat split; try assumption.
    rewrite <- Hparse. symmetry.
    apply parse_patches_fields.
    apply (wrote_frame _ _ _ _ _ Hr1). left. assumption. }
  pose proof (ww_bind_last _ _ w _ _ _
                (ww_patch_loop self env embeddings_field P w P_other
                   patches_field (Some b) force_square alpha
                   (sample_list samples) Hturn)
                (fun d => ww_ret _ P w
                            (if truthy embeddings_field then None else Some d)))
    as Hloop.
  destruct (Hloop wp r w' (reached_step _ _ _ _ _ _ (reached_refl _ _ _) Hwp) Hm)
    as (ws & _ & HW).
  exists ([] ++ ws). eapply Wrote_trans; eassumption.
Qed.

End PatchBatches.

Lemma patch_batches_stay_within_sample_witness :
  let run := compute_patch_embeddings Demo.batched_model (Demo.env None)
               (Demo.images [Demo.s1; Demo.s2; Demo.s3]) "ground_truth"
               (Some "emb") (Some 2) false None Demo.world1 in
  (isinstance_TorchModelMixin Demo.batched_model = false /\
   fst (_parse_batch_size Demo.batched_model (Demo.env None) (Some 2)
          Demo.world1) = Ok (Some 2) /\
   1 <= 2 /\
   write_mode (Some "emb") <> Some "ground_truth" /\
   run = (Ok None, snd run)) /\
  ran_in_batches Demo.batched_model (Demo.env None)
    (Demo.images [Demo.s1; Demo.s2; Demo.s3]) "ground_truth" (Some "emb")
    false None 2 Demo.world1 None (snd run).
Proof.
  intros run.
  assert (Hk : write_mode (Some "emb") <> Some "ground_truth")
    by (vm_compute; discriminate).
  assert (Hb : 1 <= 2) by lia.
  assert (E : run = (Ok None, snd run)) by (vm_compute; reflexivity).
  split; [repeat split; try reflexivity; assumption|].
  exact (proj2 (proj2 (proj2
           (patch_batches_stay_within_sample Demo.batched_model
              (Demo.env None) (Demo.images [Demo.s1; Demo.s2; Demo.s3])
              "ground_truth" (Some "emb") (Some 2) false None Demo.world1 2
              eq_refl eq_refl Hb Hk))) None (snd run) E).
Defined.

(** ** The VOC export *)

#[local] Arguments Voc.export_step : simpl never.

Section VocExport.

Variable fs : Voc.FsEnv.
Variable data_dir labels_dir : string.

Lemma str_take_drop (n : nat) (s : string) :
  String.append (Voc.str_take n s) (Voc.str_drop n s) = s.
Proof.
  revert s. induction n as [|n IH]; intros [|c s]; try reflexivity.
  change (String c (String.append (Voc.str_take n s) (Voc.str_drop n s))
          = String c s).
  f_equal. apply IH.
Qed.

Lemma append_empty (s : string) : String.append s EmptyString = s.
Proof.
  induction s as [|c s IH]; [reflexivity|].
  change (String c (String.append s EmptyString) = String c s).
  f_equal. exact IH.
Qed.

(** [os.path.splitext] cuts its argument in two *)
Lemma splitext_append (p : string) :
  String.append (fst (Voc.splitext p)) (snd (Voc.splitext p)) = p.
Proof.
  unfold Voc.splitext.
  destruct (Voc.rfind "/" p <? Voc.rfind "." p); simpl.
  - destruct (Voc.all_dots _); simpl.
    + apply append_empty.
    + apply str_take_drop.
  - apply append_empty.
Qed.

Lemma original_name (p : string) :
  String.append (name_of p) (snd (Voc.splitext (Voc.basename p)))
  = Voc.basename p.
Proof. apply splitext_append. Qed.

Local Abbreviation step := (Voc.export_step fs data_dir labels_dir).

(** The turn of a path whose name was not met before keeps the original
    name. *)
Lemma export_step_fresh (p : string) (label : list Detection)
    (counts : gmap string Z) (t : list Voc.FsEvent) :
  counts !! name_of p = None ->
  step (p, label) counts t =
    match Voc.copy_ok fs p (Voc.join data_dir (Voc.basename p)) with
    | Raise e => (Raise e, t)
    | Ok _ =>
        match Voc.read_ok fs p with
        | Raise e => (Raise e, t ++ take 1 (original_events data_dir labels_dir p))
        | Ok _ =>
            match Voc.write_ok fs (Voc.join labels_dir
                                     (String.append (name_of p) ".xml")) with
            | Raise e =>
                (Raise e, t ++ take 2 (original_events data_dir labels_dir p))
            | Ok _ => (Ok (<[name_of p := 1]> counts),
                       t ++ original_events data_dir labels_dir p)
            end
        end
    end.
Proof.
  intros Hfresh. unfold Voc.export_step.
  pose proof (original_name p) as Hname. unfold original_events, name_of in *.
  destruct (Voc.splitext (Voc.basename p)) as [name ext]. simpl in *.
  rewrite lookup_insert_eq, Hfresh. simpl.
  unfold bind, ret, lift, Voc.copy_file, Voc.read, Voc.write_annotation,
    Voc.log, bind, lift, ret. rewrite Hname.
  destruct (Voc.copy_ok fs p _) as [[]|e]; [|reflexivity].
  destruct (Voc.read_ok fs p) as [img|e]; [|reflexivity].
  destruct (Voc.write_ok fs _) as [[]|e]; simpl;
    rewrite <- ?app_assoc; reflexivity.
Qed.

(** The turn of a path whose name was met before raises in the renaming
    branch, before anything is copied. *)
Lemma export_step_seen (p : string) (label : list Detection)
    (counts : gmap string Z) (t : list Voc.FsEvent) (k : Z) :
  counts !! name_of p = Some k -> 1 <= k ->
  step (p, label) counts t =
    (Raise (TypeError "can only concatenate str (not int) to str"), t).
Proof.
  intros Hseen Hk. unfold Voc.export_step. unfold name_of in *.
  destruct (Voc.splitext (Voc.basename p)) as [name ext]. simpl in *.
  rewrite lookup_insert_eq, Hseen. simpl.
  destruct (1 <? k + 1) eqn:E; [reflexivity|].
  apply Z.ltb_ge in E. lia.
Qed.

Lemma counted_insert (counts : gmap string Z) (n : string) :
  counted counts -> counted (<[n := 1]> counts).
Proof.
  intros H m k. destruct (decide (n = m)) as [->|Hne].
  - rewrite lookup_insert_eq. intros [= <-]. lia.
  - rewrite lookup_insert_ne by assumption. apply H.
Qed.

(** A turn, whatever the counts, does part of what a turn that keeps
    the original name does, and all of it when it returns. *)
Lemma export_step_events (p : string) (label : list Detection)
    (counts : gmap string Z) (t t' : list Voc.FsEvent)
    (r : result (gmap string Z)) :
  counted counts ->
  step (p, label) counts t = (r, t') ->
  exists tn, t' = t ++ tn /\
             sublist tn (original_events data_dir labels_dir p) /\
             (forall c, r = Ok c ->
                        counts !! name_of p = None /\
                        c = <[name_of p := 1]> counts /\
                        tn = original_events data_dir labels_dir p).
Proof.
  intros Hc. destruct (counts !! name_of p) as [k|] eqn:E.
  - rewrite (export_step_seen _ _ _ _ k E (Hc _ _ E)). intros [= <- <-].
    exists []. rewrite app_nil_r. split; [reflexivity|].
    split; [apply sublist_nil_l|discriminate].
  - rewrite (export_step_fresh _ _ _ _ E).
    destruct (Voc.copy_ok fs p _) as [[]|e].
    2:{ intros [= <- <-]. exists []. rewrite app_nil_r.
        split; [reflexivity|]. split; [apply sublist_nil_l|discriminate]. }
    destruct (Voc.read_ok fs p) as [img|e].
    2:{ intros [= <- <-]. eexists. split; [reflexivity|].
        split; [|discriminate].
        exact (sublist_take (original_events data_dir labels_dir p) 1). }
    destruct (Voc.write_ok fs _) as [[]|e]; intros [= <- <-];
      eexists; (split; [reflexivity|]).
    + split; [reflexivity|]. intros c [= <-]. repeat split.
    + split; [|discriminate].
      exact (sublist_take (original_events data_dir labels_dir p) 2).
Qed.

Lemma export_loop_events (items : list (string * list Detection))
    (counts : gmap string Z) (t t' : list Voc.FsEvent)
    (r : result (gmap string Z)) :
  counted counts ->
  for_acc step items counts t = (r, t') ->
  exists tn, t' = t ++ tn /\
             sublist tn (concat (map (original_events data_dir labels_dir)
                                     (map fst items))).
Proof.
  revert counts t. induction items as [|[p label] items IH];
    intros counts t Hc; simpl.
  - intros [= <- <-]. exists []. rewrite app_nil_r. split; constructor.
  - unfold bind at 1.
    destruct (step (p, label) counts t) as [[c|e] t1] eqn:E.
    + destruct (export_step_events _ _ _ _ _ _ Hc E) as (tn & -> & Hcp & Hok).
      destruct (Hok c eq_refl) as (_ & -> & ->).
      intros Hm.
      apply IH in Hm as (tn2 & -> & Hs); [|now apply counted_insert].
      exists (original_events data_dir labels_dir p ++ tn2).
      rewrite app_assoc. split; [reflexivity|].
      exact (sublist_app _ (original_events data_dir labels_dir p) _ _
               (reflexivity _) Hs).
    + destruct (export_step_events _ _ _ _ _ _ Hc E) as (tn & -> & Hcp & _).
      intros [= <- <-]. exists tn. split; [reflexivity|].
      exact (sublist_inserts_r _ _ (original_events data_dir labels_dir p) Hcp).
Qed.

(** With names never met before and all different, and collaborators that
    do not fail, the loop copies every image under its original name. *)
Lemma export_loop_distinct (items : list (string * list Detection))
    (counts : gmap string Z) (t : list Voc.FsEvent) :
  NoDup (map name_of (map fst items)) ->
  (forall p, p ∈ map fst items -> counts !! name_of p = None) ->
  externals_ok fs data_dir labels_dir (map fst items) ->
  exists c,
    for_acc step items counts t =
      (Ok c, t ++ concat (map (original_events data_dir labels_dir)
                              (map fst items))) /\
    (forall n, c !! n = if decide (n ∈ map name_of (map fst items))
                        then Some 1 else counts !! n).
Proof.
  revert counts t. induction items as [|[p label] items IH];
    intros counts t Hnd Hfresh Hok; simpl.
  - exists counts. rewrite app_nil_r. split; [reflexivity|].
    intros n. reflexivity.
  - simpl in Hnd. apply NoDup_cons in Hnd as [Hp Hnd].
    unfold bind at 1. rewrite export_step_fresh by (apply Hfresh; left).
    destruct (Hok p ltac:(left)) as (-> & Hread & ->).
    destruct (Voc.read_ok fs p) as [img|e]; [|discriminate].
    destruct (IH (<[name_of p := 1]> counts)
                (t ++ original_events data_dir labels_dir p) Hnd)
      as (c & Hrun & Hc).
    + intros q Hq. rewrite lookup_insert_ne; [apply Hfresh; now right|].
      intros Heq. apply Hp. rewrite Heq.
      apply list_elem_of_fmap. eauto.
    + intros q Hq. apply Hok. now right.
    + exists c. rewrite Hrun, <- app_assoc. split; [reflexivity|].
      intros n. rewrite Hc.
      destruct (decide (n ∈ map name_of (map fst items))) as [H|H].
      * rewrite decide_True; [reflexivity|now right].
      * destruct (decide (n = name_of p)) as [->|Hne].
        -- rewrite lookup_insert_eq, decide_True; [reflexivity|left].
        -- rewrite lookup_insert_ne by congruence.
           rewrite decide_False; [reflexivity|].
           intros Hin. apply elem_of_cons in Hin as [?|?]; contradiction.
Qed.

Lemma export_loop_keeps (items : list (string * list Detection))
    (counts c : gmap string Z) (t t' : list Voc.FsEvent) (n : string) :
  counted counts ->
  for_acc step items counts t = (Ok c, t') ->
  is_Some (counts !! n) -> is_Some (c !! n).
Proof.
  revert counts t. induction items as [|[q lq] items IH];
    intros counts t Hc; simpl.
  - now intros [= <- <-].
  - unfold bind at 1.
    destruct (step (q, lq) counts t) as [[c2|e] t2] eqn:E; [|discriminate].
    destruct (export_step_events _ _ _ _ _ _ Hc E) as (tn & -> & _ & Hok).
    destruct (Hok c2 eq_refl) as (Hfresh & -> & ->).
    intros Hm Hn. apply (IH _ _ (counted_insert _ _ Hc) Hm).
    destruct (decide (name_of q = n)) as [<-|Hne].
    + rewrite lookup_insert_eq. eauto.
    + now rewrite lookup_insert_ne.
Qed.

(** A loop that returns met every name once. *)
Lemma export_loop_ok (items : list (string * list Detection))
    (counts c : gmap string Z) (t t' : list Voc.FsEvent) :
  counted counts ->
  for_acc step items counts t = (Ok c, t') ->
  NoDup (map name_of (map fst items)) /\
  (forall p, p ∈ map fst items -> counts !! name_of p = None) /\
  counted c /\
  (forall p, p ∈ map fst items -> is_Some (c !! name_of p)) /\
  t' = t ++ concat (map (original_events data_dir labels_dir) (map fst items)).
Proof.
  revert counts t. induction items as [|[p label] items IH];
    intros counts t Hc; simpl.
  - intros [= <- <-]. rewrite app_nil_r. repeat split; try assumption.
    + constructor.
    + intros p Hp. inversion Hp.
    + intros p Hp. inversion Hp.
  - unfold bind at 1.
    destruct (step (p, label) counts t) as [[c1|e] t1] eqn:E; [|discriminate].
    destruct (export_step_events _ _ _ _ _ _ Hc E) as (tn & -> & _ & Hok).
    destruct (Hok c1 eq_refl) as (Hfresh & -> & ->).
    intros Hm.
    destruct (IH _ _ (counted_insert _ _ Hc) Hm)
      as (Hnd & Hfr & Hcc & Hsome & ->).
    assert (Hnotin : name_of p ∉ map name_of (map fst items)).
    { intros Hin. apply list_elem_of_fmap in Hin as (q & Hq & Hin).
      specialize (Hfr q Hin). rewrite <- Hq, lookup_insert_eq in Hfr.
      discriminate. }
    split; [now constructor|].
    split.
    { intros q Hq. apply elem_of_cons in Hq as [->|Hq]; [assumption|].
      specialize (Hfr q Hq).
      destruct (decide (name_of p = name_of q)) as [Heq|Hne].
      - rewrite Heq, lookup_insert_eq in Hfr. discriminate.
      - now rewrite lookup_insert_ne in Hfr. }
    split; [assumption|]. split.
    { intros q Hq. apply elem_of_cons in Hq as [->|Hq]; [|now apply Hsome].
      apply (export_loop_keeps _ _ _ _ _ _ (counted_insert _ _ Hc) Hm).
      rewrite lookup_insert_eq. eauto. }
    now rewrite <- app_assoc.
Qed.

Lemma counted_empty : counted ∅.
Proof. intros n k H. rewrite lookup_empty in H. discriminate. Qed.

End VocExport.

Lemma export_unfold (fs : Voc.FsEnv) (image_paths : list string)
    (labels : list (list Detection)) (dataset_dir : string) :
  Voc.export_voc_detection_dataset fs image_paths labels dataset_dir [] =
    let data_dir := Voc.join dataset_dir "data" in
    let labels_dir := Voc.join dataset_dir "labels" in
    match for_acc (Voc.export_step fs data_dir labels_dir)
            (zip image_paths labels) ∅
            [Voc.EnsureDir data_dir; Voc.EnsureDir labels_dir] with
    | (Ok _, t) => (Ok tt, t)
    | (Raise e, t) => (Raise e, t)
    end.
Proof.
  unfold Voc.export_voc_detection_dataset, bind, Voc.ensure_dir, Voc.log, ret.
  simpl. now destruct (for_acc _ _ _ _) as [[?|?] ?].
Qed.

(** C10: [export_voc_detection_dataset] never writes under a new name.
    Whatever the inputs, what it does is part of: create the two
    directories, then for each path copy the image under its base
    filename, decode it and write its annotation under its name. When the
    names of the paths are all different and copying, decoding and writing
    do not fail, it does all of that and returns. When a name occurs a
    second time it raises; if nothing failed before, it raises the
    [TypeError] of the string-integer concatenation on reaching the second
    occurrence, having done the turns before it and nothing for the path
    itself. *)
Theorem export_never_renames (fs : Voc.FsEnv) (image_paths : list string)
    (labels : list (list Detection)) (dataset_dir : string)
    (r : result unit) (t : list Voc.FsEvent) :
  Voc.export_voc_detection_dataset fs image_paths labels dataset_dir [] = (r, t) ->
  let data_dir := Voc.join dataset_dir "data" in
  let labels_dir := Voc.join dataset_dir "labels" in
  let paths := iterated image_paths labels in
  sublist t (export_events dataset_dir paths)
  /\ (NoDup (map name_of paths) ->
      externals_ok fs data_dir labels_dir paths ->
      r = Ok tt /\ t = export_events dataset_dir paths)
  /\ (~ NoDup (map name_of paths) -> exists e, r = Raise e)
  /\ (forall l1 p l2,
        paths = l1 ++ p :: l2 ->
        NoDup (map name_of l1) ->
        name_of p ∈ map name_of l1 ->
        externals_ok fs data_dir labels_dir l1 ->
        r = Raise (TypeError "can only concatenate str (not int) to str") /\
        t = export_events dataset_dir l1).
Proof.
  rewrite export_unfold. intros Hrun data_dir labels_dir paths.
  cbv zeta in Hrun. fold data_dir labels_dir in Hrun.
  set (t0 := [Voc.EnsureDir data_dir; Voc.EnsureDir labels_dir]) in *.
  destruct (for_acc (Voc.export_step fs data_dir labels_dir)
              (zip image_paths labels) ∅ t0) as [rc t1] eqn:E.
  assert (Ht : t1 = t) by (destruct rc; congruence). subst t1.
  split; [|split; [|split]].
  - destruct (export_loop_events _ _ _ _ _ _ _ _ counted_empty E)
      as (tn & -> & Hs).
    exact (sublist_app t0 t0 _ _ (reflexivity _) Hs).
  - intros Hnd Hok.
    destruct (export_loop_distinct fs data_dir labels_dir
                (zip image_paths labels) ∅ t0 Hnd) as (c & Hc & _);
      [intros; apply lookup_empty|exact Hok|].
    rewrite Hc in E. injection E as <- <-.
    split; [congruence|reflexivity].
  - intros Hdup. destruct rc as [c|e]; [|exists e; congruence].
    exfalso. apply Hdup.
    apply (export_loop_ok _ _ _ _ _ _ _ _ counted_empty E).
  - intros l1 p l2 Hpaths Hnd Hin Hok.
    unfold paths, iterated in Hpaths.
    apply fmap_app_inv in Hpaths as (i1 & i2' & -> & Hi2 & Hitems).
    symmetry in Hi2.
    apply fmap_cons_inv in Hi2 as ([p' label] & i2 & Hp & -> & ->).
    simpl in Hp. subst p'.
    rewrite Hitems, for_acc_app in E. unfold bind in E.
    destruct (export_loop_distinct fs data_dir labels_dir i1 ∅ t0 Hnd)
      as (c & Hc & Hcounts); [intros; apply lookup_empty|exact Hok|].
    rewrite Hc in E.
    change (for_acc (Voc.export_step fs data_dir labels_dir)
              ((p, label) :: i2) c)
      with (bind (Voc.export_step fs data_dir labels_dir (p, label) c)
              (for_acc (Voc.export_step fs data_dir labels_dir) i2)) in E.
    unfold bind in E.
    rewrite (export_step_seen fs data_dir labels_dir p label c _ 1) in E.
    + injection E as <- <-. split; [congruence|reflexivity].
    + rewrite Hcounts. now rewrite decide_True.
    + lia.
Qed.

Lemma export_never_renames_witness :
  Voc.export_voc_detection_dataset Demo.fs
    ["/x/a.jpg"; "/y/b.png"; "/z/a.png"] [[]; []; []] "out" [] =
    (Raise (TypeError "can only concatenate str (not int) to str"),
     export_events "out" ["/x/a.jpg"; "/y/b.png"]) /\
  sublist (export_events "out" ["/x/a.jpg"; "/y/b.png"])
          (export_events "out"
             (iterated ["/x/a.jpg"; "/y/b.png"; "/z/a.png"] [[]; []; []])).
Proof.
  assert (H : Voc.export_voc_detection_dataset Demo.fs
                ["/x/a.jpg"; "/y/b.png"; "/z/a.png"] [[]; []; []] "out" [] =
              (Raise (TypeError "can only concatenate str (not int) to str"),
               export_events "out" ["/x/a.jpg"; "/y/b.png"])).
  { vm_compute. reflexivity. }
  split; [exact H|].
  exact (proj1 (export_never_renames Demo.fs _ _ _ _ _ H)).
Defined.

(** ** The batched path against the single-item path *)

Section SingleAndBatch.

Context {M : Type}.
Variable self : ModelClass M.
Variable env : Env M.

Lemma getitem0_smaller (e e0 : ndarray) :
  getitem0 e = Ok e0 -> (weight e0 < weight e)%nat.
Proof.
  destruct e as [v|[|r rows]]; try discriminate.
  intros [= ->]. simpl. lia.
Qed.

(** An array is never its own first entry. *)
Lemma getitem0_neq (e e0 : ndarray) : getitem0 e = Ok e0 -> e0 <> e.
Proof.
  intros H ->. apply getitem0_smaller in H. lia.
Qed.

(** C1, where the code departs from it: for a model that keeps the
    default [embed_all], a collection of one image sample and field mode,
    whenever the single-item path returns, it has written [e[0]] for the
    embedding [e] of the sample, while the batched path with batch size
    one writes [e] itself, which is another array: the default
    [embed_all] stacks, along a new axis, embeddings that already carry a
    batch axis, and the batched path does not take it off. *)
Theorem default_model_batch_differs (sample : Sample) (field : string)
    (w : World M) :
  keeps_defaults self ->
  truthy (Some field) = true ->
  fst (_compute_image_embeddings_single self env [sample] (Some field) w)
    = Ok None ->
  exists e e0,
    fields (snd (_compute_image_embeddings_single self env [sample]
                   (Some field) w)) !! (sample_id sample, field)
      = Some (VArray e0) /\
    fields (snd (_compute_image_embeddings_batch self env [sample]
                   (Some field) 1 w)) !! (sample_id sample, field)
      = Some (VArray e) /\
    getitem0 e = Ok e0 /\
    e0 <> e.
Proof.
  intros [_ Hall] Ht.
  unfold _compute_image_embeddings_single, _compute_image_embeddings_batch.
  rewrite Ht. unfold iter_batches. simpl.
  unfold with_model, bind, read_image, call_embed, call_embed_all, emit, lift,
    on_model, ret, for_each, sample_setitem, sample_save. simpl.
  unfold bind, emit, lift, ret. simpl.
  destruct (etai_read env (filepath sample)) as [img|x]; [|discriminate].
  simpl. rewrite Hall. unfold EmbeddingsMixin_embed_all. simpl.
  unfold bind, ret, lift. simpl.
  destruct (embed self (ImageArray img) (enter self (model w)))
    as [[e|x] m1]; [|discriminate].
  simpl. destruct (getitem0 e) as [e0|x] eqn:E0; [|discriminate].
  simpl. intros _. exists e, e0.
  rewrite !lookup_insert_eq.
  split; [reflexivity|]. split; [reflexivity|]. split; [assumption|].
  now apply getitem0_neq.
Qed.

(** On an empty collection, with no [embeddings_field], each executor
    raises the [ValueError] of [np.concatenate] on an empty list instead
    of returning an array with no row. *)
Lemma executors_raise_on_empty (b : Z) (w : World M) :
  let e := ValueError "need at least one array to concatenate" in
  fst (_compute_image_embeddings_single self env [] None w) = Raise e /\
  fst (_compute_image_embeddings_batch self env [] None b w) = Raise e /\
  fst (_compute_video_embeddings self env [] None w) = Raise e.
Proof.
  repeat split.
  unfold _compute_image_embeddings_batch, iter_batches.
  now destruct (b <? 1).
Qed.

(** C3, where the code departs from it: [compute_embeddings] with
    [embeddings_field=None] on an empty collection raises the [ValueError]
    of [np.concatenate] on an empty list; it returns no array. *)
Theorem compute_embeddings_empty_raises (samples : SampleCollection)
    (batch_size : option Z) (w : World M) :
  isinstance_EmbeddingsMixin self = true ->
  has_embeddings self (model w) = Ok true ->
  isinstance_TorchModelMixin self = false ->
  is_ok (fst (_parse_batch_size self env batch_size w)) = true ->
  sample_list samples = [] ->
  fst (compute_embeddings self env samples None batch_size w)
    = Raise (ValueError "need at least one array to concatenate").
Proof.
  intros Hi Hh Ht Hb Hl. unfold compute_embeddings. rewrite Hl, Ht.
  unfold bind at 1. rewrite (check_embeddings_model_ok self w Hi Hh).
  destruct (bool_decide (media_type samples = VIDEO)).
  - apply executors_raise_on_empty. exact 1.
  - unfold bind.
    destruct (_parse_batch_size self env batch_size w) as [[[b|]|x] wp];
      [| |discriminate].
    + apply executors_raise_on_empty.
    + apply executors_raise_on_empty. exact 1.
Qed.

(** *** Where the two paths agree *)

Section RowConsistent.

Variable f : Media -> ndarray.
Variable first : ascii.
Variable rest : string.
Hypothesis consistent : row_consistent self f.

(** a field name that is not empty *)
Local Abbreviation field := (String first rest).

Lemma single_loop_fields (l : list Sample) (acc : list ndarray) (w : World M) :
  (forall s, s ∈ l -> is_ok (etai_read env (filepath s)) = true) ->
  exists w',
    for_acc (fun sample embeddings =>
        img <- read_image env (filepath sample) ;;
        embedding <- call_embed self (ImageArray img) ;;
        if truthy (Some field) then
          e0 <- lift (getitem0 embedding) ;;
          sample_setitem sample (field_key (Some field)) (VArray e0) ;;;
          sample_save sample ;;;
          ret embeddings
        else ret (embeddings ++ [embedding])) l acc w = (Ok acc, w') /\
    fields w' = rows_written env f field l (fields w).
Proof.
  revert w. induction l as [|s l IH]; intros w Hread; cbn [for_acc].
  - exists w. split; reflexivity.
  - cbn [truthy].
    unfold bind at 1. unfold bind at 1.
    unfold read_image, call_embed, bind, emit, lift, on_model, ret,
      sample_setitem, sample_save. simpl.
    pose proof (Hread s ltac:(left)) as Hs.
    unfold decoded.
    destruct (etai_read env (filepath s)) as [img|x]; [|discriminate].
    pose proof (proj1 consistent (ImageArray img) (model w)) as He.
    destruct (embed self (ImageArray img) (model w)) as [r m1].
    simpl in He. subst r. simpl.
    unfold emit. simpl.
    match goal with
    | |- context [for_acc ?body l acc ?w1] =>
        destruct (IH w1 ltac:(intros; apply Hread; now right)) as (w' & Hrun & Hf)
    end.
    exists w'. split; [exact Hrun|]. exact Hf.
Qed.

Lemma read_all (c : list Sample) (w : World M) :
  (forall s, s ∈ c -> is_ok (etai_read env (filepath s)) = true) ->
  exists w',
    map_st (fun sample => read_image env (filepath sample)) c w
      = (Ok (map (decoded env) c), w') /\
    fields w' = fields w.
Proof.
  revert w. induction c as [|s c IH]; intros w Hread; simpl.
  - exists w. split; reflexivity.
  - unfold bind at 1. unfold read_image, bind, emit, lift. simpl.
    pose proof (Hread s ltac:(left)) as Hs. unfold decoded at 1.
    destruct (etai_read env (filepath s)) as [img|x]; [|discriminate].
    match goal with
    | |- context [map_st ?g c ?w1] =>
        destruct (IH w1 ltac:(intros; apply Hread; now right)) as (w' & Hrun & Hf)
    end.
    unfold read_image, bind, emit, lift in Hrun. unfold bind. rewrite Hrun.
    exists w'. split; [reflexivity|exact Hf].
Qed.

Lemma write_rows (c : list Sample) (w : World M) :
  exists w',
    for_each (fun '(sample, embedding) =>
        sample_setitem sample (field_key (Some field)) (VArray embedding) ;;;
        sample_save sample)
      (zip c (map f (map ImageArray (map (decoded env) c)))) w = (Ok tt, w') /\
    fields w' = rows_written env f field c (fields w).
Proof.
  unfold for_each. revert w. induction c as [|s c IH]; intros w; simpl.
  - exists w. split; reflexivity.
  - unfold bind at 1. unfold sample_setitem, sample_save, bind, emit. simpl.
    match goal with
    | |- context [for_acc ?body ?l tt ?w1] =>
        destruct (IH w1) as (w' & Hrun & Hf)
    end.
    exists w'. split; [exact Hrun|exact Hf].
Qed.

Lemma batch_loop_fields (batches : list (list Sample)) (acc : list ndarray)
    (w : World M) :
  (forall s, s ∈ concat batches -> is_ok (etai_read env (filepath s)) = true) ->
  exists w',
    for_acc (fun sample_batch embeddings =>
        imgs <- map_st (fun sample => read_image env (filepath sample))
                  sample_batch ;;
        embeddings_batch <- call_embed_all self (map ImageArray imgs) ;;
        if truthy (Some field) then
          rows <- lift (iter_rows embeddings_batch) ;;
          for_each (fun '(sample, embedding) =>
              sample_setitem sample (field_key (Some field)) (VArray embedding) ;;;
              sample_save sample) (zip sample_batch rows) ;;;
          ret embeddings
        else ret (embeddings ++ [embeddings_batch])) batches acc w
      = (Ok acc, w') /\
    fields w' = rows_written env f field (concat batches) (fields w).
Proof.
  revert w. induction batches as [|c batches IH]; intros w Hread;
    cbn [for_acc].
  - exists w. split; reflexivity.
  - cbn [truthy]. unfold bind at 1. unfold bind at 1.
    destruct (read_all c w) as (w1 & Hr & Hf1).
    { intros s Hs. apply Hread. simpl. apply elem_of_app. now left. }
    rewrite Hr.
    unfold call_embed_all, bind, emit, on_model, lift, ret. simpl.
    pose proof (proj2 consistent (map ImageArray (map (decoded env) c))
                  (model w1)) as He.
    destruct (embed_all self (map ImageArray (map (decoded env) c)) (model w1))
      as [r m1].
    simpl in He. subst r. simpl.
    match goal with
    | |- context [for_each ?body ?l ?w2] =>
        destruct (write_rows c w2) as (w3 & Hw & Hf3);
        assert (Hw' : for_each body l w2 = (Ok tt, w3)) by exact Hw;
        rewrite Hw'
    end.
    simpl in Hf3.
    destruct (IH w3) as (w' & Hrun & Hf).
    { intros s Hs. apply Hread. simpl. apply elem_of_app. now right. }
    exists w'. split; [exact Hrun|].
    rewrite Hf, Hf3, Hf1. unfold rows_written. now rewrite fold_left_app.
Qed.

(** For a model whose [embed_all] returns, for every item, the row that
    [embed] returns under its batch axis, and images that all decode, the
    single-item path and the batched path, whatever the batch size from
    one up, both return and leave the same fields behind: the row of each
    sample under [embeddings_field]. *)
Lemma row_consistent_paths_agree (l : list Sample) (b : Z) (w : World M) :
  (forall s, s ∈ l -> is_ok (etai_read env (filepath s)) = true) ->
  1 <= b ->
  let single := _compute_image_embeddings_single self env l (Some field) w in
  let batch := _compute_image_embeddings_batch self env l (Some field) b w in
  fst single = Ok None /\ fst batch = Ok None /\
  fields (snd single) = rows_written env f field l (fields w) /\
  fields (snd batch) = fields (snd single).
Proof.
  intros Hread Hb single batch. subst single batch.
  unfold _compute_image_embeddings_single, _compute_image_embeddings_batch.
  cbv zeta. unfold bind, with_model. cbv beta.
  match goal with
  | |- context [for_acc ?body l [] ?w1] =>
      destruct (single_loop_fields l [] w1 Hread) as (ws & Hs & Hfs);
      assert (Hs' : for_acc body l [] w1 = (Ok [], ws)) by exact Hs;
      rewrite Hs'
  end.
  assert (Hc : concat (iter_batches l b) = l)
    by apply (iter_batches_partitions l b Hb).
  match goal with
  | |- context [for_acc ?body (iter_batches l b) [] ?w1] =>
      destruct (batch_loop_fields (iter_batches l b) [] w1) as (wb & Hbt & Hfb);
      [now rewrite Hc|];
      assert (Hbt' : for_acc body (iter_batches l b) [] w1 = (Ok [], wb))
        by exact Hbt;
      rewrite Hbt'
  end.
  simpl. rewrite Hfs, Hfb, Hc. simpl.
  repeat split.
Qed.

End RowConsistent.

(** The same for any [embeddings_field] that counts as given. *)
Lemma row_consistent_paths_agree_field (f : Media -> ndarray) (field : string)
    (l : list Sample) (b : Z) (w : World M) :
  row_consistent self f ->
  truthy (Some field) = true ->
  (forall s, s ∈ l -> is_ok (etai_read env (filepath s)) = true) ->
  1 <= b ->
  fields (snd (_compute_image_embeddings_batch self env l (Some field) b w)) =
  fields (snd (_compute_image_embeddings_single self env l (Some field) w)).
Proof.
  intros Hc Ht Hread Hb. destruct field as [|c rest]; [discriminate|].
  apply (row_consistent_paths_agree f c rest Hc l b w Hread Hb).
Qed.

End SingleAndBatch.

Lemma default_model_batch_differs_witness :
  (keeps_defaults Demo.default_model /\
   truthy (Some "emb") = true /\
   fst (_compute_image_embeddings_single Demo.default_model (Demo.env None)
          [Demo.s1] (Some "emb") Demo.world0) = Ok None) /\
  exists e e0,
    fields (snd (_compute_image_embeddings_single Demo.default_model
                   (Demo.env None) [Demo.s1] (Some "emb") Demo.world0))
      !! ("s1", "emb") = Some (VArray e0) /\
    fields (snd (_compute_image_embeddings_batch Demo.default_model
                   (Demo.env None) [Demo.s1] (Some "emb") 1 Demo.world0))
      !! ("s1", "emb") = Some (VArray e) /\
    getitem0 e = Ok e0 /\ e0 <> e.
Proof.
  assert (Hk : keeps_defaults Demo.default_model)
    by (split; intros; reflexivity).
  split; [repeat split; try reflexivity; exact Hk|].
  exact (default_model_batch_differs Demo.default_model (Demo.env None)
           Demo.s1 "emb" Demo.world0 Hk eq_refl eq_refl).
Defined.

(** At a concrete sample: the single-item path stores the vector
    [[4, 5]], the batched path the 1 x 2 array [[[4, 5]]]; in memory the
    single-item path returns a 1 x 2 array, the batched path a 1 x 1 x 2
    array. *)
Example default_model_batch_differs_s1 :
  let run := compute_embeddings Demo.default_model (Demo.env None)
               (Demo.images [Demo.s1]) in
  fields (snd (run (Some "emb") None Demo.world0)) !! ("s1", "emb")
    = Some (VArray (NDArray [Scalar 4; Scalar 5])) /\
  fields (snd (run (Some "emb") (Some 1) Demo.world0)) !! ("s1", "emb")
    = Some (VArray (NDArray [NDArray [Scalar 4; Scalar 5]])) /\
  fst (run None None Demo.world0)
    = Ok (Some (NDArray [NDArray [Scalar 4; Scalar 5]])) /\
  fst (run None (Some 1) Demo.world0)
    = Ok (Some (NDArray [NDArray [NDArray [Scalar 4; Scalar 5]]])).
Proof. vm_compute. repeat split. Qed.

Lemma compute_embeddings_empty_raises_witness :
  (isinstance_EmbeddingsMixin Demo.batched_model = true /\
   has_embeddings Demo.batched_model (model Demo.world0) = Ok true /\
   isinstance_TorchModelMixin Demo.batched_model = false /\
   is_ok (fst (_parse_batch_size Demo.batched_model (Demo.env None) (Some 2)
                 Demo.world0)) = true /\
   sample_list (Demo.images []) = []) /\
  fst (compute_embeddings Demo.batched_model (Demo.env None) (Demo.images [])
         None (Some 2) Demo.world0)
    = Raise (ValueError "need at least one array to concatenate").
Proof.
  split; [repeat split|].
  exact (compute_embeddings_empty_raises Demo.batched_model (Demo.env None)
           (Demo.images []) (Some 2) Demo.world0
           eq_refl eq_refl eq_refl eq_refl eq_refl).
Defined.

(** * Further properties of the executors *)

(** ** Results in memory *)

Section InMemory.

Context {M : Type}.
Variable self : ModelClass M.
Variable env : Env M.
Variable f : Media -> ndarray.

Lemma concat_map_map {A B} (g : A -> B) (ls : list (list A)) :
  concat (map (map g) ls) = map g (concat ls).
Proof.
  induction ls as [|l ls IH]; simpl; [reflexivity|].
  now rewrite IH, map_app.
Qed.

Lemma elem_of_concat {A} (x : A) (l : list A) (ls : list (list A)) :
  l ∈ ls -> x ∈ l -> x ∈ concat ls.
Proof.
  intros Hl Hx. apply list_elem_of_In, in_concat.
  exists l. split; now apply list_elem_of_In.
Qed.

(** [np.concatenate] of arrays that are not empty and whose entries all
    have one shape puts their entries one after the other. *)
Lemma concatenate_rows (sh : list nat) (rowss : list (list ndarray)) :
  rowss <> [] ->
  Forall (fun rows => rows <> [] /\ Forall (fun r => shape r = sh) rows) rowss ->
  Np.concatenate (map NDArray rowss) = Ok (NDArray (concat rowss)).
Proof.
  intros Hne Hall. destruct rowss as [|rows0 rowss]; [contradiction|].
  unfold Np.concatenate. cbn [map].
  assert (Hc : forallb (concat_compatible (NDArray rows0))
                 (NDArray rows0 :: map NDArray rowss) = true).
  { assert (Htail : forall rows, rows <> [] ->
              Forall (fun r => shape r = sh) rows ->
              tail (shape (NDArray rows)) = sh).
    { intros [|r rows] Hr Hs; [contradiction|]. simpl.
      now apply Forall_cons in Hs as [Hs _]. }
    assert (H0 : tail (shape (NDArray rows0)) = sh).
    { apply Forall_cons in Hall as [[H1 H2] _]. now apply Htail. }
    apply forallb_forall. intros a Ha.
    change (NDArray rows0 :: map NDArray rowss)
      with (map NDArray (rows0 :: rowss)) in Ha.
    apply in_map_iff in Ha as (rows & <- & Hin).
    rewrite Forall_forall in Hall.
    destruct (Hall rows) as [H1 H2]; [now apply list_elem_of_In|].
    unfold concat_compatible. apply andb_true_iff. split.
    - apply bool_decide_eq_true. unfold ndim. simpl. lia.
    - apply bool_decide_eq_true. rewrite H0. now apply Htail. }
  rewrite Hc. f_equal. f_equal.
  change (rows_of (NDArray rows0) :: map rows_of (map NDArray rowss))
    with (map rows_of (map NDArray (rows0 :: rowss))).
  rewrite map_map. simpl. f_equal.
  clear. induction rowss; simpl; congruence.
Qed.

Lemma concatenate_singletons (sh : list nat) (rows : list ndarray) :
  rows <> [] -> Forall (fun r => shape r = sh) rows ->
  Np.concatenate (map (fun r => NDArray [r]) rows) = Ok (NDArray rows).
Proof.
  intros Hne Hall.
  pose proof (concatenate_rows sh (map (fun r => [r]) rows)) as H.
  rewrite map_map in H. rewrite H.
  - f_equal. f_equal. clear. induction rows; simpl; congruence.
  - destruct rows; [contradiction|discriminate].
  - apply Forall_forall. intros x Hx.
    apply list_elem_of_fmap in Hx as (r & -> & Hr).
    split; [discriminate|]. constructor; [|constructor].
    rewrite Forall_forall in Hall. now apply Hall.
Qed.

Section SinglePath.

Hypothesis rows : embeds_rows self f.

Lemma single_loop_array (l : list Sample) (acc : list ndarray) (w : World M) :
  all_decode env l ->
  exists w',
    for_acc (fun sample embeddings =>
        img <- read_image env (filepath sample) ;;
        embedding <- call_embed self (ImageArray img) ;;
        if truthy None then
          e0 <- lift (getitem0 embedding) ;;
          sample_setitem sample (field_key None) (VArray e0) ;;;
          sample_save sample ;;;
          ret embeddings
        else ret (embeddings ++ [embedding])) l acc w
      = (Ok (acc ++ map (fun s => NDArray [sample_row env f s]) l), w') /\
    fields w' = fields w.
Proof.
  revert acc w. induction l as [|s l IH]; intros acc w Hread; cbn [for_acc map].
  - exists w. rewrite app_nil_r. split; reflexivity.
  - cbn [truthy].
    unfold bind at 1. unfold bind at 1.
    unfold read_image, call_embed, bind, emit, lift, on_model, ret. simpl.
    pose proof (Hread s ltac:(left)) as Hs.
    unfold sample_row at 1, decoded.
    destruct (etai_read env (filepath s)) as [img|x]; [|discriminate].
    pose proof (rows (ImageArray img) (model w)) as He.
    destruct (embed self (ImageArray img) (model w)) as [r m1].
    simpl in He. subst r. simpl.
    match goal with
    | |- context [for_acc ?body l ?a ?w1] =>
        destruct (IH a w1 ltac:(intros ? ?; apply Hread; now right))
          as (w' & Hrun & Hf);
        assert (Hrun' : for_acc body l a w1 = (Ok (a ++ map (fun s => NDArray [sample_row env f s]) l), w'))
          by exact Hrun;
        rewrite Hrun'
    end.
    exists w'. rewrite <- app_assoc. split; [reflexivity|exact Hf].
Qed.

Lemma single_path_result (sh : list nat) (l : list Sample) (w : World M) :
  l <> [] ->
  all_decode env l ->
  (forall s, s ∈ l -> shape (sample_row env f s) = sh) ->
  let run := _compute_image_embeddings_single self env l None w in
  fst run = Ok (Some (NDArray (map (sample_row env f) l))) /\
  first_dim (NDArray (map (sample_row env f) l)) = Some (length l) /\
  fields (snd run) = fields w.
Proof.
  intros Hne Hread Hsh run. subst run.
  unfold _compute_image_embeddings_single.
  unfold bind, with_model. cbv beta.
  match goal with
  | |- context [for_acc ?body l [] ?w1] =>
      destruct (single_loop_array l [] w1 Hread) as (ws & Hs & Hfs);
      assert (Hs' : for_acc body l [] w1 =
                      (Ok ([] ++ map (fun s => NDArray [sample_row env f s]) l), ws))
        by exact Hs;
      rewrite Hs'
  end.
  cbn [truthy app]. unfold lift.
  pose proof (concatenate_singletons sh (map (sample_row env f) l)) as Hc.
  rewrite map_map in Hc. rewrite Hc.
  - split; [reflexivity|]. split; [|exact Hfs].
    unfold first_dim. cbn [shape head]. now rewrite length_map.
  - destruct l; [contradiction|discriminate].
  - apply Forall_forall. intros r Hr.
    apply list_elem_of_fmap in Hr as (s & -> & Hs0). now apply Hsh.
Qed.

(** X1: for a model whose [embed] returns one row under a batch axis,
    images that all decode and rows of one shape, the single-item path on
    a collection that is not empty, with no [embeddings_field], returns
    the array whose i-th entry is the row of the i-th sample; its first
    dimension is the number of samples, and no field is written. *)
Theorem single_path_returns_rows (sh : list nat) (l : list Sample)
    (w : World M) :
  l <> [] ->
  all_decode env l ->
  (forall s, s ∈ l -> shape (sample_row env f s) = sh) ->
  let run := _compute_image_embeddings_single self env l None w in
  fst run = Ok (Some (NDArray (map (sample_row env f) l))) /\
  first_dim (NDArray (map (sample_row env f) l)) = Some (length l) /\
  fields (snd run) = fields w.
Proof. exact (single_path_result sh l w). Qed.

End SinglePath.

Section BatchedPath.

Hypothesis consistent : row_consistent self f.

Lemma read_all_decoded (c : list Sample) (w : World M) :
  all_decode env c ->
  exists w',
    map_st (fun sample => read_image env (filepath sample)) c w
      = (Ok (map (decoded env) c), w') /\
    fields w' = fields w.
Proof.
  revert w. induction c as [|s c IH]; intros w Hread; simpl.
  - exists w. split; reflexivity.
  - unfold bind at 1. unfold read_image, bind, emit, lift. simpl.
    pose proof (Hread s ltac:(left)) as Hs. unfold decoded at 1.
    destruct (etai_read env (filepath s)) as [img|x]; [|discriminate].
    match goal with
    | |- context [map_st ?g c ?w1] =>
        destruct (IH w1 ltac:(intros ? ?; apply Hread; now right))
          as (w' & Hrun & Hf)
    end.
    unfold read_image, bind, emit, lift in Hrun. unfold bind. rewrite Hrun.
    exists w'. split; [reflexivity|exact Hf].
Qed.

Lemma batch_loop_array (batches : list (list Sample)) (acc : list ndarray)
    (w : World M) :
  all_decode env (concat batches) ->
  exists w',
    for_acc (fun sample_batch embeddings =>
        imgs <- map_st (fun sample => read_image env (filepath sample))
                  sample_batch ;;
        embeddings_batch <- call_embed_all self (map ImageArray imgs) ;;
        if truthy None then
          rows <- lift (iter_rows embeddings_batch) ;;
          for_each (fun '(sample, embedding) =>
              sample_setitem sample (field_key None) (VArray embedding) ;;;
              sample_save sample) (zip sample_batch rows) ;;;
          ret embeddings
        else ret (embeddings ++ [embeddings_batch])) batches acc w
      = (Ok (acc ++ map (fun c => NDArray (map (sample_row env f) c)) batches),
         w') /\
    fields w' = fields w.
Proof.
  revert acc w. induction batches as [|c batches IH]; intros acc w Hread;
    cbn [for_acc map].
  - exists w. rewrite app_nil_r. split; reflexivity.
  - cbn [truthy]. unfold bind at 1. unfold bind at 1.
    destruct (read_all_decoded c w) as (w1 & Hr & Hf1).
    { intros s Hs. apply Hread. simpl. apply elem_of_app. now left. }
    rewrite Hr.
    unfold call_embed_all, bind, emit, on_model, lift, ret. simpl.
    pose proof (proj2 consistent (map ImageArray (map (decoded env) c))
                  (model w1)) as He.
    destruct (embed_all self (map ImageArray (map (decoded env) c)) (model w1))
      as [r m1].
    simpl in He. subst r. simpl.
    match goal with
    | |- context [for_acc ?body batches ?a ?w2] =>
        destruct (IH a w2) as (w' & Hrun & Hf);
        [intros s Hs; apply Hread; simpl; apply elem_of_app; now right|];
        assert (Hrun' : for_acc body batches a w2 =
                  (Ok (a ++ map (fun c => NDArray (map (sample_row env f) c)) batches), w'))
          by exact Hrun;
        rewrite Hrun'
    end.
    exists w'. rewrite <- app_assoc. simpl.
    rewrite !map_map. split; [reflexivity|].
    simpl in Hf. now rewrite Hf.
Qed.

Lemma batched_path_result (sh : list nat) (l : list Sample) (b : Z)
    (w : World M) :
  l <> [] ->
  all_decode env l ->
  (forall s, s ∈ l -> shape (sample_row env f s) = sh) ->
  1 <= b ->
  fst (_compute_image_embeddings_batch self env l None b w)
    = Ok (Some (NDArray (map (sample_row env f) l))) /\
  fields (snd (_compute_image_embeddings_batch self env l None b w))
    = fields w.
Proof.
  intros Hne Hread Hsh Hb.
  destruct (iter_batches_partitions l b Hb) as (Hc & Hlen & _).
  unfold _compute_image_embeddings_batch. cbv zeta.
  unfold bind, with_model. cbv beta.
  match goal with
  | |- context [for_acc ?body (iter_batches l b) [] ?w1] =>
      destruct (batch_loop_array (iter_batches l b) [] w1) as (wb & Hbt & Hfb);
      [now rewrite Hc|];
      assert (Hbt' : for_acc body (iter_batches l b) [] w1 =
                (Ok ([] ++ map (fun c => NDArray (map (sample_row env f) c))
                                (iter_batches l b)), wb))
        by exact Hbt;
      rewrite Hbt'
  end.
  cbn [truthy app]. unfold lift.
  pose proof (concatenate_rows sh
                (map (map (sample_row env f)) (iter_batches l b))) as Hcat.
  rewrite map_map in Hcat. rewrite Hcat.
  - rewrite concat_map_map, Hc. simpl. split; [reflexivity|exact Hfb].
  - intros Hnil. apply (f_equal (@length _)) in Hnil. rewrite length_map in Hnil.
    destruct (iter_batches l b); [|discriminate].
    simpl in Hc. now subst l.
  - apply Forall_forall. intros rs Hrs.
    apply list_elem_of_fmap in Hrs as (c & -> & Hcin).
    rewrite Forall_forall in Hlen. specialize (Hlen c Hcin).
    split.
    + destruct c; [simpl in Hlen; lia|discriminate].
    + apply Forall_forall. intros r Hr.
      apply list_elem_of_fmap in Hr as (s & -> & Hs0). apply Hsh.
      rewrite <- Hc. now apply (elem_of_concat _ c).
Qed.

(** X2: for a model whose [embed_all] returns, for every item, the row
    that [embed] returns under its batch axis, images that all decode and
    rows of one shape, the batched path with any batch size from one up,
    on a collection that is not empty and with no [embeddings_field],
    returns the same array as the single-item path: one row per sample,
    in the order of the samples. *)
Theorem batched_path_returns_same_rows (sh : list nat) (l : list Sample)
    (b : Z) (w : World M) :
  l <> [] ->
  all_decode env l ->
  (forall s, s ∈ l -> shape (sample_row env f s) = sh) ->
  1 <= b ->
  fst (_compute_image_embeddings_batch self env l None b w)
    = Ok (Some (NDArray (map (sample_row env f) l))) /\
  fst (_compute_image_embeddings_batch self env l None b w)
    = fst (_compute_image_embeddings_single self env l None w) /\
  fields (snd (_compute_image_embeddings_batch self env l None b w)) = fields w.
Proof.
  intros Hne Hread Hsh Hb.
  destruct (single_path_result (proj1 consistent) sh l w Hne Hread Hsh)
    as (Hsingle & _ & _).
  destruct (batched_path_result sh l b w Hne Hread Hsh Hb) as (Hbatch & Hf).
  rewrite Hsingle, Hbatch. repeat split. exact Hf.
Qed.

End BatchedPath.

End InMemory.

Lemma batched_model_rows : row_consistent Demo.batched_model Demo.feature.
Proof. split; intros; reflexivity. Defined.

Lemma demo_all_decode (l : list Sample) :
  all_decode (Demo.env (M := option ndarray) None) l.
Proof. intros s _. reflexivity. Defined.

Lemma demo_rows_shape (l : list Sample) :
  forall s, s ∈ l ->
    shape (sample_row (Demo.env (M := option ndarray) None) Demo.feature s)
    = [2%nat].
Proof. intros s _. reflexivity. Defined.

Lemma single_path_returns_rows_witness :
  [Demo.s1; Demo.s2] <> [] /\
  fst (_compute_image_embeddings_single Demo.batched_model (Demo.env None)
         [Demo.s1; Demo.s2] None Demo.world0)
  = Ok (Some (NDArray [NDArray [Scalar 4; Scalar 5];
                       NDArray [Scalar 4; Scalar 6]])).
Proof.
  assert (Hne : [Demo.s1; Demo.s2] <> []) by discriminate.
  split; [exact Hne|].
  exact (proj1 (single_path_returns_rows Demo.batched_model (Demo.env None)
                  Demo.feature (proj1 batched_model_rows) [2%nat]
                  [Demo.s1; Demo.s2] Demo.world0 Hne
                  (demo_all_decode _) (demo_rows_shape _))).
Defined.

Lemma batched_path_returns_same_rows_witness :
  ([Demo.s1; Demo.s2; Demo.s3] <> [] /\ 1 <= 2) /\
  fst (_compute_image_embeddings_batch Demo.batched_model (Demo.env None)
         [Demo.s1; Demo.s2; Demo.s3] None 2 Demo.world0)
  = fst (_compute_image_embeddings_single Demo.batched_model (Demo.env None)
           [Demo.s1; Demo.s2; Demo.s3] None Demo.world0).
Proof.
  assert (Hne : [Demo.s1; Demo.s2; Demo.s3] <> []) by discriminate.
  assert (Hb : 1 <= 2) by lia.
  split; [exact (conj Hne Hb)|].
  exact (proj1 (proj2 (batched_path_returns_same_rows Demo.batched_model
                         (Demo.env None) Demo.feature batched_model_rows
                         [2%nat] [Demo.s1; Demo.s2; Demo.s3] 2 Demo.world0 Hne
                         (demo_all_decode _) (demo_rows_shape _) Hb))).
Defined.

(** X3: for a model whose [embed_all] returns, for every item, the row
    that [embed] returns under its batch axis, and images that all decode,
    the batched path with any batch size from one up stores in
    [embeddings_field] exactly what the single-item path stores. *)
Theorem field_mode_paths_agree {M} (self : ModelClass M) (env : Env M)
    (f : Media -> ndarray) (field : string) (l : list Sample) (b : Z)
    (w : World M) :
  row_consistent self f ->
  truthy (Some field) = true ->
  all_decode env l ->
  1 <= b ->
  fields (snd (_compute_image_embeddings_batch self env l (Some field) b w)) =
  fields (snd (_compute_image_embeddings_single self env l (Some field) w)) /\
  fields (snd (_compute_image_embeddings_single self env l (Some field) w)) =
  rows_written env f field l (fields w).
Proof.
  intros Hc Ht Hread Hb. destruct field as [|c rest]; [discriminate|].
  destruct (row_consistent_paths_agree self env f c rest Hc l b w Hread Hb)
    as (_ & _ & H1 & H2).
  split; assumption.
Qed.

Lemma field_mode_paths_agree_witness :
  (truthy (Some "emb") = true /\ 1 <= 2) /\
  fields (snd (_compute_image_embeddings_batch Demo.batched_model
                 (Demo.env None) [Demo.s1; Demo.s2; Demo.s3] (Some "emb") 2
                 Demo.world0)) =
  fields (snd (_compute_image_embeddings_single Demo.batched_model
                 (Demo.env None) [Demo.s1; Demo.s2; Demo.s3] (Some "emb")
                 Demo.world0)).
Proof.
  assert (Hb : 1 <= 2) by lia.
  split; [exact (conj eq_refl Hb)|].
  exact (proj1 (field_mode_paths_agree Demo.batched_model (Demo.env None)
                  Demo.feature "emb" [Demo.s1; Demo.s2; Demo.s3] 2 Demo.world0
                  batched_model_rows eq_refl (demo_all_decode _) Hb)).
Defined.

(** ** Embeddings of patches *)

Section PatchRows.

Context {M : Type}.
Variable self : ModelClass M.
Variable env : Env M.
Variable f : Media -> ndarray.
Variable img : ndarray.
Variable force_square : bool.
Variable alpha : option Q.
Hypothesis consistent : row_consistent self f.

Local Abbreviation row := (patch_row env f img force_square alpha).

Lemma patches_single_loop (ds : list Detection) (acc : list ndarray)
    (w : World M) :
  exists w',
    for_acc (fun detection embeddings =>
        let patch := _extract_patch env img detection force_square alpha in
        embedding <- call_embed self (ImageArray patch) ;;
        ret (embeddings ++ [embedding])) ds acc w
      = (Ok (acc ++ map (fun d => NDArray [row d]) ds), w') /\
    fields w' = fields w.
Proof.
  revert acc w. induction ds as [|d ds IH]; intros acc w; cbn [for_acc map].
  - exists w. rewrite app_nil_r. split; reflexivity.
  - unfold bind at 1. cbv zeta. unfold bind at 1.
    unfold call_embed, bind, emit, on_model, ret. simpl.
    pose proof (proj1 consistent
                  (ImageArray (_extract_patch env img d force_square alpha))
                  (model w)) as He.
    destruct (embed self (ImageArray (_extract_patch env img d force_square alpha))
                (model w)) as [r m1].
    simpl in He. subst r.
    match goal with
    | |- context [for_acc ?body ds ?a ?w1] =>
        destruct (IH a w1) as (w' & Hrun & Hf);
        assert (Hrun' : for_acc body ds a w1 =
                  (Ok (a ++ map (fun d => NDArray [row d]) ds), w'))
          by exact Hrun;
        rewrite Hrun'
    end.
    exists w'. rewrite <- app_assoc. split; [reflexivity|exact Hf].
Qed.

Lemma patches_batch_loop (batches : list (list Detection))
    (acc : list ndarray) (w : World M) :
  exists w',
    for_acc (fun detection_batch embeddings =>
        let patches :=
          map (fun d => _extract_patch env img d force_square alpha)
              detection_batch in
        embeddings_batch <- call_embed_all self (map ImageArray patches) ;;
        ret (embeddings ++ [embeddings_batch])) batches acc w
      = (Ok (acc ++ map (fun c => NDArray (map row c)) batches), w') /\
    fields w' = fields w.
Proof.
  revert acc w. induction batches as [|c batches IH]; intros acc w;
    cbn [for_acc map].
  - exists w. rewrite app_nil_r. split; reflexivity.
  - unfold bind at 1. cbv zeta. unfold bind at 1.
    unfold call_embed_all, bind, emit, on_model, ret. simpl.
    pose proof (proj2 consistent
                  (map ImageArray
                     (map (fun d => _extract_patch env img d force_square alpha) c))
                  (model w)) as He.
    destruct (embed_all self
                (map ImageArray
                   (map (fun d => _extract_patch env img d force_square alpha) c))
                (model w)) as [r m1].
    simpl in He. subst r.
    match goal with
    | |- context [for_acc ?body batches ?a ?w1] =>
        destruct (IH a w1) as (w' & Hrun & Hf);
        assert (Hrun' : for_acc body batches a w1 =
                  (Ok (a ++ map (fun c => NDArray (map row c)) batches), w'))
          by exact Hrun;
        rewrite Hrun'
    end.
    exists w'. rewrite <- app_assoc. simpl. rewrite !map_map.
    split; [reflexivity|exact Hf].
Qed.

(** X4: for a model whose [embed_all] returns, for every item, the row
    that [embed] returns under its batch axis, detections that are not
    empty and rows of one shape, [_embed_patches_single] and
    [_embed_patches_batch], with any batch size from one up, return the
    same array: one row per detection, in the order of the detections. *)
Theorem patch_paths_return_same_rows (sh : list nat) (ds : list Detection)
    (b : Z) (w : World M) :
  ds <> [] ->
  (forall d, d ∈ ds -> shape (row d) = sh) ->
  1 <= b ->
  fst (_embed_patches_single self env img ds force_square alpha w)
    = Ok (NDArray (map row ds)) /\
  fst (_embed_patches_batch self env img ds force_square alpha b w)
    = Ok (NDArray (map row ds)).
Proof.
  intros Hne Hsh Hb. split.
  - unfold _embed_patches_single. unfold bind. cbv beta.
    match goal with
    | |- context [for_acc ?body ds [] ?w1] =>
        destruct (patches_single_loop ds [] w1) as (ws & Hs & _);
        assert (Hs' : for_acc body ds [] w1 =
                  (Ok ([] ++ map (fun d => NDArray [row d]) ds), ws))
          by exact Hs;
        rewrite Hs'
    end.
    cbn [app]. unfold lift.
    pose proof (concatenate_singletons sh (map row ds)) as Hc.
    rewrite map_map in Hc. rewrite Hc; [reflexivity| |].
    + destruct ds; [contradiction|discriminate].
    + apply Forall_forall. intros r Hr.
      apply list_elem_of_fmap in Hr as (d & -> & Hd). now apply Hsh.
  - destruct (iter_batches_partitions ds b Hb) as (Hc & Hlen & _).
    unfold _embed_patches_batch. unfold bind. cbv beta.
    match goal with
    | |- context [for_acc ?body (iter_batches ds b) [] ?w1] =>
        destruct (patches_batch_loop (iter_batches ds b) [] w1) as (wb & Hbt & _);
        assert (Hbt' : for_acc body (iter_batches ds b) [] w1 =
                  (Ok ([] ++ map (fun c => NDArray (map row c))
                                  (iter_batches ds b)), wb))
          by exact Hbt;
        rewrite Hbt'
    end.
    cbn [app]. unfold lift.
    pose proof (concatenate_rows sh (map (map row) (iter_batches ds b))) as Hcat.
    rewrite map_map in Hcat. rewrite Hcat.
    + now rewrite concat_map_map, Hc.
    + intros Hnil. apply (f_equal (@length _)) in Hnil.
      rewrite length_map in Hnil.
      destruct (iter_batches ds b); [|discriminate].
      simpl in Hc. now subst ds.
    + apply Forall_forall. intros rs Hrs.
      apply list_elem_of_fmap in Hrs as (c & -> & Hcin).
      rewrite Forall_forall in Hlen. specialize (Hlen c Hcin).
      split.
      * destruct c; [simpl in Hlen; lia|discriminate].
      * apply Forall_forall. intros r Hr.
        apply list_elem_of_fmap in Hr as (d & -> & Hd). apply Hsh.
        rewrite <- Hc. now apply (elem_of_concat _ c).
Qed.

End PatchRows.

Lemma patch_paths_return_same_rows_witness :
  ([Demo.box; Demo.box2; Demo.box] <> [] /\ 1 <= 2) /\
  fst (_embed_patches_batch Demo.batched_model (Demo.env None)
         (Demo.blank_image 10 10) [Demo.box; Demo.box2; Demo.box] false None 2
         Demo.world0)
  = Ok (NDArray [NDArray [Scalar 2; Scalar 2];
                 NDArray [Scalar 5; Scalar 5];
                 NDArray [Scalar 2; Scalar 2]]).
Proof.
  assert (Hne : [Demo.box; Demo.box2; Demo.box] <> []) by discriminate.
  assert (Hb : 1 <= 2) by lia.
  split; [exact (conj Hne Hb)|].
  exact (proj2 (patch_paths_return_same_rows Demo.batched_model (Demo.env None)
                  Demo.feature (Demo.blank_image 10 10) false None
                  batched_model_rows [2%nat] [Demo.box; Demo.box2; Demo.box] 2
                  Demo.world0 Hne ltac:(intros d _; reflexivity) Hb)).
Defined.

(** ** The mapping returned for patches *)

Section PatchMapping.

Context {M : Type}.
Variable self : ModelClass M.
Variable env : Env M.
Variable patches_field : string.
Variable embeddings_field : option string.
Variable force_square : bool.
Variable alpha : option Q.
Hypothesis in_memory : truthy embeddings_field = false.

Local Abbreviation step batch_size :=
  (patch_embeddings_step self env patches_field embeddings_field batch_size
     force_square alpha).

Lemma step_in_memory (batch_size : option Z) (sample : Sample)
    (d d' : gmap string ndarray) (w w' : World M) :
  step batch_size sample d w = (Ok d', w') ->
  fields w' = fields w /\
  ((no_detections env sample patches_field w /\ d' = d) \/
   (has_detections env sample patches_field w /\
    exists a, d' = <[sample_id sample := a]> d)).
Proof.
  intros Hm. split.
  - destruct (ww_patch_step self env embeddings_field (fun _ => True) w
                (fun _ _ => I) patches_field batch_size force_square alpha
                sample d ltac:(intros ? ? ? ? ? ? ? ? ? ?; exact I)
                w _ _ (reached_refl _ _ _) Hm) as (ws & _ & HW).
    apply map_eq. intros [i k]. apply (wrote_frame _ _ _ _ _ HW). left.
    unfold write_mode. rewrite in_memory. discriminate.
  - revert Hm. unfold patch_embeddings_step. unfold bind at 1.
    pose proof (parse_patches_world env sample patches_field w) as Hw.
    unfold no_detections, has_detections.
    destruct (_parse_patches env sample patches_field w) as [[dets|e] w1];
      [|discriminate].
    simpl in *. subst w1.
    destruct dets as [[|d1 ds]|].
    + intros [= <- <-]. left. split; [now right|reflexivity].
    + rewrite in_memory.
      unfold bind, ret. intros Hm. right. split; [eauto|].
      repeat match type of Hm with
             | context [match ?x with _ => _ end] => destruct x eqn:?
             end;
        try discriminate; injection Hm as <- <-; eauto.
    + intros [= <- <-]. left. split; [now left|reflexivity].
Qed.

Lemma loop_in_memory (batch_size : option Z) (w0 : World M)
    (l : list Sample) (d d' : gmap string ndarray) (w w' : World M) :
  fields w = fields w0 ->
  for_acc (step batch_size) l d w = (Ok d', w') ->
  fields w' = fields w0 /\
  forall i, is_Some (d' !! i) <->
            is_Some (d !! i) \/
            exists s, s ∈ l /\ sample_id s = i /\
                      has_detections env s patches_field w0.
Proof.
  revert d w. induction l as [|s l IH]; intros d w Hf; simpl.
  - intros [= <- <-]. split; [assumption|]. intros i. split; [now left|].
    intros [H|(s & Hs & _)]; [assumption|inversion Hs].
  - unfold bind at 1.
    destruct (step batch_size s d w) as [[d1|e] w1] eqn:E; [|discriminate].
    destruct (step_in_memory _ _ _ _ _ _ E) as (Hf1 & Hcase).
    intros Hm. destruct (IH d1 w1 ltac:(congruence) Hm) as (Hf' & Hdom).
    split; [assumption|]. intros i. rewrite Hdom.
    assert (Hparse : forall s0,
              fst (_parse_patches env s0 patches_field w)
              = fst (_parse_patches env s0 patches_field w0)).
    { intros s0. apply parse_patches_fields. now rewrite Hf. }
    destruct Hcase as [[Hno ->]|[Hhas (a & ->)]].
    + split.
      * intros [H|(s0 & Hs0 & Hid & Hd)]; [now left|].
        right. exists s0. split; [now right|tauto].
      * intros [H|(s0 & Hs0 & Hid & Hd)]; [now left|].
        apply elem_of_cons in Hs0 as [->|Hs0]; [|right; eauto].
        exfalso. destruct Hd as (d0 & ds & Hd). rewrite <- Hparse in Hd.
        destruct Hno as [Hno|Hno]; rewrite Hno in Hd; discriminate.
    + split.
      * intros [H|(s0 & Hs0 & Hid & Hd)].
        -- destruct (decide (sample_id s = i)) as [<-|Hne].
           ++ right. exists s. split; [left|]. split; [reflexivity|].
              destruct Hhas as (d0 & ds & Hd). exists d0, ds.
              now rewrite <- Hparse.
           ++ left. now rewrite lookup_insert_ne in H.
        -- right. exists s0. split; [now right|tauto].
      * intros [H|(s0 & Hs0 & Hid & Hd)].
        -- left. destruct (decide (sample_id s = i)) as [<-|Hne].
           ++ rewrite lookup_insert_eq. eauto.
           ++ now rewrite lookup_insert_ne.
        -- apply elem_of_cons in Hs0 as [->|Hs0]; [|right; eauto].
           left. rewrite <- Hid, lookup_insert_eq. eauto.
Qed.

(** X5: with no [embeddings_field], a run of [compute_patch_embeddings]
    that returns (outside the data-loader path) returns a mapping, never
    [None]; the mapping has an entry for an id exactly when a sample of
    the collection with that id has at least one detection; and no field
    of any sample is written. *)
Theorem patch_mapping_keys (samples : SampleCollection)
    (batch_size : option Z) (w w' : World M)
    (r : option (gmap string ndarray)) :
  isinstance_TorchModelMixin self = false ->
  compute_patch_embeddings self env samples patches_field embeddings_field
    batch_size force_square alpha w = (Ok r, w') ->
  fields w' = fields w /\
  exists d, r = Some d /\
    forall i, is_Some (d !! i) <->
              exists s, s ∈ sample_list samples /\ sample_id s = i /\
                        has_detections env s patches_field w.
Proof.
  intros Hroute. unfold compute_patch_embeddings. rewrite Hroute.
  destruct (negb (bool_decide (media_type samples = IMAGE)));
    [discriminate|].
  unfold bind, lift, with_model, ret.
  pose proof (check_embeddings_model_world self w) as Hc.
  destruct (check_embeddings_model self w) as [[[]|?] wc]; [|discriminate].
  simpl in Hc. subst wc.
  destruct (validate_collection_label_fields env (schema samples)
              patches_field allowed_types) as [[]|?]; [|discriminate].
  pose proof (parse_batch_size_fields self env batch_size w) as Hp.
  destruct (_parse_batch_size self env batch_size w) as [[b|?] wp];
    [|discriminate].
  simpl in Hp.
  destruct (for_acc (step b) (sample_list samples) ∅ _) as [[d|?] wl] eqn:E;
    [|discriminate].
  rewrite in_memory. intros [= <- <-].
  pose proof (fun H => loop_in_memory b w _ _ _ _ _ H E) as Hl.
  destruct (Hl Hp) as (Hf & Hdom).
  split; [exact Hf|]. exists d. split; [reflexivity|].
  intros i. rewrite Hdom. split.
  - intros [[? H]|H]; [rewrite lookup_empty in H; discriminate|exact H].
  - intros H. now right.
Qed.

End PatchMapping.

Lemma patch_mapping_keys_witness :
  let run := compute_patch_embeddings Demo.batched_model (Demo.env None)
               (Demo.images [Demo.s1; Demo.s2; Demo.s3]) "ground_truth" None
               (Some 2) false None Demo.world1 in
  (truthy None = false /\
   isinstance_TorchModelMixin Demo.batched_model = false /\
   exists d, run = (Ok (Some d), snd run)) /\
  fields (snd run) = fields Demo.world1.
Proof.
  intros run.
  assert (E : exists d, run = (Ok (Some d), snd run)).
  { eexists. vm_compute. reflexivity. }
  split; [repeat split; exact E|].
  destruct E as [d E].
  exact (proj1 (patch_mapping_keys Demo.batched_model (Demo.env None)
                  "ground_truth" None false None eq_refl
                  (Demo.images [Demo.s1; Demo.s2; Demo.s3]) (Some 2)
                  Demo.world1 (snd run) (Some d) eq_refl E)).
Defined.

(** ** Set-up and teardown of the model *)

Section Emits.

Context {M : Type}.
Variable self : ModelClass M.
Variable env : Env M.
Variable K : Event -> Prop.

Local Abbreviation Run := (St (World M)).

Lemma emits_silent {A} (m : Run A) :
  (forall w, trace (snd (m w)) = trace w) -> emits K m.
Proof.
  intros H w r w' Hm. exists []. specialize (H w). rewrite Hm in H.
  simpl in H. rewrite app_nil_r. split; [assumption|constructor].
Qed.

Lemma emits_ret {A} (a : A) : emits K (ret a : Run A).
Proof. now apply emits_silent. Qed.

Lemma emits_raise {A} (e : exn) : emits K (raise e : Run A).
Proof. now apply emits_silent. Qed.

Lemma emits_lift {A} (r : result A) : emits K (lift r : Run A).
Proof. now apply emits_silent. Qed.

Lemma emits_on_model {A} (method : St M A) : emits K (on_model method).
Proof.
  apply emits_silent. intros w. unfold on_model.
  now destruct (method (model w)).
Qed.

Lemma emits_sample_getitem (sample : Sample) (field : string) :
  emits K (sample_getitem (M := M) sample field).
Proof.
  apply emits_silent. intros w. unfold sample_getitem.
  now destruct (fields w !! (sample_id sample, field)).
Qed.

Lemma emits_sample_setitem (sample : Sample) (field : string) (v : FieldValue) :
  emits K (sample_setitem (M := M) sample field v).
Proof. now apply emits_silent. Qed.

Lemma emits_emit (ev : Event) : K ev -> emits K (emit (M := M) ev).
Proof.
  intros HK w r w' [= <- <-]. exists [ev]. split; [reflexivity|].
  now constructor.
Qed.

Lemma emits_bind {A B} (m : Run A) (k : A -> Run B) :
  emits K m -> (forall x, emits K (k x)) -> emits K (bind m k).
Proof.
  intros Hm Hk w r w' Hb. unfold bind in Hb.
  destruct (m w) as [[x|e] w1] eqn:E.
  - destruct (Hm _ _ _ E) as (t1 & Ht1 & HK1).
    destruct (Hk x _ _ _ Hb) as (t2 & Ht2 & HK2).
    exists (t1 ++ t2). rewrite Ht2, Ht1, app_assoc. split; [reflexivity|].
    now apply Forall_app.
  - injection Hb as <- <-. exact (Hm _ _ _ E).
Qed.

Lemma emits_for_acc {A Acc} (body : A -> Acc -> Run Acc) (l : list A)
    (acc : Acc) :
  (forall x a, emits K (body x a)) -> emits K (for_acc body l acc).
Proof.
  intros H. revert acc. induction l as [|x l IH]; intros acc; simpl.
  - apply emits_ret.
  - apply emits_bind; [apply H|]. intros a. apply IH.
Qed.

Lemma emits_map_st {A B} (g : A -> Run B) (l : list A) :
  (forall x, emits K (g x)) -> emits K (map_st g l).
Proof.
  intros H. induction l as [|x l IH]; simpl.
  - apply emits_ret.
  - apply emits_bind; [apply H|]. intros y.
    apply emits_bind; [apply IH|]. intros ys. apply emits_ret.
Qed.

Lemma emits_reading (path : string) :
  K (EvRead path) -> emits K (read_image env path).
Proof.
  intros HK. unfold read_image.
  apply emits_bind; [now apply emits_emit|]. intros _. apply emits_lift.
Qed.

Lemma emits_video_scope {A} (path : string) (body : Media -> Run A) :
  K (EvOpenVideo path) -> K (EvCloseVideo path) ->
  (forall media, emits K (body media)) ->
  emits K (with_video_reader env path body).
Proof.
  intros Hopen Hclose Hb. unfold with_video_reader.
  apply emits_bind; [now apply emits_emit|]. intros _.
  apply emits_bind; [apply emits_lift|]. intros _.
  intros w r w' Hm.
  destruct (body (VideoReader path) w) as [r' w1] eqn:E.
  injection Hm as <- <-.
  destruct (Hb _ _ _ _ E) as (t & Ht & HK).
  exists (t ++ [EvCloseVideo path]). simpl. rewrite Ht, app_assoc.
  split; [reflexivity|]. apply Forall_app. split; [assumption|].
  constructor; [assumption|constructor].
Qed.

(** every event of the work on the samples is allowed *)
Hypothesis K_other : forall ev, working ev -> K ev.

Ltac other := apply K_other; exact I.

Ltac emits_step :=
  first
    [ apply emits_ret | apply emits_raise | apply emits_lift
    | apply emits_on_model | apply emits_sample_getitem
    | apply emits_sample_setitem
    | apply emits_emit; other
    | apply emits_bind; [|intros ?] ].

Lemma emits_read_image (path : string) : emits K (read_image env path).
Proof. apply emits_reading. other. Qed.

Lemma emits_call_embed (arg : Media) : emits K (call_embed self arg).
Proof. unfold call_embed. repeat emits_step. Qed.

Lemma emits_call_embed_all (args : list Media) :
  emits K (call_embed_all self args).
Proof. unfold call_embed_all. repeat emits_step. Qed.

Lemma emits_sample_save (sample : Sample) : emits K (sample_save (M := M) sample).
Proof. unfold sample_save. emits_step. Qed.

Lemma emits_with_video_reader {A} (path : string) (body : Media -> Run A) :
  (forall media, emits K (body media)) ->
  emits K (with_video_reader env path body).
Proof. apply emits_video_scope; other. Qed.

Lemma emits_write (sample : Sample) (field : string) (v : FieldValue)
    {A} (rest : Run A) :
  emits K rest ->
  emits K (sample_setitem sample field v ;;; sample_save sample ;;; rest).
Proof.
  intros H. apply emits_bind; [emits_step|]. intros _.
  apply emits_bind; [apply emits_sample_save|]. intros _. exact H.
Qed.

Lemma emits_single_loop (l : list Sample) (embeddings_field : option string)
    (acc : list ndarray) :
  emits K (for_acc (fun sample embeddings =>
      img <- read_image env (filepath sample) ;;
      embedding <- call_embed self (ImageArray img) ;;
      if truthy embeddings_field then
        e0 <- lift (getitem0 embedding) ;;
        sample_setitem sample (field_key embeddings_field) (VArray e0) ;;;
        sample_save sample ;;;
        ret embeddings
      else ret (embeddings ++ [embedding])) l acc).
Proof.
  apply emits_for_acc. intros s a.
  apply emits_bind; [apply emits_read_image|]. intros img.
  apply emits_bind; [apply emits_call_embed|]. intros e.
  destruct (truthy embeddings_field); [|emits_step].
  apply emits_bind; [emits_step|]. intros e0.
  apply emits_write. emits_step.
Qed.

Lemma emits_video_loop (l : list Sample) (embeddings_field : option string)
    (acc : list ndarray) :
  emits K (for_acc (fun sample embeddings =>
      embedding <- with_video_reader env (filepath sample) (call_embed self) ;;
      if truthy embeddings_field then
        e0 <- lift (getitem0 embedding) ;;
        sample_setitem sample (field_key embeddings_field) (VArray e0) ;;;
        sample_save sample ;;;
        ret embeddings
      else ret (embeddings ++ [embedding])) l acc).
Proof.
  apply emits_for_acc. intros s a.
  apply emits_bind.
  { apply emits_with_video_reader. intros media. apply emits_call_embed. }
  intros e.
  destruct (truthy embeddings_field); [|emits_step].
  apply emits_bind; [emits_step|]. intros e0.
  apply emits_write. emits_step.
Qed.

Lemma emits_batch_loop (batches : list (list Sample))
    (embeddings_field : option string) (acc : list ndarray) :
  emits K (for_acc (fun sample_batch embeddings =>
      imgs <- map_st (fun sample => read_image env (filepath sample))
                sample_batch ;;
      embeddings_batch <- call_embed_all self (map ImageArray imgs) ;;
      if truthy embeddings_field then
        rows <- lift (iter_rows embeddings_batch) ;;
        for_each (fun '(sample, embedding) =>
            sample_setitem sample (field_key embeddings_field) (VArray embedding) ;;;
            sample_save sample) (zip sample_batch rows) ;;;
        ret embeddings
      else ret (embeddings ++ [embeddings_batch])) batches acc).
Proof.
  apply emits_for_acc. intros c a.
  apply emits_bind.
  { apply emits_map_st. intros s. apply emits_read_image. }
  intros imgs.
  apply emits_bind; [apply emits_call_embed_all|]. intros e.
  destruct (truthy embeddings_field); [|emits_step].
  apply emits_bind; [emits_step|]. intros rows.
  apply emits_bind; [|intros; emits_step].
  unfold for_each. apply emits_for_acc. intros [s x] [].
  apply emits_bind; [emits_step|]. intros _. apply emits_sample_save.
Qed.

Lemma emits_patch_step (patches_field : string)
    (embeddings_field : option string) (batch_size : option Z)
    (force_square : bool) (alpha : option Q) (sample : Sample)
    (d : gmap string ndarray) :
  emits K (patch_embeddings_step self env patches_field embeddings_field
             batch_size force_square alpha sample d).
Proof.
  unfold patch_embeddings_step.
  apply emits_bind.
  { unfold _parse_patches. apply emits_bind; [emits_step|]. intros; emits_step. }
  intros [[|d1 ds]|]; [emits_step| |emits_step].
  apply emits_bind; [apply emits_read_image|]. intros img.
  apply emits_bind.
  { destruct batch_size as [b|].
    - unfold _embed_patches_batch.
      apply emits_bind; [|intros; emits_step].
      apply emits_for_acc. intros c a. cbv zeta.
      apply emits_bind; [apply emits_call_embed_all|]. intros; emits_step.
    - unfold _embed_patches_single.
      apply emits_bind; [|intros; emits_step].
      apply emits_for_acc. intros c a. cbv zeta.
      apply emits_bind; [apply emits_call_embed|]. intros; emits_step. }
  intros e. destruct (truthy embeddings_field); [|emits_step].
  apply emits_write. emits_step.
Qed.

End Emits.
Section Lifecycle.

Context {M : Type}.
Variable self : ModelClass M.
Variable env : Env M.
Variable K : Event -> Prop.

Local Abbreviation Run := (St (World M)).

Lemma with_model_brackets {A B} (body : Run A) (k : A -> Run B) :
  emits K body ->
  (forall x w, trace (snd (k x w)) = trace w) ->
  brackets K (x <- with_model self body ;; k x).
Proof.
  intros Hb Hk w r w' Hm. unfold bind, with_model in Hm.
  destruct (body _) as [rb wb] eqn:E.
  destruct (Hb _ _ _ E) as (mid & Ht & Hmid). simpl in Ht.
  exists mid. split; [|assumption].
  assert (Hend : trace w' = trace wb ++ [EvExit]).
  { destruct rb as [x|e].
    - specialize (Hk x {| model := exit self (model wb); fields := fields wb;
                          trace := trace wb ++ [EvExit] |}).
      rewrite Hm in Hk. exact Hk.
    - now injection Hm as <- <-. }
  rewrite Hend, Ht, <- !app_assoc. reflexivity.
Qed.

Lemma with_model_alone_brackets {A} (body : Run A) :
  emits K body -> brackets K (with_model self body).
Proof.
  intros Hb w r w' Hm. unfold with_model in Hm.
  destruct (body _) as [rb wb] eqn:E.
  destruct (Hb _ _ _ E) as (mid & Ht & Hmid). simpl in Ht.
  exists mid. split; [|assumption].
  injection Hm as <- <-. simpl. rewrite Ht, <- !app_assoc. reflexivity.
Qed.

Lemma finish_silent (embeddings_field : option string)
    (embeddings : list ndarray) (w : World M) :
  trace (snd ((if truthy embeddings_field then ret None
               else a <- lift (Np.concatenate embeddings) ;; ret (Some a)) w))
  = trace w.
Proof.
  destruct (truthy embeddings_field); [reflexivity|].
  unfold bind, lift, ret. now destruct (Np.concatenate embeddings).
Qed.

(** The negotiation raises and adds nothing, or returns and adds at most
    its warning. *)
Lemma parse_batch_size_trace (batch_size : option Z) (w : World M)
    (r : result (option Z)) (w1 : World M) :
  _parse_batch_size self env batch_size w = (r, w1) ->
  (is_ok r = false /\ trace w1 = trace w) \/
  (is_ok r = true /\ exists pre, trace w1 = trace w ++ pre /\ negotiated pre).
Proof.
  unfold _parse_batch_size.
  destruct (match batch_size with Some b => Some b | None => _ end)
    as [b|].
  2:{ intros [= <- <-]. right. split; [reflexivity|].
      exists []. rewrite app_nil_r. split; [reflexivity|now left]. }
  destruct (1 <? b).
  2:{ intros [= <- <-]. right. split; [reflexivity|].
      exists []. rewrite app_nil_r. split; [reflexivity|now left]. }
  unfold bind. rewrite on_model_pure.
  destruct (ragged_batches self (model w)) as [[|]|e]; cbn;
    intros [= <- <-].
  - right. split; [reflexivity|]. eexists. split; [reflexivity|now right].
  - right. split; [reflexivity|].
    exists []. rewrite app_nil_r. split; [reflexivity|now left].
  - left. split; reflexivity.
Qed.

Lemma scoped_nothing {A} (w : World M) (e : exn) :
  scoped K w (Raise e : result A) w.
Proof. left. split; reflexivity. Qed.

Lemma scoped_brackets {A} (m : Run A) (w : World M) (r : result A)
    (w' : World M) :
  brackets K m -> m w = (r, w') -> scoped K w r w'.
Proof.
  intros Hb Hm. destruct (Hb _ _ _ Hm) as (mid & Ht & Hmid).
  right. exists [], mid. split; [exact Ht|]. split; [now left|exact Hmid].
Qed.

Lemma scoped_negotiation {B} (batch_size : option Z)
    (k : option Z -> Run B) (w : World M) (r : result B) (w' : World M) :
  (forall x, brackets K (k x)) ->
  bind (_parse_batch_size self env batch_size) k w = (r, w') ->
  scoped K w r w'.
Proof.
  intros Hk Hm. unfold bind in Hm.
  destruct (_parse_batch_size self env batch_size w) as [[x|e] w1] eqn:E.
  - destruct (parse_batch_size_trace _ _ _ _ E)
      as [[Hno _]|(_ & pre & Ht1 & Hpre)]; [discriminate|].
    destruct (Hk x _ _ _ Hm) as (mid & Ht & Hmid).
    right. exists pre, mid. rewrite Ht, Ht1, <- app_assoc.
    split; [reflexivity|]. split; assumption.
  - injection Hm as <- <-.
    destruct (parse_batch_size_trace _ _ _ _ E)
      as [[_ Ht]|(Hyes & _)]; [|discriminate].
    left. split; [reflexivity|exact Ht].
Qed.

End Lifecycle.

Section EmbeddingsLifecycle.

Context {M : Type}.
Variable self : ModelClass M.
Variable env : Env M.

Local Abbreviation at_work := (fun (ev : Event) (H : working ev) => H).

Lemma single_brackets (l : list Sample) (embeddings_field : option string) :
  brackets working
    (_compute_image_embeddings_single self env l embeddings_field).
Proof.
  apply with_model_brackets.
  - apply emits_single_loop. exact at_work.
  - intros. apply finish_silent.
Qed.

Lemma batch_brackets (l : list Sample) (embeddings_field : option string)
    (b : Z) :
  brackets working
    (_compute_image_embeddings_batch self env l embeddings_field b).
Proof.
  apply with_model_brackets.
  - apply emits_batch_loop. exact at_work.
  - intros. apply finish_silent.
Qed.

Lemma video_brackets (l : list Sample) (embeddings_field : option string) :
  brackets working (_compute_video_embeddings self env l embeddings_field).
Proof.
  apply with_model_brackets.
  - apply emits_video_loop. exact at_work.
  - intros. apply finish_silent.
Qed.

(** X6: on every run of [compute_embeddings] and of
    [compute_patch_embeddings] outside the data-loader path, whether it
    returns or raises.  Either the run raises and adds nothing to the
    trace.  Or the trace grows by: at most the warning of the batch-size
    negotiation, then one set-up of the model, then reads, videos opened
    and closed, embeddings and saves only, then one teardown, which is
    the last event.  A model that is not an [EmbeddingsMixin] or does not
    expose embeddings is never set up: the trace stays as it was. *)
Theorem model_lifecycle_bracketed (samples : SampleCollection)
    (patches_field : string) (embeddings_field : option string)
    (batch_size : option Z) (force_square : bool) (alpha : option Q)
    (w : World M) :
  isinstance_TorchModelMixin self = false ->
  (forall r w',
     compute_embeddings self env samples embeddings_field batch_size w
       = (r, w') ->
     scoped working w r w' /\
     (capability_mismatch self w -> is_ok r = false /\ trace w' = trace w))
  /\ (forall r w',
        compute_patch_embeddings self env samples patches_field
          embeddings_field batch_size force_square alpha w = (r, w') ->
        scoped working w r w' /\
        (capability_mismatch self w ->
         is_ok r = false /\ trace w' = trace w)).
Proof.
  intros Hroute. split.
  - intros r w'. unfold compute_embeddings. unfold bind at 1.
    destruct (check_embeddings_model self w) as [[[]|e] wc] eqn:Ec.
    2:{ pose proof (check_embeddings_model_world self w) as Hc.
        rewrite Ec in Hc. simpl in Hc. subst wc.
        intros [= <- <-]. split; [apply scoped_nothing|].
        intros _. split; reflexivity. }
    pose proof (check_embeddings_model_world self w) as Hc.
    rewrite Ec in Hc. simpl in Hc. subst wc.
    intros Hm. split.
    2:{ intros Hmis.
        destruct (check_embeddings_model_mismatch self w Hmis) as [e He].
        rewrite He in Ec. discriminate. }
    revert Hm. rewrite Hroute.
    destruct (bool_decide (media_type samples = VIDEO)).
    + apply scoped_brackets, video_brackets.
    + apply scoped_negotiation.
      intros [b|]; [apply batch_brackets|apply single_brackets].
  - intros r w'. unfold compute_patch_embeddings. rewrite Hroute.
    destruct (negb (bool_decide (media_type samples = IMAGE))).
    { intros [= <- <-]. split; [apply scoped_nothing|].
      intros _. split; reflexivity. }
    unfold bind at 1.
    destruct (check_embeddings_model self w) as [[[]|e] wc] eqn:Ec.
    2:{ pose proof (check_embeddings_model_world self w) as Hc.
        rewrite Ec in Hc. simpl in Hc. subst wc.
        intros [= <- <-]. split; [apply scoped_nothing|].
        intros _. split; reflexivity. }
    pose proof (check_embeddings_model_world self w) as Hc.
    rewrite Ec in Hc. simpl in Hc. subst wc.
    intros Hm. split.
    2:{ intros Hmis.
        destruct (check_embeddings_model_mismatch self w Hmis) as [e He].
        rewrite He in Ec. discriminate. }
    revert Hm. unfold bind at 1. unfold lift at 1.
    destruct (validate_collection_label_fields env (schema samples)
                patches_field allowed_types) as [[]|e].
    2:{ intros [= <- <-]. apply scoped_nothing. }
    apply scoped_negotiation.
    intros b. apply with_model_brackets.
    + apply emits_for_acc. intros s d. apply emits_patch_step. exact at_work.
    + reflexivity.
Qed.

End EmbeddingsLifecycle.

Lemma model_lifecycle_bracketed_witness :
  isinstance_TorchModelMixin Demo.default_model = false /\
  scoped working Demo.world0
    (fst (compute_embeddings Demo.default_model (Demo.env None)
            (Demo.images [Demo.s1; Demo.s2]) (Some "emb") (Some 2) Demo.world0))
    (snd (compute_embeddings Demo.default_model (Demo.env None)
            (Demo.images [Demo.s1; Demo.s2]) (Some "emb") (Some 2) Demo.world0)).
Proof.
  split; [reflexivity|].
  apply (proj1 (model_lifecycle_bracketed Demo.default_model (Demo.env None)
                  (Demo.images [Demo.s1; Demo.s2]) "ground_truth" (Some "emb")
                  (Some 2) false None Demo.world0 eq_refl)).
  apply surjective_pairing.
Defined.

(** ** [apply_model]: the batched path against the single-item path *)

Section ApplyPaths.

Context {M : Type}.
Variable predictor : Predictor M.
Variable env : Env M.
Variable lenv : LabelEnv M.
Variable g : Media -> Label.
Variable label_field : string.
Variable confidence_thresh : option Q.
Hypothesis Hpredicts : predicts predictor g.

Local Abbreviation self := (as_model predictor).
Local Abbreviation outcome :=
  (labelled env lenv g label_field confidence_thresh).
Local Abbreviation add sample label :=
  (Apply.sample_add_labels lenv sample label label_field confidence_thresh
   : St (World M) unit).

Lemma labelled_app (l1 l2 : list Sample)
    (flds : gmap (string * string) FieldValue) :
  outcome (l1 ++ l2) flds =
    match outcome l1 flds with
    | (Ok _, flds1) => outcome l2 flds1
    | (Raise e, flds1) => (Raise e, flds1)
    end.
Proof.
  revert flds. induction l1 as [|s l1 IH]; intros flds; simpl;
    [reflexivity|].
  destruct (add_labels lenv s _ label_field confidence_thresh flds);
    [apply IH|reflexivity].
Qed.

Lemma predict_all_labels (args : list Media) (m : M) :
  fst (predict_all predictor args m) = Ok (map g args).
Proof.
  rewrite (proj2 Hpredicts). unfold Model_predict_all.
  revert m. induction args as [|arg args IH]; intros m; simpl;
    [reflexivity|].
  unfold bind, ret.
  pose proof (proj1 Hpredicts arg m) as H1.
  destruct (predict self arg m) as [r m1]. simpl in H1. subst r.
  specialize (IH m1).
  destruct (map_st (predict self) args m1) as [r m2]. simpl in IH. subst r.
  reflexivity.
Qed.

Lemma apply_single_loop (l : list Sample) (w : World M) :
  all_decode env l ->
  exists w',
    for_each (fun sample =>
        img <- read_image env (filepath sample) ;;
        label <- on_model (predict self (ImageArray img)) ;;
        add sample label) l w = (fst (outcome l (fields w)), w') /\
    fields w' = snd (outcome l (fields w)).
Proof.
  unfold for_each. revert w. induction l as [|s l IH]; intros w Hread;
    cbn [for_acc labelled].
  - exists w. split; reflexivity.
  - unfold bind at 1. unfold bind at 1.
    unfold read_image, bind, emit, lift, on_model. simpl.
    pose proof (Hread s ltac:(left)) as Hs. unfold decoded.
    destruct (etai_read env (filepath s)) as [img|x]; [|discriminate].
    pose proof (proj1 Hpredicts (ImageArray img) (model w)) as Hl.
    destruct (predict self (ImageArray img) (model w)) as [r m1].
    simpl in Hl. subst r. unfold Apply.sample_add_labels. simpl.
    destruct (add_labels lenv s (g (ImageArray img)) label_field
                confidence_thresh (fields w)) as [flds|e].
    + match goal with
      | |- context [for_acc ?body l tt ?w1] =>
          destruct (IH w1 ltac:(intros ? ?; apply Hread; now right))
            as (w' & Hrun & Hf);
          assert (Hrun' : for_acc body l tt w1 =
                    (fst (outcome l flds), w')) by exact Hrun;
          rewrite Hrun'
      end.
      exists w'. split; [reflexivity|exact Hf].
    + eexists. split; reflexivity.
Qed.

Lemma apply_inner_loop (c : list Sample) (w : World M) :
  exists w',
    for_each (fun '(sample, label) => add sample label)
      (zip c (map g (map ImageArray (map (decoded env) c)))) w
      = (fst (outcome c (fields w)), w') /\
    fields w' = snd (outcome c (fields w)).
Proof.
  unfold for_each. revert w. induction c as [|s c IH]; intros w;
    cbn [for_acc labelled map zip zip_with].
  - exists w. split; reflexivity.
  - unfold bind at 1. unfold Apply.sample_add_labels at 1.
    destruct (add_labels lenv s (g (ImageArray (decoded env s))) label_field
                confidence_thresh (fields w)) as [flds|e].
    + match goal with
      | |- context [for_acc ?body ?l tt ?w1] =>
          destruct (IH w1) as (w' & Hrun & Hf)
      end.
      exists w'. split; [exact Hrun|exact Hf].
    + eexists. split; reflexivity.
Qed.

Lemma apply_batch_loop (batches : list (list Sample)) (w : World M) :
  all_decode env (concat batches) ->
  exists w',
    for_each (fun sample_batch =>
        imgs <- map_st (fun sample => read_image env (filepath sample))
                  sample_batch ;;
        label_batch <- on_model (predict_all predictor (map ImageArray imgs)) ;;
        for_each (fun '(sample, label) => add sample label)
          (zip sample_batch label_batch)) batches w
      = (fst (outcome (concat batches) (fields w)), w') /\
    fields w' = snd (outcome (concat batches) (fields w)).
Proof.
  unfold for_each at 1. revert w.
  induction batches as [|c batches IH]; intros w Hread; cbn [for_acc concat].
  - exists w. split; reflexivity.
  - unfold bind at 1. unfold bind at 1.
    destruct (read_all_decoded env c w) as (w1 & Hr & Hf1).
    { intros s Hs. apply Hread. simpl. apply elem_of_app. now left. }
    rewrite Hr. unfold bind at 1. unfold on_model at 1.
    pose proof (predict_all_labels (map ImageArray (map (decoded env) c))
                  (model w1)) as Hl.
    destruct (predict_all predictor (map ImageArray (map (decoded env) c))
                (model w1)) as [r m1].
    simpl in Hl. subst r.
    match goal with
    | |- context [for_each ?body ?l ?w2] =>
        destruct (apply_inner_loop c w2) as (w3 & Hw & Hf3);
        assert (Hw' : for_each body l w2 = (fst (outcome c (fields w)), w3))
          by (rewrite <- Hf1; exact Hw);
        rewrite Hw'
    end.
    simpl in Hf3. rewrite Hf1 in Hf3.
    rewrite labelled_app.
    destruct (outcome c (fields w)) as [[[]|e] flds1] eqn:Ec; simpl in *.
    + destruct (IH w3) as (w' & Hrun & Hf).
      { intros s Hs. apply Hread. simpl. apply elem_of_app. now right. }
      rewrite Hf3 in Hrun, Hf.
      exists w'. split; [exact Hrun|exact Hf].
    + exists w3. split; [reflexivity|exact Hf3].
Qed.

Lemma with_model_fields {A} (body : St (World M) A) (w : World M) :
  fst (with_model self body w)
    = fst (body {| model := enter self (model w); fields := fields w;
                   trace := trace w ++ [EvEnter] |}) /\
  fields (snd (with_model self body w))
    = fields (snd (body {| model := enter self (model w); fields := fields w;
                           trace := trace w ++ [EvEnter] |})).
Proof. unfold with_model. now destruct (body _). Qed.

Local Abbreviation entered w :=
  {| model := enter self (model w); fields := fields w;
     trace := trace w ++ [EvEnter] |}.

Lemma apply_single_result (l : list Sample) (w : World M) :
  all_decode env l ->
  let single :=
    Apply._apply_image_model_single predictor env lenv l label_field
      confidence_thresh w in
  (fst single, fields (snd single)) = outcome l (fields w).
Proof.
  intros Hread single. subst single.
  unfold Apply._apply_image_model_single.
  match goal with
  | |- context [with_model self (for_each ?f l) w] =>
      destruct (with_model_fields (for_each f l) w) as (Hs1 & Hs2);
      destruct (apply_single_loop l (entered w) Hread) as (ws & Hsr & Hsf);
      assert (Hsr' : for_each f l (entered w)
                     = (fst (outcome l (fields w)), ws)) by exact Hsr
  end.
  rewrite Hs1, Hs2, Hsr'. cbn [fst snd]. rewrite Hsf. cbn [fields].
  now destruct (outcome l (fields w)).
Qed.

Lemma apply_batch_result (l : list Sample) (b : Z) (w : World M) :
  all_decode env l ->
  1 <= b ->
  let batch :=
    Apply._apply_image_model_batch predictor env lenv l label_field
      confidence_thresh b w in
  (fst batch, fields (snd batch)) = outcome l (fields w).
Proof.
  intros Hread Hb batch. subst batch.
  unfold Apply._apply_image_model_batch. cbv zeta.
  assert (Hc : concat (iter_batches l b) = l)
    by apply (iter_batches_partitions l b Hb).
  match goal with
  | |- context [with_model self (for_each ?f (iter_batches l b)) w] =>
      destruct (with_model_fields (for_each f (iter_batches l b)) w)
        as (Hb1 & Hb2);
      destruct (apply_batch_loop (iter_batches l b) (entered w))
        as (wb & Hbr & Hbf); [now rewrite Hc|];
      assert (Hbr' : for_each f (iter_batches l b) (entered w)
                     = (fst (outcome (concat (iter_batches l b)) (fields w)),
                        wb)) by exact Hbr
  end.
  rewrite Hb1, Hb2, Hbr'. cbn [fst snd]. rewrite Hbf, Hc. cbn [fields].
  now destruct (outcome l (fields w)).
Qed.

(** X7: for a model that keeps the default [predict_all] and whose
    [predict] gives a label that does not depend on the state of the
    model, and images that all decode, [_apply_image_model_batch] with any
    batch size from one up ends as [_apply_image_model_single] does: with
    the same outcome (both return, or both raise the same error of
    [add_labels]) and the same fields, those left by adding the label of
    each sample in the order of the collection up to the first error. *)
Theorem apply_paths_agree (l : list Sample) (b : Z) (w : World M) :
  all_decode env l ->
  1 <= b ->
  let single :=
    Apply._apply_image_model_single predictor env lenv l label_field
      confidence_thresh w in
  let batch :=
    Apply._apply_image_model_batch predictor env lenv l label_field
      confidence_thresh b w in
  fst batch = fst single /\
  fields (snd batch) = fields (snd single) /\
  (fst single, fields (snd single)) = outcome l (fields w).
Proof.
  intros Hread Hb single batch. subst single batch.
  pose proof (apply_single_result l w Hread) as Hs.
  pose proof (apply_batch_result l b w Hread Hb) as Hbt.
  cbv zeta in Hs, Hbt. rewrite <- Hs in Hbt.
  injection Hbt as H1 H2. repeat split; assumption.
Qed.

End ApplyPaths.

Lemma demo_predicts : predicts DemoApply.predictor DemoApply.classify.
Proof. split; intros; reflexivity. Defined.

Lemma apply_paths_agree_witness :
  1 <= 2 /\
  fst (Apply._apply_image_model_batch DemoApply.predictor (Demo.env None)
         DemoApply.lenv [Demo.s1; Demo.s2; Demo.s3] "predictions" None 2
         Demo.world0)
  = fst (Apply._apply_image_model_single DemoApply.predictor (Demo.env None)
           DemoApply.lenv [Demo.s1; Demo.s2; Demo.s3] "predictions" None
           Demo.world0).
Proof.
  assert (Hb : 1 <= 2) by lia.
  split; [exact Hb|].
  exact (proj1 (apply_paths_agree DemoApply.predictor (Demo.env None)
                  DemoApply.lenv DemoApply.classify "predictions" None
                  demo_predicts [Demo.s1; Demo.s2; Demo.s3] 2 Demo.world0
                  (demo_all_decode _) Hb)).
Defined.

(** ** [apply_model]: the life cycle of the model *)

Section ApplyLifecycle.

Context {M : Type}.
Variable predictor : Predictor M.
Variable env : Env M.
Variable lenv : LabelEnv M.

Local Abbreviation self := (as_model predictor).

Lemma emits_sample_add_labels (K : Event -> Prop) (sample : Sample)
    (label : Label) (label_field : string) (confidence_thresh : option Q) :
  emits K (Apply.sample_add_labels (M := M) lenv sample label label_field
             confidence_thresh).
Proof.
  apply emits_silent. intros w. unfold Apply.sample_add_labels.
  now destruct (add_labels lenv _ _ _ _ _).
Qed.

Lemma apply_single_brackets (l : list Sample) (label_field : string)
    (confidence_thresh : option Q) :
  brackets reading
    (Apply._apply_image_model_single predictor env lenv l label_field
       confidence_thresh).
Proof.
  apply with_model_alone_brackets. apply emits_for_acc. intros s [].
  apply emits_bind; [now apply emits_reading|]. intros img.
  apply emits_bind; [apply emits_on_model|]. intros label.
  apply emits_sample_add_labels.
Qed.

Lemma apply_batch_brackets (l : list Sample) (label_field : string)
    (confidence_thresh : option Q) (b : Z) :
  brackets reading
    (Apply._apply_image_model_batch predictor env lenv l label_field
       confidence_thresh b).
Proof.
  apply with_model_alone_brackets. apply emits_for_acc. intros c [].
  apply emits_bind.
  { apply emits_map_st. intros s. now apply emits_reading. }
  intros imgs. apply emits_bind; [apply emits_on_model|]. intros labels.
  apply emits_for_acc. intros [s label] []. apply emits_sample_add_labels.
Qed.

Lemma apply_video_brackets (l : list Sample) (label_field : string)
    (confidence_thresh : option Q) :
  brackets reading
    (Apply._apply_video_model predictor env lenv l label_field
       confidence_thresh).
Proof.
  apply with_model_alone_brackets. apply emits_for_acc. intros s [].
  apply emits_bind.
  { apply emits_video_scope; [exact I|exact I|].
    intros arg. apply emits_on_model. }
  intros label. apply emits_sample_add_labels.
Qed.

(** X8: on every run of [apply_model] outside the data-loader path, for
    images and for videos, whether it returns or raises.  Either the run
    raises and adds nothing to the trace.  Or the trace grows by: at most
    the warning of the batch-size negotiation, then one set-up of the
    model, then reads and videos opened and closed only (no embedding
    and no save), then one teardown, which is the last event.  A run that
    returns is of the second kind, also on an empty collection. *)
Theorem apply_model_lifecycle (samples : SampleCollection)
    (label_field : string) (confidence_thresh : option Q)
    (batch_size : option Z) (w : World M) (r : result unit) (w' : World M) :
  isinstance_TorchModelMixin self = false ->
  Apply.apply_model predictor env lenv samples label_field confidence_thresh
    batch_size w = (r, w') ->
  scoped reading w r w'.
Proof.
  intros Hroute. unfold Apply.apply_model. rewrite Hroute.
  destruct (bool_decide (media_type samples = VIDEO)).
  - apply scoped_brackets, apply_video_brackets.
  - apply scoped_negotiation.
    intros [b|]; [apply apply_batch_brackets|apply apply_single_brackets].
Qed.

End ApplyLifecycle.

Lemma apply_model_lifecycle_witness :
  isinstance_TorchModelMixin (as_model DemoApply.predictor) = false /\
  scoped reading Demo.world0
    (fst (Apply.apply_model DemoApply.predictor (Demo.env None) DemoApply.lenv
            (Demo.images [Demo.s1; Demo.s2]) "predictions" None (Some 2)
            Demo.world0))
    (snd (Apply.apply_model DemoApply.predictor (Demo.env None) DemoApply.lenv
            (Demo.images [Demo.s1; Demo.s2]) "predictions" None (Some 2)
            Demo.world0)).
Proof.
  split; [reflexivity|].
  apply (apply_model_lifecycle DemoApply.predictor (Demo.env None)
           DemoApply.lenv (Demo.images [Demo.s1; Demo.s2]) "predictions" None
           (Some 2) Demo.world0 _ _ eq_refl).
  apply surjective_pairing.
Defined.

(** ** [_merge_config] *)

Section MergeConfig.

Import Config.

Variable d : loc.

Lemma merge_config_cons (k : string) (v : pyval)
    (rest : list (string * pyval)) (h : store) :
  _merge_config d ((k, v) :: rest) h =
    match (match h d !! k with
           | Some (PDictRef target) => dict_update target v h
           | _ => dict_setitem d k v h
           end) with
    | (Ok _, h1) => _merge_config d rest h1
    | (Raise e, h1) => (Raise e, h1)
    end.
Proof.
  unfold _merge_config, for_each. cbn [for_acc]. unfold bind.
  cbv beta iota.
  destruct (h d !! k) as [[| | | |target]|]; try reflexivity.
  destruct v as [| | |s|source]; try destruct s; reflexivity.
Qed.

Lemma merge_targets_ext (h h1 : store) (rest : list (string * pyval)) :
  (forall k, k ∈ rest.*1 -> h1 d !! k = h d !! k) ->
  merge_targets h1 d rest = merge_targets h d rest.
Proof.
  induction rest as [|[k v] rest IH]; intros Hsame; [reflexivity|].
  unfold merge_targets in *. cbn [omap list_omap].
  rewrite (Hsame k) by (simpl; left).
  rewrite IH; [reflexivity|].
  intros k' Hk'. apply Hsame. simpl. now right.
Qed.

Lemma mergeable_ext (h h1 : store) (rest : list (string * pyval)) :
  (forall k, k ∈ rest.*1 -> h1 d !! k = h d !! k) ->
  forallb (mergeable h1 d) rest = forallb (mergeable h d) rest.
Proof.
  induction rest as [|[k v] rest IH]; intros Hsame; [reflexivity|].
  cbn [forallb]. unfold mergeable at 1 3. cbn [fst snd].
  rewrite (Hsame k) by (simpl; left).
  rewrite IH; [reflexivity|].
  intros k' Hk'. apply Hsame. simpl. now right.
Qed.

Lemma set_dict_same (l : loc) (entries : pydict) (h : store) :
  set_dict l entries h l = entries.
Proof. unfold set_dict. now rewrite decide_True. Qed.

Lemma set_dict_other (l l' : loc) (entries : pydict) (h : store) :
  l' <> l -> set_dict l entries h l' = h l'.
Proof. intros. unfold set_dict. now rewrite decide_False. Qed.

(** one turn of the loop on a dict object held under [k] *)
Lemma update_turn (target : loc) (v : pyval) (h : store) (r : result unit)
    (h1 : store) :
  dict_update target v h = (r, h1) ->
  (forall l, l <> target -> h1 l = h l) /\
  (r = Ok tt ->
     match v with
     | PDictRef source => h1 target = h source ∪ h target
     | _ => h1 = h
     end) /\
  is_ok r = match v with
            | PDictRef _ | PStr EmptyString => true
            | _ => false
            end.
Proof.
  destruct v as [| | |s|source]; try destruct s; cbn;
    intros [= <- <-]; repeat split; try discriminate; try reflexivity.
  - intros. now apply set_dict_other.
  - intros _. apply set_dict_same.
Qed.

(** what a turn of the loop keeps for the turns that follow *)
Lemma merge_turn (k : string) (v : pyval) (rest : list (string * pyval))
    (h : store) (r : result unit) (h1 : store) :
  plain_merge h d ((k, v) :: rest) ->
  (match h d !! k with
   | Some (PDictRef target) => dict_update target v h
   | _ => dict_setitem d k v h
   end) = (r, h1) ->
  (forall k', k' <> k -> h1 d !! k' = h d !! k') /\
  (forall l, l <> d -> l ∉ merge_targets h d ((k, v) :: rest) -> h1 l = h l) /\
  (r = Ok tt -> h1 d !! k = Some (merged_entry h d k v)) /\
  is_ok r = mergeable h d (k, v) /\
  merge_targets h1 d rest = merge_targets h d rest /\
  plain_merge h1 d rest.
Proof.
  intros [Hnd Hself] Hturn.
  apply NoDup_cons in Hnd as [Hk Hnd].
  unfold merged_entry, mergeable. cbn [fst snd].
  unfold merge_targets in Hself |- *. cbn [omap list_omap] in Hself |- *.
  fold (merge_targets h d rest) in Hself |- *.
  fold (merge_targets h1 d rest).
  assert (Hrest : (forall k', k' <> k -> h1 d !! k' = h d !! k') ->
                  merge_targets h1 d rest = merge_targets h d rest).
  { intros Hsame. apply merge_targets_ext. intros k' Hk'. apply Hsame.
    intros ->. exact (Hk Hk'). }
  destruct (h d !! k) as [[| | | |target]|] eqn:Ek;
    try (unfold dict_setitem in Hturn; injection Hturn as <- <-;
         assert (Hsame : forall k', k' <> k ->
                   set_dict d (<[k:=v]> (h d)) h d !! k' = h d !! k')
           by (intros k' Hk'; rewrite set_dict_same;
               now apply lookup_insert_ne);
         split; [exact Hsame|];
         split; [intros l Hl _; now apply set_dict_other|];
         split; [intros _; rewrite set_dict_same; apply lookup_insert_eq|];
         split; [reflexivity|];
         split; [now apply Hrest|];
         split; [exact Hnd|]; rewrite (Hrest Hsame); exact Hself).
  apply not_elem_of_cons in Hself as [Hd Hself].
  destruct (update_turn _ _ _ _ _ Hturn) as (Hframe & Hres & Hok).
  assert (Hsame : forall k', k' <> k -> h1 d !! k' = h d !! k')
    by (intros k' _; now rewrite Hframe).
  split; [exact Hsame|].
  split.
  { intros l Hl Hnt. apply not_elem_of_cons in Hnt as [Hnt _].
    now apply Hframe. }
  split; [intros _; now rewrite Hframe|].
  split; [exact Hok|].
  split; [now apply Hrest|].
  split; [exact Hnd|]. now rewrite (Hrest Hsame).
Qed.

Lemma merge_footprint (kwargs : list (string * pyval)) (h : store)
    (l : loc) :
  plain_merge h d kwargs ->
  l <> d -> l ∉ merge_targets h d kwargs ->
  snd (_merge_config d kwargs h) l = h l.
Proof.
  revert h. induction kwargs as [|[k v] rest IH]; intros h Hp Hl Hnt;
    [reflexivity|].
  rewrite merge_config_cons.
  destruct (match h d !! k with
            | Some (PDictRef target) => dict_update target v h
            | _ => dict_setitem d k v h
            end) as [r h1] eqn:Eturn.
  destruct (merge_turn _ _ _ _ _ _ Hp Eturn)
    as (_ & Hframe & _ & _ & Ht & Hp1).
  assert (Hnt1 : l ∉ merge_targets h d rest).
  { intros Hin. apply Hnt. unfold merge_targets in *. cbn [omap list_omap].
    destruct (h d !! k) as [[]|]; try exact Hin. now right. }
  destruct r as [[]|e]; cbn [snd].
  - rewrite IH; [now apply Hframe|exact Hp1|exact Hl|now rewrite Ht].
  - now apply Hframe.
Qed.

(** X10: after a merge that returns, [d] holds under every key of
    [kwargs] the dict object it held there before (the same object,
    updated in place), or else the value of [kwargs] itself, [None]
    included; under every other key it holds what it held, also when the
    merge raises. *)
Theorem merge_config_entries (kwargs : list (string * pyval)) (h : store) :
  plain_merge h d kwargs ->
  (forall j, j ∉ kwargs.*1 ->
     snd (_merge_config d kwargs h) d !! j = h d !! j) /\
  (fst (_merge_config d kwargs h) = Ok tt ->
   forall k v, (k, v) ∈ kwargs ->
     snd (_merge_config d kwargs h) d !! k = Some (merged_entry h d k v)).
Proof.
  revert h. induction kwargs as [|[k v] rest IH]; intros h Hp.
  { split; [reflexivity|]. intros _ k v Hin. inversion Hin. }
  rewrite merge_config_cons.
  destruct (match h d !! k with
            | Some (PDictRef target) => dict_update target v h
            | _ => dict_setitem d k v h
            end) as [r h1] eqn:Eturn.
  destruct (merge_turn _ _ _ _ _ _ Hp Eturn)
    as (Hsame & _ & Hk & _ & _ & Hp1).
  destruct (IH h1 Hp1) as (IHout & IHin).
  assert (Hfresh : k ∉ rest.*1)
    by (destruct Hp as [Hnd _]; now apply NoDup_cons in Hnd as [? _]).
  destruct r as [[]|e]; cbn [fst snd].
  - split.
    + intros j Hj. cbn in Hj. apply not_elem_of_cons in Hj as [Hjk Hj].
      rewrite IHout by exact Hj. now apply Hsame.
    + intros Hok k' v' Hin. apply elem_of_cons in Hin as [[= -> ->]|Hin].
      * rewrite IHout by exact Hfresh. now apply Hk.
      * rewrite (IHin Hok k' v' Hin). unfold merged_entry.
        rewrite Hsame; [reflexivity|]. intros ->. apply Hfresh.
        apply list_elem_of_fmap. now exists (k, v').
  - split; [|discriminate].
    intros j Hj. cbn in Hj. apply not_elem_of_cons in Hj as [Hjk Hj].
    now apply Hsame.
Qed.

Lemma merge_outcome (kwargs : list (string * pyval)) (h : store) :
  plain_merge h d kwargs ->
  is_ok (fst (_merge_config d kwargs h)) = forallb (mergeable h d) kwargs.
Proof.
  revert h. induction kwargs as [|[k v] rest IH]; intros h Hp;
    [reflexivity|].
  rewrite merge_config_cons.
  destruct (match h d !! k with
            | Some (PDictRef target) => dict_update target v h
            | _ => dict_setitem d k v h
            end) as [r h1] eqn:Eturn.
  destruct (merge_turn _ _ _ _ _ _ Hp Eturn)
    as (Hsame & _ & _ & Hok & _ & Hp1).
  assert (Hfresh : k ∉ rest.*1)
    by (destruct Hp as [Hnd _]; now apply NoDup_cons in Hnd as [? _]).
  cbn [forallb]. rewrite <- Hok.
  destruct r as [[]|e]; cbn [fst is_ok andb]; [|reflexivity].
  rewrite (IH h1 Hp1). apply mergeable_ext.
  intros k' Hk'. apply Hsame. intros ->. exact (Hfresh Hk').
Qed.

Lemma merge_one_level_entries (kwargs : list (string * pyval)) (h : store)
    (k : string) (source target : loc) :
  plain_merge h d kwargs ->
  NoDup (merge_targets h d kwargs) ->
  (k, PDictRef source) ∈ kwargs ->
  h d !! k = Some (PDictRef target) ->
  source ∉ merge_targets h d kwargs -> source <> d ->
  fst (_merge_config d kwargs h) = Ok tt ->
  snd (_merge_config d kwargs h) target = h source ∪ h target.
Proof.
  revert h. induction kwargs as [|[k0 v0] rest IH];
    intros h Hp Hnt Hin Hk Hsrc Hsd; [inversion Hin|].
  rewrite merge_config_cons.
  destruct (match h d !! k0 with
            | Some (PDictRef target) => dict_update target v0 h
            | _ => dict_setitem d k0 v0 h
            end) as [r h1] eqn:Eturn.
  destruct (merge_turn _ _ _ _ _ _ Hp Eturn)
    as (Hsame & Hframe & _ & _ & Ht & Hp1).
  assert (Hfresh : k0 ∉ rest.*1)
    by (destruct Hp as [Hnd _]; now apply NoDup_cons in Hnd as [? _]).
  assert (Htd : target <> d).
  { intros ->. destruct Hp as [_ Hself]. apply Hself.
    apply list_elem_of_omap. exists (k, PDictRef source).
    split; [exact Hin|]. now rewrite Hk. }
  destruct r as [[]|e]; cbn [fst snd]; [|discriminate]. intros Hok.
  apply elem_of_cons in Hin as [[= <- <-]|Hin].
  - (* the turn of [k] *)
    unfold merge_targets in Hnt. cbn [omap list_omap] in Hnt.
    rewrite Hk in Hnt. fold (merge_targets h d rest) in Hnt.
    apply NoDup_cons in Hnt as [Hnt _].
    rewrite merge_footprint;
      [|exact Hp1|exact Htd|now rewrite Ht].
    rewrite Hk in Eturn. cbn in Eturn. injection Eturn as <-.
    apply set_dict_same.
  - (* an earlier turn *)
    assert (Hkk : k <> k0).
    { intros ->. apply Hfresh. apply list_elem_of_fmap.
      now exists (k0, PDictRef source). }
    assert (Hrest : target ∈ merge_targets h d rest).
    { apply list_elem_of_omap. exists (k, PDictRef source).
      split; [exact Hin|]. now rewrite Hk. }
    assert (Hcons : merge_targets h d ((k0, v0) :: rest) =
                    match h d !! k0 with
                    | Some (PDictRef t0) => t0 :: merge_targets h d rest
                    | _ => merge_targets h d rest
                    end).
    { unfold merge_targets. cbn [omap list_omap].
      now destruct (h d !! k0) as [[]|]. }
    assert (Hh1 : h1 target = h target /\ h1 source = h source).
    { destruct (h d !! k0) as [[| | | |t0]|] eqn:E0;
        try (unfold dict_setitem in Eturn; injection Eturn as <-;
             split; now apply set_dict_other).
      rewrite Hcons in Hnt, Hsrc.
      apply NoDup_cons in Hnt as [Hnt _].
      apply not_elem_of_cons in Hsrc as [Hs0 _].
      destruct (update_turn _ _ _ _ _ Eturn) as (Hf & _ & _).
      split; apply Hf; [|exact Hs0]. intros ->. exact (Hnt Hrest). }
    destruct Hh1 as [Ht1 Hs1].
    rewrite <- Ht1, <- Hs1.
    apply IH; [exact Hp1| | | | | |exact Hok].
    + rewrite Ht. rewrite Hcons in Hnt.
      destruct (h d !! k0) as [[]|]; try exact Hnt.
      now apply NoDup_cons in Hnt as [_ ?].
    + exact Hin.
    + rewrite Hsame by exact Hkk. exact Hk.
    + rewrite Ht. rewrite Hcons in Hsrc.
      destruct (h d !! k0) as [[]|]; try exact Hsrc.
      now apply not_elem_of_cons in Hsrc as [_ ?].
    + exact Hsd.
Qed.

(** whatever [_merge_config] raises is an error of [dict.update] *)
Lemma merge_error_kind (kwargs : list (string * pyval)) (h : store)
    (e : exn) :
  fst (_merge_config d kwargs h) = Raise e ->
  exists msg, e = TypeError msg \/ e = ValueError msg.
Proof.
  revert h. induction kwargs as [|[k v] rest IH]; intros h; [discriminate|].
  rewrite merge_config_cons.
  destruct (h d !! k) as [[| | | |target]|];
    try (unfold dict_setitem; apply IH).
  destruct v as [| | |s|source]; try destruct s; cbn;
    try (intros [= <-]; eexists; now left);
    try (intros [= <-]; eexists; now right); apply IH.
Qed.

(** a dict that [d] holds stays where it is *)
Lemma merge_keeps_dicts (kwargs : list (string * pyval)) (h : store)
    (j : string) (target : loc) :
  plain_merge h d kwargs ->
  h d !! j = Some (PDictRef target) ->
  snd (_merge_config d kwargs h) d !! j = Some (PDictRef target).
Proof.
  revert h. induction kwargs as [|[k v] rest IH]; intros h Hp Hj;
    [exact Hj|].
  rewrite merge_config_cons.
  destruct (match h d !! k with
            | Some (PDictRef target) => dict_update target v h
            | _ => dict_setitem d k v h
            end) as [r h1] eqn:Eturn.
  destruct (merge_turn _ _ _ _ _ _ Hp Eturn)
    as (Hsame & _ & _ & _ & _ & Hp1).
  assert (Hj1 : h1 d !! j = Some (PDictRef target)).
  { destruct (decide (j = k)) as [->|Hjk]; [|now rewrite Hsame].
    rewrite Hj in Eturn.
    destruct (update_turn _ _ _ _ _ Eturn) as (Hframe & _ & _).
    rewrite Hframe; [exact Hj|].
    intros <-. destruct Hp as [_ Hself]. apply Hself.
    unfold merge_targets. cbn [omap list_omap]. rewrite Hj. left. }
  destruct r as [[]|e]; cbn [snd]; [now apply IH|exact Hj1].
Qed.

(** X11: [_merge_config] never replaces a dict of [d]: whether the merge
    returns or raises, [d] holds afterwards the dict objects it held, under
    the same keys.  When the value given for one of these keys is [None],
    a boolean, an integer or a string that is not empty, the merge raises
    a [TypeError] or a [ValueError]; when the value given for every such
    key is a dict, the merge returns. *)
Theorem merge_config_keeps_dicts (kwargs : list (string * pyval))
    (h : store) :
  plain_merge h d kwargs ->
  (forall j target,
     h d !! j = Some (PDictRef target) ->
     snd (_merge_config d kwargs h) d !! j = Some (PDictRef target)) /\
  ((exists kv, kv ∈ kwargs /\ mergeable h d kv = false) ->
   exists msg,
     fst (_merge_config d kwargs h) = Raise (TypeError msg) \/
     fst (_merge_config d kwargs h) = Raise (ValueError msg)) /\
  ((forall k v target,
      (k, v) ∈ kwargs -> h d !! k = Some (PDictRef target) ->
      exists source, v = PDictRef source) ->
   fst (_merge_config d kwargs h) = Ok tt).
Proof.
  intros Hp. split; [|split].
  - intros j target. now apply merge_keeps_dicts.
  - intros (kv & Hin & Hkv).
    pose proof (merge_outcome kwargs h Hp) as Hout.
    assert (Hall : forallb (mergeable h d) kwargs = false).
    { apply not_true_iff_false. intros Hall.
      rewrite forallb_forall in Hall.
      rewrite (Hall kv) in Hkv; [discriminate|].
      now apply list_elem_of_In. }
    rewrite Hall in Hout.
    destruct (fst (_merge_config d kwargs h)) as [[]|e] eqn:E;
      [discriminate|].
    destruct (merge_error_kind kwargs h e E) as (msg & [->| ->]);
      exists msg; [now left|now right].
  - intros Hdicts.
    pose proof (merge_outcome kwargs h Hp) as Hout.
    assert (Hall : forallb (mergeable h d) kwargs = true).
    { apply forallb_forall. intros [k v] Hin. unfold mergeable. cbn [fst snd].
      destruct (h d !! k) as [[| | | |target]|] eqn:Ek; try reflexivity.
      destruct (Hdicts k v target) as [source ->];
        [now apply list_elem_of_In|exact Ek|reflexivity]. }
    rewrite Hall in Hout.
    now destruct (fst (_merge_config d kwargs h)) as [[]|e].
Qed.

End MergeConfig.

(** X9: [_merge_config] modifies in place only [d] and the dict objects
    that [d] holds under the keys of [kwargs]: every other dict object,
    the values passed in [kwargs] among them, has the entries it had,
    whether the merge returns or raises. *)
Theorem merge_config_footprint (d : Config.loc)
    (kwargs : list (string * Config.pyval)) (h : Config.store)
    (l : Config.loc) :
  Config.plain_merge h d kwargs ->
  l <> d -> l ∉ Config.merge_targets h d kwargs ->
  snd (Config._merge_config d kwargs h) l = h l.
Proof. apply merge_footprint. Qed.

(** X12: the merge is one level deep.  When [d] holds the dict [target]
    under [k], [kwargs] gives the dict [source] for [k], no other key of
    [kwargs] refers to [target] and [source] is not itself merged into,
    then after a merge that returns [target] has every entry of [source],
    as it is in [source] (a dict of [source] replaces the dict [target]
    had under the same key), and otherwise the entries it had. *)
Theorem merge_config_one_level (d : Config.loc)
    (kwargs : list (string * Config.pyval)) (h : Config.store)
    (k : string) (source target : Config.loc) (j : string) :
  Config.plain_merge h d kwargs ->
  NoDup (Config.merge_targets h d kwargs) ->
  (k, Config.PDictRef source) ∈ kwargs ->
  h d !! k = Some (Config.PDictRef target) ->
  source ∉ Config.merge_targets h d kwargs -> source <> d ->
  fst (Config._merge_config d kwargs h) = Ok tt ->
  snd (Config._merge_config d kwargs h) target !! j
  = match h source !! j with
    | Some v => Some v
    | None => h target !! j
    end.
Proof.
  intros Hp Hnt Hin Hk Hsrc Hsd Hok.
  rewrite (merge_one_level_entries d kwargs h k source target
             Hp Hnt Hin Hk Hsrc Hsd Hok).
  rewrite lookup_union.
  now destruct (h source !! j), (h target !! j).
Qed.

Lemma demo_plain_merge :
  Config.plain_merge DemoConfig.store0 0%nat DemoConfig.kwargs0.
Proof.
  split; apply (bool_decide_unpack _); vm_compute; exact I.
Defined.

Lemma merge_config_footprint_witness :
  (2 <> 0 /\
   2 ∉ Config.merge_targets DemoConfig.store0 0%nat DemoConfig.kwargs0)%nat /\
  snd (Config._merge_config 0%nat DemoConfig.kwargs0 DemoConfig.store0) 2%nat
  = DemoConfig.store0 2%nat.
Proof.
  assert (H1 : (2 <> 0)%nat) by discriminate.
  assert (H2 : (2 ∉ Config.merge_targets DemoConfig.store0 0
                      DemoConfig.kwargs0)%nat)
    by (apply (bool_decide_unpack _); vm_compute; exact I).
  split; [exact (conj H1 H2)|].
  exact (merge_config_footprint 0%nat DemoConfig.kwargs0 DemoConfig.store0
           2%nat demo_plain_merge H1 H2).
Defined.

Lemma merge_config_entries_witness :
  fst (Config._merge_config 0%nat DemoConfig.kwargs0 DemoConfig.store0)
    = Ok tt /\
  snd (Config._merge_config 0%nat DemoConfig.kwargs0 DemoConfig.store0) 0%nat
    !! "opts" = Some (Config.PDictRef 1%nat) /\
  snd (Config._merge_config 0%nat DemoConfig.kwargs0 DemoConfig.store0) 0%nat
    !! "size" = Some Config.PNone.
Proof.
  assert (Hok : fst (Config._merge_config 0%nat DemoConfig.kwargs0
                       DemoConfig.store0) = Ok tt) by reflexivity.
  split; [exact Hok|].
  split.
  - apply (proj2 (merge_config_entries 0%nat DemoConfig.kwargs0
                    DemoConfig.store0 demo_plain_merge) Hok
             "opts" (Config.PDictRef 2%nat)).
    apply (bool_decide_unpack _). vm_compute. exact I.
  - apply (proj2 (merge_config_entries 0%nat DemoConfig.kwargs0
                    DemoConfig.store0 demo_plain_merge) Hok
             "size" Config.PNone).
    apply (bool_decide_unpack _). vm_compute. exact I.
Defined.

Lemma merge_config_keeps_dicts_witness :
  (Config.plain_merge DemoConfig.store0 0%nat
     [("name", Config.PDictRef 2%nat); ("opts", Config.PInt 1)] /\
   DemoConfig.store0 0%nat !! "opts" = Some (Config.PDictRef 1%nat)) /\
  snd (Config._merge_config 0%nat
         [("name", Config.PDictRef 2%nat); ("opts", Config.PInt 1)]
         DemoConfig.store0) 0%nat !! "opts" = Some (Config.PDictRef 1%nat).
Proof.
  assert (Hp : Config.plain_merge DemoConfig.store0 0%nat
                 [("name", Config.PDictRef 2%nat); ("opts", Config.PInt 1)])
    by (split; apply (bool_decide_unpack _); vm_compute; exact I).
  assert (Hd : DemoConfig.store0 0%nat !! "opts"
               = Some (Config.PDictRef 1%nat)) by reflexivity.
  split; [exact (conj Hp Hd)|].
  exact (proj1 (merge_config_keeps_dicts 0%nat _ DemoConfig.store0 Hp)
           "opts" 1%nat Hd).
Defined.

Lemma merge_config_one_level_witness :
  (NoDup (Config.merge_targets DemoConfig.store0 0%nat DemoConfig.kwargs0) /\
   ("opts", Config.PDictRef 2%nat) ∈ DemoConfig.kwargs0 /\
   DemoConfig.store0 0%nat !! "opts" = Some (Config.PDictRef 1%nat) /\
   (2 ∉ Config.merge_targets DemoConfig.store0 0 DemoConfig.kwargs0)%nat /\
   (2 <> 0)%nat) /\
  snd (Config._merge_config 0%nat DemoConfig.kwargs0 DemoConfig.store0) 1%nat
    !! "decay" = Some (Config.PDictRef 4%nat).
Proof.
  assert (H1 : NoDup (Config.merge_targets DemoConfig.store0 0%nat
                        DemoConfig.kwargs0))
    by (apply (bool_decide_unpack _); vm_compute; exact I).
  assert (H2 : ("opts", Config.PDictRef 2%nat) ∈ DemoConfig.kwargs0)
    by (apply (bool_decide_unpack _); vm_compute; exact I).
  assert (H3 : DemoConfig.store0 0%nat !! "opts"
               = Some (Config.PDictRef 1%nat)) by reflexivity.
  assert (H4 : (2 ∉ Config.merge_targets DemoConfig.store0 0
                      DemoConfig.kwargs0)%nat)
    by (apply (bool_decide_unpack _); vm_compute; exact I).
  assert (H5 : (2 <> 0)%nat) by discriminate.
  split; [exact (conj H1 (conj H2 (conj H3 (conj H4 H5))))|].
  exact (merge_config_one_level 0%nat DemoConfig.kwargs0 DemoConfig.store0
           "opts" 2%nat 1%nat "decay" demo_plain_merge H1 H2 H3 H4 H5
           eq_refl).
Defined.

(** ** VOC objects *)

Section RoundFacts.

Import VocAnnotation.

Lemma py_round_cases (q : Q) :
  let f := Qfloor q in
  (py_round q = f /\ (q - inject_Z f <= 1 # 2)%Q /\
   ((q - inject_Z f == 1 # 2)%Q -> Z.even f = true)) \/
  (py_round q = f + 1 /\ (1 # 2 <= q - inject_Z f)%Q /\
   ((q - inject_Z f == 1 # 2)%Q -> Z.even f = false)).
Proof.
  intros f. unfold py_round. fold f.
  destruct (Qcompare_spec (q - inject_Z f) (1 # 2)) as [He|Hl|Hg].
  - destruct (Z.even f) eqn:Ef.
    + left. split; [reflexivity|]. split; [|reflexivity].
      rewrite He. apply Qle_refl.
    + right. split; [reflexivity|]. split; [|reflexivity].
      rewrite He. apply Qle_refl.
  - left. split; [reflexivity|]. split; [now apply Qlt_le_weak|].
    intros He. rewrite He in Hl. now apply Qlt_irrefl in Hl.
  - right. split; [reflexivity|]. split; [now apply Qlt_le_weak|].
    intros He. rewrite He in Hg. now apply Qlt_irrefl in Hg.
Qed.

Lemma floor_bounds (q : Q) :
  (inject_Z (Qfloor q) <= q /\ q < inject_Z (Qfloor q) + 1)%Q.
Proof.
  split; [apply Qfloor_le|].
  pose proof (Qlt_floor q) as H. rewrite inject_Z_plus in H. exact H.
Qed.

Lemma py_round_mono (p q : Q) : (p <= q)%Q -> py_round p <= py_round q.
Proof.
  intros Hpq.
  pose proof (Qfloor_resp_le _ _ Hpq) as Hf.
  destruct (floor_bounds p) as [Hplo Hphi].
  destruct (floor_bounds q) as [Hqlo Hqhi].
  destruct (py_round_cases p) as [(-> & Hp & Hpe)|(-> & Hp & Hpe)];
    destruct (py_round_cases q) as [(-> & Hq & Hqe)|(-> & Hq & Hqe)];
    try lia.
  destruct (Z.eq_dec (Qfloor p) (Qfloor q)) as [E|E]; [|lia].
  exfalso. rewrite E in *.
  assert (Hp2 : (p - inject_Z (Qfloor q) == 1 # 2)%Q) by lra.
  assert (Hq2 : (q - inject_Z (Qfloor q) == 1 # 2)%Q) by lra.
  rewrite (Hpe Hp2) in Hqe. now specialize (Hqe Hq2).
Qed.

Lemma py_round_integer (q : Q) (n : Z) : (q == inject_Z n)%Q -> py_round q = n.
Proof.
  intros Hq.
  assert (Hf : Qfloor q = n) by (rewrite Hq; apply Qfloor_Z).
  destruct (py_round_cases q) as [(-> & _)|(_ & Hr & _)]; [exact Hf|].
  rewrite Hf in Hr. lra.
Qed.

End RoundFacts.

Section VocObjects.

Import Voc VocAnnotation.

Lemma inject_Z_nonneg (n : Z) : 0 <= n -> (0 <= inject_Z n)%Q.
Proof. intros H. rewrite Zle_Qle in H. exact H. Qed.

Lemma py_round_scaled (p q : Q) (n : Z) :
  0 <= n -> (0 <= p)%Q -> (p <= q)%Q -> (q <= 1)%Q ->
  0 <= py_round (p * inject_Z n) <= py_round (q * inject_Z n) /\
  py_round (q * inject_Z n) <= n.
Proof.
  intros Hn Hp Hpq Hq. pose proof (inject_Z_nonneg n Hn) as Hn'.
  assert (H0 : (0 <= p * inject_Z n)%Q) by now apply Qmult_le_0_compat.
  assert (H1 : (p * inject_Z n <= q * inject_Z n)%Q)
    by now apply Qmult_le_compat_r.
  assert (H2 : (q * inject_Z n <= inject_Z n)%Q).
  { rewrite <- (Qmult_1_l (inject_Z n)) at 2. now apply Qmult_le_compat_r. }
  apply py_round_mono in H0, H1, H2.
  rewrite (py_round_integer 0 0) in H0 by reflexivity.
  rewrite (py_round_integer (inject_Z n) n) in H2 by reflexivity.
  lia.
Qed.

Lemma from_detection_normalized (detection : Detection) (frame_size : Z * Z) :
  normalized detection ->
  0 <= frame_size.1 -> 0 <= frame_size.2 ->
  in_frame (from_detection detection frame_size) frame_size.
Proof.
  destruct detection as [lbl [[[x y] w] h]], frame_size as [W H].
  unfold normalized, in_frame, from_detection. cbn.
  intros (Hx & Hy & Hw & Hh & Hxw & Hyh) HW HH.
  destruct (py_round_scaled x (x + w) W HW Hx) as (Hx1 & Hx2);
    [lra|lra|].
  destruct (py_round_scaled y (y + h) H HH Hy) as (Hy1 & Hy2);
    [lra|lra|].
  repeat split; lia.
Qed.

(** X13: the corners that [from_detection] gives to a detection whose box
    lies in the unit square lie in the frame, with the top-left corner
    before the bottom-right one: [0 <= xmin <= xmax <= width] and
    [0 <= ymin <= ymax <= height]. *)
Theorem from_detection_in_frame (detection : Detection) (frame_size : Z * Z) :
  normalized detection ->
  0 <= frame_size.1 -> 0 <= frame_size.2 ->
  in_frame (from_detection detection frame_size) frame_size.
Proof. apply from_detection_normalized. Qed.

(** X15: when the box of a detection falls on whole pixels of the frame,
    [from_detection] gives exactly these pixels: nothing is lost by
    rounding. *)
Theorem from_detection_pixel_aligned (detection : Detection)
    (frame_size : Z * Z) (a b c e : Z) :
  pixel_aligned detection frame_size a b c e ->
  from_detection detection frame_size =
    {| name := label detection; xmin := a; ymin := b; xmax := c; ymax := e;
       pose := None; truncated := None; difficult := None |}.
Proof.
  destruct detection as [lbl [[[x y] w] h]], frame_size as [W H].
  unfold pixel_aligned, from_detection. cbn.
  intros (Ha & Hb & Hc & He).
  now rewrite (py_round_integer _ _ Ha), (py_round_integer _ _ Hb),
    (py_round_integer _ _ Hc), (py_round_integer _ _ He).
Qed.

End VocObjects.

Section AnnotationWriter.

Import Voc VocAnnotation.

Variable render : Annotation -> string.
Variable write_file : string -> string -> result unit.

Lemma described (frame_size : Z * Z) (detection : Detection) :
  normalized detection ->
  0 <= frame_size.1 -> 0 <= frame_size.2 ->
  object_entry frame_size detection
    (to_dict (from_detection detection frame_size)).
Proof.
  intros Hn HW HH.
  pose proof (from_detection_normalized detection frame_size Hn HW HH)
    as (Hx1 & Hx2 & Hy1 & Hy2).
  destruct detection as [lbl [[[x y] w] h]], frame_size as [W H].
  unfold object_entry, from_detection in *. cbn in *.
  repeat (split; [reflexivity|]).
  eexists _, _, _, _.
  split; [repeat split; reflexivity|].
  split; split; assumption.
Qed.

(** X16: a run of [write_annotation] that returns has written to
    [xml_path] the template rendered with the height and the width of the
    image and with one object per detection, in the order of the
    detections; for detections whose boxes lie in the unit square, every
    object carries the label of its detection, corners within the image
    and empty [pose], [truncated] and [difficult].  A run that raises (an
    image of fewer than two dimensions, or a write that fails) leaves the
    files as they were. *)
Theorem write_annotation_objects (img : ndarray) (detections : list Detection)
    (img_path xml_path : string) (files : gmap string string) :
  Forall normalized detections ->
  let run :=
    write_annotation render write_file img detections img_path xml_path
      files in
  (fst run = Ok tt ->
   exists a,
     snd run = <[xml_path := render a]> files /\
     Z.of_nat <$> take 2 (shape img) = [height a; width a] /\
     Forall2 (object_entry (width a, height a)) detections (objects a)) /\
  (fst run <> Ok tt -> snd run = files).
Proof.
  intros Hn run. subst run. unfold write_annotation.
  destruct (shape img) as [|h [|w rest]];
    try (split; [discriminate|reflexivity]).
  unfold bind, lift.
  destruct (write_file _ xml_path) as [[]|e];
    [|split; [discriminate|reflexivity]].
  cbn [fst snd]. split; [|congruence]. intros _.
  eexists. split; [reflexivity|]. cbn [height width objects].
  split; [reflexivity|].
  induction Hn as [|d l Hd Hl IH]; cbn [map]; constructor; [|exact IH].
  apply described; [exact Hd| |]; cbn; lia.
Qed.

End AnnotationWriter.

Lemma demo_boxes_normalized : Forall normalized [Demo.box; Demo.box2].
Proof.
  repeat constructor; cbn; unfold Qle; cbn; lia.
Defined.

Lemma from_detection_in_frame_witness :
  (normalized Demo.box /\ 0 <= 640 /\ 0 <= 480) /\
  VocAnnotation.in_frame (VocAnnotation.from_detection Demo.box (640, 480))
    (640, 480).
Proof.
  assert (H1 : normalized Demo.box)
    by (repeat split; unfold Qle; cbn; lia).
  assert (H2 : 0 <= 640) by lia.
  assert (H3 : 0 <= 480) by lia.
  split; [exact (conj H1 (conj H2 H3))|].
  exact (from_detection_in_frame Demo.box (640, 480) H1 H2 H3).
Defined.

Lemma from_detection_pixel_aligned_witness :
  VocAnnotation.pixel_aligned Demo.box (640, 480) 64 48 192 144 /\
  VocAnnotation.xmax (VocAnnotation.from_detection Demo.box (640, 480)) = 192.
Proof.
  assert (H : VocAnnotation.pixel_aligned Demo.box (640, 480) 64 48 192 144)
    by (repeat split; reflexivity).
  split; [exact H|].
  exact (f_equal VocAnnotation.xmax
           (from_detection_pixel_aligned Demo.box (640, 480) 64 48 192 144 H)).
Defined.

Lemma write_annotation_objects_witness :
  Forall normalized [Demo.box; Demo.box2] /\
  exists a,
    snd (VocAnnotation.write_annotation DemoVoc.render DemoVoc.write_file
           (Demo.blank_image 4 6) [Demo.box; Demo.box2] "out/data/a.jpg"
           "out/labels/a.xml" ∅)
    = <["out/labels/a.xml" := DemoVoc.render a]> ∅ /\
    Z.of_nat <$> take 2 (shape (Demo.blank_image 4 6))
    = [VocAnnotation.height a; VocAnnotation.width a] /\
    Forall2 (VocAnnotation.object_entry
               (VocAnnotation.width a, VocAnnotation.height a))
      [Demo.box; Demo.box2] (VocAnnotation.objects a).
Proof.
  split; [exact demo_boxes_normalized|].
  exact (proj1 (write_annotation_objects DemoVoc.render DemoVoc.write_file
                  (Demo.blank_image 4 6) [Demo.box; Demo.box2]
                  "out/data/a.jpg" "out/labels/a.xml" ∅
                  demo_boxes_normalized) eq_refl).
Defined.

(** ** The paths of the annotations *)

Section AnnotationPaths.

Import Voc VocAnnotation.

Local Notation "s +++ t" := (String.append s t)
  (at level 60, right associativity).
Local Abbreviation len s := (Z.of_nat (String.length s)).
Local Abbreviation no_sep s := (rfind "/" s = -1).

Lemma rfind_lb (c : ascii) (s : string) : -1 <= rfind c s.
Proof.
  induction s as [|d s IH]; cbn [rfind]; [lia|].
  destruct (Z.leb_spec 0 (rfind c s)); [lia|]. destruct (Ascii.eqb d c); lia.
Qed.

Lemma append_nil_l (t : string) : EmptyString +++ t = t.
Proof. reflexivity. Qed.

Lemma append_cons (c : ascii) (s t : string) :
  String c s +++ t = String c (s +++ t).
Proof. reflexivity. Qed.

Lemma rfind_app (c : ascii) (s t : string) :
  rfind c (s +++ t) =
    if 0 <=? rfind c t then len s + rfind c t else rfind c s.
Proof.
  induction s as [|d s IH]; rewrite ?append_cons, ?append_nil_l;
    cbn [rfind String.length].
  - pose proof (rfind_lb c t). destruct (Z.leb_spec 0 (rfind c t)); lia.
  - rewrite IH. destruct (Z.leb_spec 0 (rfind c t)); [|reflexivity].
    destruct (Z.leb_spec 0 (len s + rfind c t)); lia.
Qed.

Lemma no_sep_cons (c : ascii) (s : string) :
  no_sep (String c s) <-> Ascii.eqb c "/" = false /\ no_sep s.
Proof.
  cbn [rfind]. pose proof (rfind_lb "/" s).
  destruct (Z.leb_spec 0 (rfind "/" s)).
  - split; [lia|]. intros [_ ?]. lia.
  - destruct (Ascii.eqb c "/"); split; try lia; try (intros [? ?]; lia);
      try (intros [? _]; discriminate).
Qed.

Lemma append_assoc (s t u : string) : (s +++ t) +++ u = s +++ t +++ u.
Proof.
  induction s as [|c s IH]; [reflexivity|].
  rewrite !append_cons. now rewrite IH.
Qed.

Lemma str_drop_app (s t : string) : str_drop (String.length s) (s +++ t) = t.
Proof. induction s as [|c s IH]; [now destruct t|exact IH]. Qed.

Lemma str_take_app (s t : string) : str_take (String.length s) (s +++ t) = s.
Proof.
  induction s as [|c s IH]; [now destruct t|].
  rewrite append_cons. cbn [String.length str_take]. now rewrite IH.
Qed.

Lemma str_drop_snoc (s : string) (c : ascii) (t : string) :
  str_drop (S (String.length s)) (s +++ String c t) = t.
Proof. induction s as [|d s IH]; [reflexivity|exact IH]. Qed.

Lemma str_take_snoc (s : string) (c : ascii) (t : string) :
  str_take (S (String.length s)) (s +++ String c t) = s +++ String c EmptyString.
Proof.
  induction s as [|d s IH]; [now destruct t|].
  rewrite !append_cons.
  change (String d (str_take (S (String.length s)) (s +++ String c t))
          = String d (s +++ String c EmptyString)).
  now rewrite IH.
Qed.

Lemma basename_no_sep (p : string) : no_sep (basename p).
Proof.
  unfold basename. induction p as [|d p IH]; [reflexivity|].
  cbn [rfind]. pose proof (rfind_lb "/" p).
  destruct (Z.leb_spec 0 (rfind "/" p)).
  - replace (Z.to_nat (rfind "/" p + 1 + 1))
      with (S (Z.to_nat (rfind "/" p + 1))) by lia.
    exact IH.
  - assert (Hp : no_sep p) by lia.
    destruct (Ascii.eqb d "/") eqn:Ed; cbn [Z.add Z.to_nat Pos.to_nat
      Pos.iter_op str_drop]; [exact Hp|].
    apply no_sep_cons. now split.
Qed.

Lemma str_take_no_sep (n : nat) (s : string) :
  no_sep s -> no_sep (str_take n s).
Proof.
  revert s. induction n as [|n IH]; intros [|c s] Hs; try reflexivity.
  apply no_sep_cons in Hs as [Hc Hs]. cbn [str_take].
  apply no_sep_cons. split; [exact Hc|now apply IH].
Qed.

Lemma name_of_no_sep (p : string) : no_sep (name_of p +++ ".xml").
Proof.
  rewrite rfind_app. cbn [rfind Ascii.eqb]. cbn.
  unfold name_of, splitext.
  pose proof (basename_no_sep p) as Hb.
  destruct (_ <? _); [|exact Hb].
  destruct (all_dots _); [exact Hb|]. cbn [fst].
  now apply str_take_no_sep.
Qed.

Lemma rfind_ends (s : string) :
  ends_with_sep s = true -> rfind "/" s = len s - 1.
Proof.
  induction s as [|c s IH]; [discriminate|].
  destruct s as [|c' s].
  - cbn. intros ->. reflexivity.
  - intros H. change (ends_with_sep (String c' s) = true) in H.
    specialize (IH H). cbn [rfind] in IH |- *.
    cbn [rfind]. rewrite IH.
    destruct (Z.leb_spec 0 (len (String c' s) - 1));
      cbn [String.length] in *; lia.
Qed.

Lemma ends_with_sep_snoc (s : string) : ends_with_sep (s +++ "/") = true.
Proof.
  induction s as [|c s IH]; [reflexivity|].
  rewrite append_cons. destruct (s +++ "/") eqn:E; [|exact IH].
  now destruct s.
Qed.

Lemma leaf_no_end (pre leaf : string) :
  leaf <> EmptyString -> no_sep leaf -> ends_with_sep (pre +++ leaf) = false.
Proof.
  intros Hne Hs. induction pre as [|c pre IH].
  - rewrite append_nil_l. clear Hne.
    induction leaf as [|c leaf IH]; [reflexivity|].
    apply no_sep_cons in Hs as [Hc Hs].
    destruct leaf as [|c' leaf]; [exact Hc|]. now apply IH.
  - rewrite append_cons. destruct (pre +++ leaf) eqn:E; [|exact IH].
    destruct pre; [|discriminate]. now destruct leaf.
Qed.

Lemma all_seps_leaf (pre leaf t : string) :
  leaf <> EmptyString -> no_sep leaf -> all_seps (pre +++ leaf +++ t) = false.
Proof.
  intros Hne Hs. induction pre as [|c pre IH].
  - destruct leaf as [|c leaf]; [congruence|].
    apply no_sep_cons in Hs as [Hc _].
    rewrite append_nil_l, append_cons. cbn [all_seps]. now rewrite Hc.
  - rewrite append_cons. cbn [all_seps]. rewrite IH. apply andb_false_r.
Qed.

Lemma rstrip_leaf (pre leaf : string) :
  leaf <> EmptyString -> no_sep leaf ->
  rstrip_sep (pre +++ leaf +++ "/") = pre +++ leaf.
Proof.
  intros Hne Hs. induction pre as [|c pre IH].
  - rewrite append_nil_l. clear Hne.
    induction leaf as [|c leaf IH]; [reflexivity|].
    apply no_sep_cons in Hs as [Hc Hs].
    rewrite append_cons. cbn [rstrip_sep all_seps]. rewrite Hc. cbn [andb].
    now rewrite IH.
  - pose proof (all_seps_leaf (String c pre) leaf "/" Hne Hs) as Ha.
    rewrite append_cons in Ha |- *. cbn [rstrip_sep]. rewrite Ha.
    now rewrite IH.
Qed.

(** [os.path.join] puts a name without separator after a separator or at
    the start *)
Lemma join_leaf (dir leaf : string) :
  leaf <> EmptyString -> no_sep leaf ->
  exists pre, join dir leaf = pre +++ leaf /\
              (pre = EmptyString \/ ends_with_sep pre = true).
Proof.
  intros Hne Hs. unfold join.
  destruct leaf as [|c leaf]; [congruence|].
  pose proof (proj1 (no_sep_cons _ _) Hs) as [Hc _].
  cbn [starts_with_sep]. rewrite Hc.
  destruct (ends_with_sep dir) eqn:Ee; cbn [orb].
  - exists dir. split; [reflexivity|now right].
  - destruct (bool_decide_reflect (dir = EmptyString)) as [->|Hd].
    + exists EmptyString. split; [reflexivity|now left].
    + exists (dir +++ "/"). split.
      * now rewrite append_assoc.
      * right. apply ends_with_sep_snoc.
Qed.

Lemma basename_leaf (pre leaf : string) :
  pre = EmptyString \/ ends_with_sep pre = true -> no_sep leaf ->
  basename (pre +++ leaf) = leaf.
Proof.
  intros Hpre Hs. unfold basename. rewrite rfind_app, Hs. cbn [Z.leb Z.compare].
  destruct Hpre as [->|He]; [reflexivity|].
  rewrite (rfind_ends _ He).
  replace (Z.to_nat (len pre - 1 + 1)) with (String.length pre) by lia.
  apply str_drop_app.
Qed.

(** a file [f] put by [os.path.join] into a directory that [os.path.join]
    made with the name [leaf] *)
Lemma joined_paths (dir leaf f : string) :
  leaf <> EmptyString -> no_sep leaf -> no_sep f ->
  basename (join (join dir leaf) f) = f /\
  basename (dirname (join (join dir leaf) f)) = leaf.
Proof.
  intros Hne Hs Hf.
  destruct (join_leaf dir leaf Hne Hs) as (pre & -> & Hpre).
  assert (Hj : join (pre +++ leaf) f = (pre +++ leaf) +++ String "/" f).
  { unfold join.
    assert (Hst : starts_with_sep f = false).
    { destruct f as [|c f]; [reflexivity|].
      now apply no_sep_cons in Hf as [Hc _]. }
    rewrite Hst, (leaf_no_end pre leaf Hne Hs). cbn [orb].
    destruct (bool_decide_reflect (pre +++ leaf = EmptyString)) as [E|_];
      [|reflexivity].
    destruct pre; [|discriminate]. rewrite append_nil_l in E. congruence. }
  rewrite Hj.
  assert (Hr : rfind "/" ((pre +++ leaf) +++ String "/" f)
               = len (pre +++ leaf)).
  { rewrite rfind_app. cbn [rfind]. rewrite Hf. cbn [Z.leb Z.compare].
    cbn. lia. }
  assert (Hn : Z.to_nat (len (pre +++ leaf) + 1)
               = S (String.length (pre +++ leaf))) by lia.
  split.
  - unfold basename. rewrite Hr, Hn. apply str_drop_snoc.
  - unfold dirname. rewrite Hr, Hn, str_take_snoc, append_assoc.
    pose proof (all_seps_leaf pre leaf "/" Hne Hs) as Ha. rewrite Ha.
    destruct (bool_decide_reflect (pre +++ leaf +++ "/" = EmptyString))
      as [E|_]; [rewrite E in Ha; discriminate|].
    cbn [negb andb]. rewrite (rstrip_leaf pre leaf Hne Hs).
    now apply basename_leaf.
Qed.

End AnnotationPaths.

Lemma annotation_of_path (data_dir labels_dir : string) (paths : list string)
    (ip xp : string) :
  Voc.AnnotationWritten ip xp
    ∈ concat (map (original_events data_dir labels_dir) paths) ->
  exists p, p ∈ paths /\
            ip = Voc.join data_dir (Voc.basename p) /\
            xp = Voc.join labels_dir (String.append (name_of p) ".xml").
Proof.
  intros Hin. apply list_elem_of_In, in_concat in Hin as (evs & Hevs & Hev).
  apply in_map_iff in Hevs as (p & <- & Hp).
  exists p. split; [now apply list_elem_of_In|].
  destruct Hev as [E|[E|[E|[]]]]; try discriminate.
  now injection E as <- <-.
Qed.

(** X17: every annotation that [export_voc_detection_dataset] writes,
    whether the export returns or raises, belongs to one of the paths it
    iterates over: the image path given to [write_annotation] has the base
    filename of that path and lies in a directory named [data], so that
    the annotation names the original file and the folder [data]; the
    XML file has the name of that path with the extension [.xml] and lies
    in a directory named [labels]. *)
Theorem export_annotation_paths (fs : Voc.FsEnv) (image_paths : list string)
    (labels : list (list Detection)) (dataset_dir : string)
    (r : result unit) (t : list Voc.FsEvent) (ip xp : string) :
  Voc.export_voc_detection_dataset fs image_paths labels dataset_dir []
    = (r, t) ->
  Voc.AnnotationWritten ip xp ∈ t ->
  exists p,
    p ∈ iterated image_paths labels /\
    (Voc.basename ip = Voc.basename p /\
     Voc.basename (VocAnnotation.dirname ip) = "data") /\
    (Voc.basename xp = String.append (name_of p) ".xml" /\
     Voc.basename (VocAnnotation.dirname xp) = "labels").
Proof.
  rewrite export_unfold. cbv zeta.
  destruct (for_acc _ _ _ _) as [rc t1] eqn:E. intros Hrun Hin.
  assert (Ht : t1 = t) by (destruct rc; congruence). subst t1.
  destruct (export_loop_events _ _ _ _ _ _ _ _ counted_empty E)
    as (tn & -> & Hs).
  apply elem_of_app in Hin as [Hin|Hin].
  { apply elem_of_cons in Hin as [Hin|Hin]; [discriminate|].
    apply elem_of_cons in Hin as [Hin|Hin]; [discriminate|].
    inversion Hin. }
  pose proof (elem_of_sublist _ _ _ Hin Hs) as Hev.
  apply annotation_of_path in Hev as (p & Hp & -> & ->).
  exists p. split; [exact Hp|]. split.
  - apply joined_paths; [discriminate|reflexivity|apply basename_no_sep].
  - apply joined_paths; [discriminate|reflexivity|apply name_of_no_sep].
Qed.

Lemma export_annotation_paths_witness :
  (Voc.export_voc_detection_dataset Demo.fs ["/x/a.jpg"; "/y/b.png"]
     [[Demo.box]; []] "out" []
   = (Ok tt, export_events "out" ["/x/a.jpg"; "/y/b.png"]) /\
   Voc.AnnotationWritten "out/data/b.png" "out/labels/b.xml"
     ∈ export_events "out" ["/x/a.jpg"; "/y/b.png"]) /\
  exists p,
    p ∈ iterated ["/x/a.jpg"; "/y/b.png"] [[Demo.box]; []] /\
    (Voc.basename "out/data/b.png" = Voc.basename p /\
     Voc.basename (VocAnnotation.dirname "out/data/b.png") = "data") /\
    (Voc.basename "out/labels/b.xml" = String.append (name_of p) ".xml" /\
     Voc.basename (VocAnnotation.dirname "out/labels/b.xml") = "labels").
Proof.
  assert (H1 : Voc.export_voc_detection_dataset Demo.fs
                 ["/x/a.jpg"; "/y/b.png"] [[Demo.box]; []] "out" []
               = (Ok tt, export_events "out" ["/x/a.jpg"; "/y/b.png"]))
    by (vm_compute; reflexivity).
  assert (H2 : Voc.AnnotationWritten "out/data/b.png" "out/labels/b.xml"
                 ∈ export_events "out" ["/x/a.jpg"; "/y/b.png"])
    by (vm_compute; repeat (try (left; fail); right); left).
  split; [exact (conj H1 H2)|].
  exact (export_annotation_paths Demo.fs _ _ _ _ _ _ _ H1 H2).
Defined.

(** ** The entry points, whatever the batch size *)

Section AnyBatchSize.

Context {M : Type}.
Variable self : ModelClass M.
Variable env : Env M.

(** the negotiation of a valid batch size returns a valid batch size, and
    writes no field *)
Lemma parse_batch_size_valid (batch_size : option Z) (w : World M) :
  is_ok (ragged_batches self (model w)) = true ->
  valid_negotiation (resolved_batch_size env batch_size) ->
  exists r w1,
    _parse_batch_size self env batch_size w = (Ok r, w1) /\
    fields w1 = fields w /\ valid_negotiation r.
Proof.
  intros Hr Hv. unfold _parse_batch_size.
  fold (resolved_batch_size env batch_size).
  destruct (resolved_batch_size env batch_size) as [n|];
    [|exists None, w; repeat split; now left].
  destruct (1 <? n); [|exists (Some n), w; repeat split; exact Hv].
  unfold bind. rewrite on_model_pure.
  destruct (ragged_batches self (model w)) as [[|]|e]; [| |discriminate].
  - eexists None, _. repeat split. now left.
  - exists (Some n), w. repeat split. exact Hv.
Qed.

(** X18: for a model whose [embed_all] returns, for every item, the row
    that [embed] returns under its batch axis, [compute_embeddings] on a
    collection of images that is not empty, with no [embeddings_field],
    returns one row per sample in the order of the samples, and writes no
    field, whatever the batch size asked for or configured (none, or one
    from one up) and whether or not the model supports batching. *)
Theorem compute_embeddings_any_batch_size (f : Media -> ndarray)
    (sh : list nat) (samples : SampleCollection) (batch_size : option Z)
    (w : World M) :
  row_consistent self f ->
  isinstance_EmbeddingsMixin self = true ->
  has_embeddings self (model w) = Ok true ->
  isinstance_TorchModelMixin self = false ->
  media_type samples = IMAGE ->
  is_ok (ragged_batches self (model w)) = true ->
  valid_negotiation (resolved_batch_size env batch_size) ->
  sample_list samples <> [] ->
  all_decode env (sample_list samples) ->
  (forall s, s ∈ sample_list samples -> shape (sample_row env f s) = sh) ->
  let run := compute_embeddings self env samples None batch_size w in
  fst run = Ok (Some (NDArray (map (sample_row env f) (sample_list samples))))
  /\ fields (snd run) = fields w.
Proof.
  intros Hc Hi Hh Hroute Himg Hr Hv Hne Hread Hsh run. subst run.
  assert (Hrun : exists w1, fields w1 = fields w /\
            (compute_embeddings self env samples None batch_size w
             = _compute_image_embeddings_single self env
                 (sample_list samples) None w1 \/
             exists n, 1 <= n /\
               compute_embeddings self env samples None batch_size w
               = _compute_image_embeddings_batch self env
                   (sample_list samples) None n w1)).
  { assert (E : compute_embeddings self env samples None batch_size w
                 = (b <- _parse_batch_size self env batch_size ;;
                    match b with
                    | Some b =>
                        _compute_image_embeddings_batch self env
                          (sample_list samples) None b
                    | None =>
                        _compute_image_embeddings_single self env
                          (sample_list samples) None
                    end) w).
    { unfold compute_embeddings. unfold bind at 1.
      rewrite (check_embeddings_model_ok self w Hi Hh), Himg, Hroute.
      now rewrite bool_decide_eq_false_2 by discriminate. }
    rewrite E. unfold bind.
    destruct (parse_batch_size_valid batch_size w Hr Hv)
      as (r & w1 & -> & Hf & [->|(n & -> & Hn)]); exists w1;
      (split; [exact Hf|]); [now left|right].
    exists n. split; [exact Hn|reflexivity]. }
  destruct Hrun as (w1 & Hf & [->|(n & Hn & ->)]); rewrite <- Hf.
  - destruct (single_path_result self env f (proj1 Hc) sh _ w1 Hne Hread Hsh)
      as (H1 & _ & H2).
    split; [exact H1|exact H2].
  - exact (batched_path_result self env f Hc sh _ n w1 Hne Hread Hsh Hn).
Qed.

End AnyBatchSize.

Section ApplyAnyBatchSize.

Context {M : Type}.
Variable predictor : Predictor M.
Variable env : Env M.
Variable lenv : LabelEnv M.

Local Abbreviation self := (as_model predictor).

(** X19: for a model that keeps the default [predict_all] and whose
    [predict] gives a label that does not depend on the state of the
    model, [apply_model] on a collection of images that all decode ends
    the same way whatever the batch size asked for or configured (none,
    or one from one up) and whether or not the model supports batching:
    the label of each sample is added in the order of the samples, up to
    the first error of [add_labels], which is the error raised. *)
Theorem apply_model_any_batch_size (g : Media -> Label)
    (samples : SampleCollection)
    (label_field : string) (confidence_thresh : option Q)
    (batch_size : option Z) (w : World M) :
  predicts predictor g ->
  isinstance_TorchModelMixin self = false ->
  media_type samples = IMAGE ->
  is_ok (ragged_batches self (model w)) = true ->
  valid_negotiation (resolved_batch_size env batch_size) ->
  all_decode env (sample_list samples) ->
  let run :=
    Apply.apply_model predictor env lenv samples label_field
      confidence_thresh batch_size w in
  (fst run, fields (snd run))
  = labelled env lenv g label_field confidence_thresh (sample_list samples)
      (fields w).
Proof.
  intros Hp Hroute Himg Hr Hv Hread run. subst run.
  assert (Hrun : exists w1, fields w1 = fields w /\
            (Apply.apply_model predictor env lenv samples label_field
               confidence_thresh batch_size w
             = Apply._apply_image_model_single predictor env lenv
                 (sample_list samples) label_field confidence_thresh w1 \/
             exists n, 1 <= n /\
               Apply.apply_model predictor env lenv samples label_field
                 confidence_thresh batch_size w
               = Apply._apply_image_model_batch predictor env lenv
                   (sample_list samples) label_field confidence_thresh n w1)).
  { assert (E : Apply.apply_model predictor env lenv samples label_field
                   confidence_thresh batch_size w
                 = (b <- _parse_batch_size (as_model predictor) env
                           batch_size ;;
                    match b with
                    | Some b =>
                        Apply._apply_image_model_batch predictor env lenv
                          (sample_list samples) label_field confidence_thresh
                          b
                    | None =>
                        Apply._apply_image_model_single predictor env lenv
                          (sample_list samples) label_field confidence_thresh
                    end) w).
    { unfold Apply.apply_model. rewrite Himg, Hroute.
      now rewrite bool_decide_eq_false_2 by discriminate. }
    rewrite E. unfold bind.
    destruct (parse_batch_size_valid self env batch_size w Hr Hv)
      as (r & w1 & -> & Hf & [->|(n & -> & Hn)]); exists w1;
      (split; [exact Hf|]); [now left|right].
    exists n. split; [exact Hn|reflexivity]. }
  destruct Hrun as (w1 & Hf & [->|(n & Hn & ->)]); rewrite <- Hf.
  - exact (apply_single_result predictor env lenv g label_field
             confidence_thresh Hp _ w1 Hread).
  - exact (apply_batch_result predictor env lenv g label_field
             confidence_thresh Hp _ n w1 Hread Hn).
Qed.

End ApplyAnyBatchSize.

Lemma demo_negotiation (default_size : option Z) :
  valid_negotiation
    (resolved_batch_size (Demo.env (M := option ndarray) default_size)
       (Some 2)).
Proof. right. exists 2. split; [reflexivity|lia]. Defined.

Lemma compute_embeddings_any_batch_size_witness :
  (valid_negotiation
     (resolved_batch_size (Demo.env (M := option ndarray) None) (Some 2)) /\
   sample_list (Demo.images [Demo.s1; Demo.s2; Demo.s3]) <> []) /\
  fst (compute_embeddings Demo.batched_model (Demo.env None)
         (Demo.images [Demo.s1; Demo.s2; Demo.s3]) None (Some 2) Demo.world0)
  = Ok (Some (NDArray [NDArray [Scalar 4; Scalar 5];
                       NDArray [Scalar 4; Scalar 6];
                       NDArray [Scalar 4; Scalar 7]])).
Proof.
  assert (Hne : sample_list (Demo.images [Demo.s1; Demo.s2; Demo.s3]) <> [])
    by discriminate.
  split; [exact (conj (demo_negotiation None) Hne)|].
  exact (proj1 (compute_embeddings_any_batch_size Demo.batched_model
                  (Demo.env None) Demo.feature [2%nat]
                  (Demo.images [Demo.s1; Demo.s2; Demo.s3]) (Some 2)
                  Demo.world0 batched_model_rows eq_refl eq_refl eq_refl
                  eq_refl eq_refl (demo_negotiation None) Hne
                  (demo_all_decode _) (demo_rows_shape _))).
Defined.

Lemma apply_model_any_batch_size_witness :
  valid_negotiation
    (resolved_batch_size (Demo.env (M := option ndarray) None) (Some 2)) /\
  (let run :=
     Apply.apply_model DemoApply.predictor (Demo.env None) DemoApply.lenv
       (Demo.images [Demo.s1; Demo.s2; Demo.s3]) "predictions" None (Some 2)
       Demo.world0 in
   (fst run, fields (snd run))
   = labelled (Demo.env None) DemoApply.lenv DemoApply.classify "predictions"
       None [Demo.s1; Demo.s2; Demo.s3] ∅).
Proof.
  split; [exact (demo_negotiation None)|].
  exact (apply_model_any_batch_size DemoApply.predictor (Demo.env None)
           DemoApply.lenv DemoApply.classify
           (Demo.images [Demo.s1; Demo.s2; Demo.s3]) "predictions" None
           (Some 2) Demo.world0 demo_predicts eq_refl eq_refl eq_refl
           (demo_negotiation None) (demo_all_decode _)).
Defined.

(** ** Video collections *)

Section Videos.

Context {M : Type}.
Variable self : ModelClass M.
Variable env : Env M.
Variable f : Media -> ndarray.
Hypothesis rows : embeds_rows self f.

Lemma video_loop_array (l : list Sample) (acc : list ndarray) (w : World M) :
  all_open env l ->
  exists w',
    for_acc (fun sample embeddings =>
        embedding <- with_video_reader env (filepath sample)
                       (call_embed self) ;;
        if truthy None then
          e0 <- lift (getitem0 embedding) ;;
          sample_setitem sample (field_key None) (VArray e0) ;;;
          sample_save sample ;;;
          ret embeddings
        else ret (embeddings ++ [embedding])) l acc w
      = (Ok (acc ++ map (fun s => NDArray [video_row f s]) l), w') /\
    fields w' = fields w.
Proof.
  revert acc w. induction l as [|s l IH]; intros acc w Hopen; cbn [for_acc map].
  - exists w. rewrite app_nil_r. split; reflexivity.
  - cbn [truthy].
    unfold bind at 1. unfold bind at 1.
    unfold with_video_reader, call_embed, bind, emit, lift, on_model, ret.
    simpl. rewrite (Hopen s ltac:(left)).
    pose proof (rows (VideoReader (filepath s)) (model w)) as He.
    destruct (embed self (VideoReader (filepath s)) (model w)) as [r m1].
    simpl in He. subst r. simpl.
    match goal with
    | |- context [for_acc ?body l ?a ?w1] =>
        destruct (IH a w1 ltac:(intros ? ?; apply Hopen; now right))
          as (w' & Hrun & Hf);
        assert (Hrun' : for_acc body l a w1
                        = (Ok (a ++ map (fun s => NDArray [video_row f s]) l),
                           w'))
          by exact Hrun;
        rewrite Hrun'
    end.
    exists w'. rewrite <- app_assoc. split; [reflexivity|exact Hf].
Qed.

(** X20: for a model whose [embed] returns one row under a batch axis of
    size one, [compute_embeddings] on a collection of videos that is not
    empty and whose videos all open, with no [embeddings_field], returns
    one row per sample in the order of the samples and writes no field,
    whatever the batch size given (the batch size is not looked at) and
    whatever the kind of the model. *)
Theorem compute_embeddings_videos (sh : list nat) (samples : SampleCollection)
    (batch_size : option Z) (w : World M) :
  isinstance_EmbeddingsMixin self = true ->
  has_embeddings self (model w) = Ok true ->
  media_type samples = VIDEO ->
  sample_list samples <> [] ->
  all_open env (sample_list samples) ->
  (forall s, s ∈ sample_list samples -> shape (video_row f s) = sh) ->
  let run := compute_embeddings self env samples None batch_size w in
  fst run = Ok (Some (NDArray (map (video_row f) (sample_list samples)))) /\
  fields (snd run) = fields w.
Proof.
  intros Hi Hh Hvid Hne Hopen Hsh run. subst run.
  assert (E : compute_embeddings self env samples None batch_size w
              = _compute_video_embeddings self env (sample_list samples)
                  None w).
  { unfold compute_embeddings. unfold bind at 1.
    rewrite (check_embeddings_model_ok self w Hi Hh), Hvid.
    now rewrite bool_decide_eq_true_2 by reflexivity. }
  rewrite E. unfold _compute_video_embeddings.
  unfold bind, with_model. cbv beta.
  match goal with
  | |- context [for_acc ?body ?l [] ?w1] =>
      destruct (video_loop_array l [] w1 Hopen) as (ws & Hs & Hfs);
      assert (Hs' : for_acc body l [] w1 =
                (Ok ([] ++ map (fun s => NDArray [video_row f s]) l), ws))
        by exact Hs;
      rewrite Hs'
  end.
  cbn [truthy app]. unfold lift.
  pose proof (concatenate_singletons sh
                (map (video_row f) (sample_list samples))) as Hc.
  rewrite map_map in Hc. rewrite Hc.
  - split; [reflexivity|exact Hfs].
  - destruct (sample_list samples); [contradiction|discriminate].
  - apply Forall_forall. intros r Hr.
    apply list_elem_of_fmap in Hr as (s & -> & Hs0). now apply Hsh.
Qed.

End Videos.

Section ApplyVideos.

Context {M : Type}.
Variable predictor : Predictor M.
Variable env : Env M.
Variable lenv : LabelEnv M.
Variable g : Media -> Label.
Variable label_field : string.
Variable confidence_thresh : option Q.
Hypothesis Hpredicts : predicts predictor g.

Local Abbreviation self := (as_model predictor).
Local Abbreviation outcome :=
  (video_labelled lenv g label_field confidence_thresh).

Lemma apply_video_loop (l : list Sample) (w : World M) :
  all_open env l ->
  exists w',
    for_each (fun sample =>
        label <- with_video_reader env (filepath sample)
                   (fun video_reader => on_model (predict self video_reader)) ;;
        Apply.sample_add_labels lenv sample label label_field
          confidence_thresh) l w = (fst (outcome l (fields w)), w') /\
    fields w' = snd (outcome l (fields w)).
Proof.
  unfold for_each. revert w. induction l as [|s l IH]; intros w Hopen;
    cbn [for_acc video_labelled].
  - exists w. split; reflexivity.
  - unfold bind at 1. unfold bind at 1.
    unfold with_video_reader, bind, emit, lift, on_model. simpl.
    rewrite (Hopen s ltac:(left)).
    pose proof (proj1 Hpredicts (VideoReader (filepath s)) (model w)) as Hl.
    destruct (predict self (VideoReader (filepath s)) (model w)) as [r m1].
    simpl in Hl. subst r. unfold Apply.sample_add_labels. simpl.
    destruct (add_labels lenv s (g (VideoReader (filepath s))) label_field
                confidence_thresh (fields w)) as [flds|e].
    + match goal with
      | |- context [for_acc ?body l tt ?w1] =>
          destruct (IH w1 ltac:(intros ? ?; apply Hopen; now right))
            as (w' & Hrun & Hf);
          assert (Hrun' : for_acc body l tt w1 =
                    (fst (outcome l flds), w')) by exact Hrun;
          rewrite Hrun'
      end.
      exists w'. split; [reflexivity|exact Hf].
    + eexists. split; reflexivity.
Qed.

(** X21: for a model whose [predict] gives a label that does not depend
    on the state of the model, [apply_model] on a collection of videos
    that all open adds the label of each sample in the order of the
    samples, up to the first error of [add_labels], which is the error
    raised; the batch size given is not looked at. *)
Theorem apply_model_videos (samples : SampleCollection)
    (batch_size : option Z) (w : World M) :
  media_type samples = VIDEO ->
  all_open env (sample_list samples) ->
  let run :=
    Apply.apply_model predictor env lenv samples label_field
      confidence_thresh batch_size w in
  (fst run, fields (snd run)) = outcome (sample_list samples) (fields w).
Proof.
  intros Hvid Hopen run. subst run.
  assert (E : Apply.apply_model predictor env lenv samples label_field
                confidence_thresh batch_size w
              = Apply._apply_video_model predictor env lenv
                  (sample_list samples) label_field confidence_thresh w).
  { unfold Apply.apply_model. rewrite Hvid.
    now rewrite bool_decide_eq_true_2 by reflexivity. }
  rewrite E. unfold Apply._apply_video_model.
  match goal with
  | |- context [with_model self (for_each ?body ?l) w] =>
      destruct (with_model_fields predictor (for_each body l) w)
        as (H1 & H2);
      destruct (apply_video_loop l
                  {| model := enter self (model w); fields := fields w;
                     trace := trace w ++ [EvEnter] |} Hopen)
        as (ws & Hr & Hf);
      assert (Hr' : for_each body l
                      {| model := enter self (model w); fields := fields w;
                         trace := trace w ++ [EvEnter] |}
                    = (fst (outcome l (fields w)), ws)) by exact Hr
  end.
  rewrite H1, H2, Hr'. cbn [fst snd]. rewrite Hf. cbn [fields].
  now destruct (outcome (sample_list samples) (fields w)).
Qed.

End ApplyVideos.

Lemma demo_all_open (l : list Sample) :
  all_open (Demo.env (M := option ndarray) None) l.
Proof. intros s _. reflexivity. Defined.

Lemma demo_embeds_rows : embeds_rows Demo.batched_model Demo.feature.
Proof. intros arg m. reflexivity. Defined.

Lemma demo_video_shape (l : list Sample) :
  forall s, s ∈ l -> shape (video_row Demo.feature s) = [2%nat].
Proof. intros s _. reflexivity. Defined.

Lemma compute_embeddings_videos_witness :
  sample_list (Demo.videos [Demo.s1; Demo.s2]) <> [] /\
  fst (compute_embeddings Demo.batched_model (Demo.env None)
         (Demo.videos [Demo.s1; Demo.s2]) None (Some 0) Demo.world0)
  = Ok (Some (NDArray [NDArray [Scalar 5; Scalar 0];
                       NDArray [Scalar 6; Scalar 0]])).
Proof.
  assert (Hne : sample_list (Demo.videos [Demo.s1; Demo.s2]) <> [])
    by discriminate.
  split; [exact Hne|].
  exact (proj1 (compute_embeddings_videos Demo.batched_model (Demo.env None)
                  Demo.feature demo_embeds_rows [2%nat]
                  (Demo.videos [Demo.s1; Demo.s2]) (Some 0) Demo.world0
                  eq_refl eq_refl eq_refl Hne (demo_all_open _)
                  (demo_video_shape _))).
Defined.

Lemma apply_model_videos_witness :
  media_type (Demo.videos [Demo.s1; Demo.s2]) = VIDEO /\
  (let run :=
     Apply.apply_model DemoApply.predictor (Demo.env None) DemoApply.lenv
       (Demo.videos [Demo.s1; Demo.s2]) "predictions" None (Some 0)
       Demo.world0 in
   (fst run, fields (snd run))
   = video_labelled DemoApply.lenv DemoApply.classify "predictions" None
       [Demo.s1; Demo.s2] ∅).
Proof.
  split; [reflexivity|].
  exact (apply_model_videos DemoApply.predictor (Demo.env None)
           DemoApply.lenv DemoApply.classify "predictions" None
           demo_predicts (Demo.videos [Demo.s1; Demo.s2]) (Some 0)
           Demo.world0 eq_refl (demo_all_open _)).
Defined.
